(** * Observed: a shallow embedding of [src/index.ts]

    The library wraps plain JavaScript objects and arrays in a [Proxy] whose
    [get] and [set] traps call user callbacks.  The embedding keeps the
    store explicit: objects, the arrays that hold callback registrations
    and proxies are cells of a heap, references are heap locations, and
    identity ([===] on objects) is equality of locations.  Every function
    of the source is a computation in a state-and-exception monad over
    that heap and a trace of the callback calls and property writes. *)

From Stdlib Require Import ZArith.
From stdpp Require Import base list strings.

Set Default Proof Using "Type".
Local Open Scope Z_scope.
Local Open Scope nat_scope.

(** ** Data model *)

(** Heap locations stand for object identity; [fid] for function identity. *)
Abbreviation loc := nat (only parsing).
Abbreviation fid := nat (only parsing).

(** [observedSymbol] and [observedCallbacksSymbol], index.ts lines 1-2. *)
Inductive symbol := observedSymbol | observedCallbacksSymbol.

(** A [PropertyKey] is a string or one of the two symbols. *)
Inductive PropertyKey :=
| PStr (s : string)
| PSym (y : symbol).

(** JavaScript values.  [typeof v === 'object' && v !== null] holds exactly
    of [VRef]; [typeof v === 'function'] exactly of [VFun].  The library
    never computes with numbers; they are integers here. *)
Inductive value :=
| VUndefined
| VNull
| VBool (b : bool)
| VNum (z : Z)
| VStr (s : string)
| VFun (f : fid)
| VRef (l : loc).

(** [type Phase = 'before' | 'after'] *)
Inductive Phase := before | after.

(** [interface CallbackRegistration { cb; phase }] *)
Record CallbackRegistration := Registration { cb : fid; phase : Phase }.

(** [interface ObserveOptions]: every field is optional; a hook field that
    is present holds a function. *)
Record ObserveOptions := Options {
  opt_deep : option bool;
  opt_onBeforeSet : option fid;
  opt_onSet : option fid;
  opt_onGet : option fid
}.

(** [defaultOptions = { deep: true }] *)
Definition defaultOptions : ObserveOptions :=
  {| opt_deep := Some true; opt_onBeforeSet := None;
     opt_onSet := None; opt_onGet := None |}.

(** Object spread [{ ...a, ...b }]: a field present in [b] wins. *)
Definition spread (a b : ObserveOptions) : ObserveOptions :=
  {| opt_deep := from_option Some (opt_deep a) (opt_deep b);
     opt_onBeforeSet := from_option Some (opt_onBeforeSet a) (opt_onBeforeSet b);
     opt_onSet := from_option Some (opt_onSet a) (opt_onSet b);
     opt_onGet := from_option Some (opt_onGet a) (opt_onGet b) |}.

(** [{ ...options, deep: d }] *)
Definition with_deep (options : ObserveOptions) (d : bool) : ObserveOptions :=
  {| opt_deep := Some d; opt_onBeforeSet := opt_onBeforeSet options;
     opt_onSet := opt_onSet options; opt_onGet := opt_onGet options |}.

(** The own properties of an ordinary object, in creation order, which is
    the order [Object.keys] lists string keys in (index-like keys, which
    JavaScript lists first and ascending, are taken to be created in that
    order).  User arrays are objects whose keys are their indices.  The
    two symbol-keyed properties live in the same list; [Object.keys] never
    lists them. *)
Abbreviation properties := (list (PropertyKey * value)) (only parsing).

(** A heap cell: an ordinary object, an array of callback registrations
    (the value of the [observedCallbacksSymbol] property), or a proxy built
    by [observed], which closes over the wrapped object and the options. *)
Inductive cell :=
| CObj (ps : properties)
| CArr (items : list CallbackRegistration)
| CProxy (target : loc) (options : ObserveOptions).

Abbreviation heap := (list cell) (only parsing).

(** What an execution shows to the outside: callback invocations with their
    four arguments, and writes that land on an ordinary object. *)
Inductive event :=
| EvCall (f : fid) (prop : PropertyKey) (a1 a2 a3 : value)
| EvWrite (o : loc) (prop : PropertyKey) (v : value).

Record state := State { st_heap : heap; st_trace : list event }.

Inductive error :=
| CallbackMustBeAFunction   (* Error('callback must be a function') *)
| CallbackIsNotRegistered   (* Error('callback is not registered') *)
| TypeError                 (* a property access on undefined or null *)
| Thrown (f : fid).         (* an exception raised by callback [f] *)

(** Outcome of a computation: a result, an exception, recursion deeper
    than the fuel given, or a step on a store the embedding does not cover
    (a dangling reference, wrapping a registration array). *)
Inductive outcome (A : Type) :=
| Ok (a : A) (s : state)
| Throw (e : error) (s : state)
| OutOfFuel
| Unsupported.
Arguments Ok {A} a s.
Arguments Throw {A} e s.
Arguments OutOfFuel {A}.
Arguments Unsupported {A}.

Definition M (A : Type) : Type := state → outcome A.

Definition ret {A} (a : A) : M A := λ s, Ok a s.

Definition bind {A B} (m : M A) (k : A → M B) : M B :=
  λ s, match m s with
       | Ok a s' => k a s'
       | Throw e s' => Throw e s'
       | OutOfFuel => OutOfFuel
       | Unsupported => Unsupported
       end.

Notation "'let*' x ':=' m 'in' k" := (bind m (λ x, k))
  (at level 10, x name, m at level 100, k at level 200).
Notation "'do*' m 'in' k" := (bind m (λ _, k))
  (at level 10, m at level 100, k at level 200).

Definition throw {A} (e : error) : M A := λ s, Throw e s.
Definition out_of_fuel {A} : M A := λ _, OutOfFuel.
Definition unsupported {A} : M A := λ _, Unsupported.

Definition log (e : event) : M unit :=
  λ s, Ok tt {| st_heap := st_heap s; st_trace := st_trace s ++ [e] |}.

Definition read_cell (l : loc) : M cell :=
  λ s, match st_heap s !! l with
       | Some c => Ok c s
       | None => Unsupported
       end.

Definition write_cell (l : loc) (c : cell) : M unit :=
  λ s, Ok tt {| st_heap := <[l := c]> (st_heap s); st_trace := st_trace s |}.

(** Allocation of a fresh object: its identity is the next free location. *)
Definition alloc (c : cell) : M loc :=
  λ s, Ok (length (st_heap s))
          {| st_heap := st_heap s ++ [c]; st_trace := st_trace s |}.

(** [for (const x of xs) body(x)] *)
Fixpoint for_each {A} (body : A → M unit) (xs : list A) : M unit :=
  match xs with
  | [] => ret tt
  | x :: xs' => do* body x in for_each body xs'
  end.

(** ** Properties of ordinary objects *)

Global Instance symbol_eq_dec : EqDecision symbol.
Proof. solve_decision. Defined.
Global Instance PropertyKey_eq_dec : EqDecision PropertyKey.
Proof. solve_decision. Defined.
Global Instance value_eq_dec : EqDecision value.
Proof. solve_decision. Defined.
Global Instance Phase_eq_dec : EqDecision Phase.
Proof. solve_decision. Defined.
Global Instance CallbackRegistration_eq_dec : EqDecision CallbackRegistration.
Proof. solve_decision. Defined.

(** [o[k]] on an ordinary object: the value, or [undefined] when absent. *)
Fixpoint lookup_prop (ps : properties) (k : PropertyKey) : value :=
  match ps with
  | [] => VUndefined
  | (k', v) :: ps' => if decide (k' = k) then v else lookup_prop ps' k
  end.

(** [o[k] = v] on an ordinary object: overwrite in place, or append. *)
Fixpoint update_prop (ps : properties) (k : PropertyKey) (v : value) : properties :=
  match ps with
  | [] => [(k, v)]
  | (k', v') :: ps' =>
      if decide (k' = k) then (k', v) :: ps' else (k', v') :: update_prop ps' k v
  end.

(** [Object.keys(o)]: the string keys, in order. *)
Fixpoint string_keys (ps : properties) : list string :=
  match ps with
  | [] => []
  | (PStr s, _) :: ps' => s :: string_keys ps'
  | (PSym _, _) :: ps' => string_keys ps'
  end.

(** JavaScript truthiness, as used by [!x] and [!!x]. *)
Definition truthy (v : value) : bool :=
  match v with
  | VUndefined | VNull => false
  | VBool b => b
  | VNum z => negb (Z.eqb z 0)
  | VStr s => match s with EmptyString => false | _ => true end
  | VFun _ | VRef _ => true
  end.

(** ** Example data

    The stores of the README and of the test suite, on which the
    statements below are instantiated at the end of the file. *)

(** Callback [1] doubles numbers and returns anything else as it is (the
    interceptor of the README); every other callback returns nothing. *)
Definition sample_callback (f : fid) (k : PropertyKey) (v a2 a3 : value) : option value :=
  match f with
  | 1 => Some (match v with VNum z => VNum (2 * z) | _ => v end)
  | _ => Some VUndefined
  end.

(** [{ onBeforeSet: f1, onSet: f3, onGet: f4 }] *)
Definition sample_options : ObserveOptions :=
  {| opt_deep := Some true; opt_onBeforeSet := Some 1;
     opt_onSet := Some 3; opt_onGet := Some 4 |}.

Definition sample_registry : list CallbackRegistration :=
  [ {| cb := 2; phase := after |};
    {| cb := 1; phase := before |};
    {| cb := 1; phase := after |} ].

(** An observed [{ test: 123 }]: the object at [0], its registry at [1],
    its proxy at [2]. *)
Definition sample_object : list (PropertyKey * value) :=
  [ (PStr "test", VNum 123);
    (PSym observedCallbacksSymbol, VRef 1);
    (PSym observedSymbol, VBool true) ].

Definition sample_store : state :=
  {| st_heap := [ CObj sample_object; CArr sample_registry; CProxy 0 sample_options ];
     st_trace := [] |}.

(** The raw [{ foo: 'X', cool: { test: 123 } }] of the README. *)
Definition raw_object : list (PropertyKey * value) :=
  [ (PStr "foo", VStr "X"); (PStr "cool", VRef 1) ].

Definition raw_store : state :=
  {| st_heap := [ CObj raw_object; CObj [ (PStr "test", VNum 123) ] ];
     st_trace := [] |}.

Definition raw_rank (l : loc) : nat :=
  match l with 0 => 1 | _ => 0 end.

(** Two raw empty objects, and the options [{ deep: false }]. *)
Definition two_objects : state :=
  {| st_heap := [ CObj []; CObj [] ]; st_trace := [] |}.

Definition shallow : ObserveOptions :=
  {| opt_deep := Some false; opt_onBeforeSet := None;
     opt_onSet := None; opt_onGet := None |}.

(** A validating interceptor: callback [1] throws on a negative number
    and hands on every other value; callback [2] always throws; every
    other callback returns nothing. *)
Definition strict_callback (f : fid) (k : PropertyKey) (v a2 a3 : value) : option value :=
  match f with
  | 1 => match v with
         | VNum z => if (z <? 0)%Z then None else Some v
         | _ => Some v
         end
  | 2 => None
  | _ => Some VUndefined
  end.



(** ** The library *)

Section Observed.

(** User callbacks are parameters of the development.  A callback is
    called with four arguments, the first of which is the property key; it
    returns a value ([undefined] when it returns nothing) or throws
    ([None]).  A callback is a function of its arguments: one that itself
    assigns to an observed object or registers listeners while it runs is
    outside the embedding, so the array of registrations is the same at
    every iteration of the loops of the [set] trap. *)
Variable callback : fid → PropertyKey → value → value → value → option value.

(** [f(prop, a1, a2, a3)] *)
Definition call (f : fid) (prop : PropertyKey) (a1 a2 a3 : value) : M value :=
  do* log (EvCall f prop a1 a2 a3) in
  match callback f prop a1 a2 a3 with
  | Some r => ret r
  | None => throw (Thrown f)
  end.

(** The internal methods of objects and [observed] call one another
    without bound (a proxy may wrap a proxy, a structure may nest to any
    depth), so every function of the library takes its recursive callees
    as a record [rec], and the knot is tied on a recursion budget below:
    [observed (run n) o options] is the call [observed(o, options)] whose
    callees nest at most [n] deep. *)
Record internals := Internals {
  Reflect_get_ : loc → PropertyKey → loc → M value;
  Reflect_set_ : loc → PropertyKey → value → loc → M bool;
  Object_keys_ : loc → M (list string);
  Object_defineProperty_ : loc → symbol → value → M unit;
  observed_ : loc → ObserveOptions → M loc
}.

Section Bodies.

Variable rec : internals.

(** [defineProp(object, prop, value)], called with the two symbols only:
    [Object.defineProperty] with a non-enumerable, writable descriptor. *)
Definition defineProp (object : loc) (prop : symbol) (v : value) : M unit :=
  Object_defineProperty_ rec object prop v.

(** [initCallbackArray(object)] *)
Definition initCallbackArray (object : loc) : M unit :=
  let* v := Reflect_get_ rec object (PSym observedCallbacksSymbol) object in
  if negb (truthy v) then
    let* a := alloc (CArr []) in
    defineProp object observedCallbacksSymbol (VRef a)
  else ret tt.

(** [isObserved(object)]: [!!object[observedSymbol]] *)
Definition isObserved (object : loc) : M bool :=
  let* v := Reflect_get_ rec object (PSym observedSymbol) object in
  ret (truthy v).

(** [getObservers(object)]: [object[observedCallbacksSymbol]] *)
Definition getObservers (object : loc) : M value :=
  Reflect_get_ rec object (PSym observedCallbacksSymbol) object.

(** [mayObserve(value, options)] *)
Definition mayObserve (v : value) (options : ObserveOptions) : M value :=
  match v with
  | VRef l =>
      let* r := observed_ rec l (with_deep options false) in
      ret (VRef r)
  | _ => ret v
  end.

(** The elements a [for] loop over [observers.length] visits: those of
    the array; a [TypeError] on [undefined] and [null]; none on a boolean,
    a number or a string, which have no [length] or no element with a
    [phase]. *)
Definition array_items (observers : value) : M (list CallbackRegistration) :=
  match observers with
  | VRef a =>
      let* c := read_cell a in
      match c with
      | CArr items => ret items
      | _ => unsupported
      end
  | VUndefined | VNull => throw TypeError
  | VFun _ => unsupported
  | VBool _ | VNum _ | VStr _ => ret []
  end.

(** [arr.push(r)]: in place on an array; a [TypeError] on a value that has
    no [push] method. *)
Definition push (arr : value) (r : CallbackRegistration) : M unit :=
  match arr with
  | VRef a =>
      let* c := read_cell a in
      match c with
      | CArr items => write_cell a (CArr (items ++ [r]))
      | _ => unsupported
      end
  | _ => throw TypeError
  end.

(** [[...arr]]: a fresh array with the same elements; a [TypeError] on a
    value that is not iterable. *)
Definition spread_array (arr : value) : M loc :=
  match arr with
  | VRef a =>
      let* c := read_cell a in
      match c with
      | CArr items => alloc (CArr items)
      | _ => unsupported
      end
  | VStr _ => unsupported
  | _ => throw TypeError
  end.

(** The [get] trap of the proxy, index.ts lines 131-137. *)
Definition get_trap (target : loc) (options : ObserveOptions)
    (propertyKey : PropertyKey) (receiver : loc) : M value :=
  let* v := Reflect_get_ rec target propertyKey receiver in
  do* match opt_onGet options with
      | Some f => do* call f propertyKey v (VRef target) (VRef receiver) in ret tt
      | None => ret tt
      end in
  ret v.

(** The first loop of the [set] trap: every ['before'] registration, in
    array order, replaces the pending value by what it returns. *)
Fixpoint inform_before (observers : list CallbackRegistration)
    (prop : PropertyKey) (v valueBefore : value) (receiver : loc) : M value :=
  match observers with
  | [] => ret v
  | callbackRegistration :: rest =>
      let* v := match phase callbackRegistration with
                | before => call (cb callbackRegistration) prop v valueBefore (VRef receiver)
                | after => ret v
                end in
      inform_before rest prop v valueBefore receiver
  end.

(** The second loop: every ['after'] registration is called, its result
    dropped. *)
Definition inform_after (observers : list CallbackRegistration)
    (prop : PropertyKey) (v valueBefore : value) (receiver : loc) : M unit :=
  for_each (λ callbackRegistration,
      match phase callbackRegistration with
      | after => do* call (cb callbackRegistration) prop v valueBefore (VRef receiver) in ret tt
      | before => ret tt
      end) observers.

(** The [set] trap of the proxy, index.ts lines 139-179.  [object] of the
    closure is the proxy's target. *)
Definition set_trap (target : loc) (options : ObserveOptions)
    (prop : PropertyKey) (v : value) (receiver : loc) : M bool :=
  let* valueBefore := Reflect_get_ rec target prop target in
  let* v := mayObserve v options in
  let* v := match opt_onBeforeSet options with
            | Some f => call f prop v valueBefore (VRef receiver)
            | None => ret v
            end in
  let* observers := getObservers target in
  let* items := array_items observers in
  let* v := inform_before items prop v valueBefore receiver in
  do* Reflect_set_ rec target prop v receiver in
  let* items := array_items observers in
  do* inform_after items prop v valueBefore receiver in
  do* match opt_onSet options with
      | Some f => do* call f prop v valueBefore (VRef receiver) in ret tt
      | None => ret tt
      end in
  ret true.

(** [o.[[Get]](k, receiver)] *)
Definition Reflect_get (o : loc) (k : PropertyKey) (receiver : loc) : M value :=
  let* c := read_cell o in
  match c with
  | CObj ps => ret (lookup_prop ps k)
  | CProxy target options => get_trap target options k receiver
  | CArr _ => unsupported
  end.

(** [o.[[Set]](k, v, receiver)].  On an ordinary object the write lands
    on the object the receiver stands for, which on every path of the
    library is [o] itself. *)
Definition Reflect_set (o : loc) (k : PropertyKey) (v : value) (receiver : loc) : M bool :=
  let* c := read_cell o in
  match c with
  | CObj ps =>
      do* write_cell o (CObj (update_prop ps k v)) in
      do* log (EvWrite o k v) in
      ret true
  | CProxy target options => set_trap target options k v receiver
  | CArr _ => unsupported
  end.

(** [Object.keys(o)]; the proxy has no [ownKeys] trap and forwards. *)
Definition Object_keys (o : loc) : M (list string) :=
  let* c := read_cell o in
  match c with
  | CObj ps => ret (string_keys ps)
  | CProxy target _ => Object_keys_ rec target
  | CArr _ => unsupported
  end.

(** [Object.defineProperty(o, y, { value: v, ... })]; the proxy has no
    [defineProperty] trap and forwards. *)
Definition Object_defineProperty (o : loc) (y : symbol) (v : value) : M unit :=
  let* c := read_cell o in
  match c with
  | CObj ps => write_cell o (CObj (update_prop ps (PSym y) v))
  | CProxy target _ => Object_defineProperty_ rec target y v
  | CArr _ => unsupported
  end.

(** [observed(object, options)], index.ts lines 112-187. *)
Definition observed (object : loc) (options : ObserveOptions) : M loc :=
  let options := spread defaultOptions options in
  do* initCallbackArray object in
  let* keys := Object_keys_ rec object in
  do* for_each (λ key,
        let* v := Reflect_get_ rec object (PStr key) object in
        let* v := mayObserve v options in
        do* Reflect_set_ rec object (PStr key) v object in
        ret tt) keys in
  let* marked := isObserved object in
  if marked then ret object
  else
    let* proxy := alloc (CProxy object options) in
    do* defineProp object observedSymbol (VBool true) in
    ret proxy.

(** [onSet(object, callback, phase = 'after')] *)
Definition onSet (object : loc) (callback : value) (phase : option Phase) : M unit :=
  let phase := default after phase in
  match callback with
  | VFun f =>
      do* initCallbackArray object in
      let* arr := Reflect_get_ rec object (PSym observedCallbacksSymbol) object in
      do* push arr {| cb := f; phase := phase |} in
      let* arr := Reflect_get_ rec object (PSym observedCallbacksSymbol) object in
      let* copy := spread_array arr in
      defineProp object observedCallbacksSymbol (VRef copy)
  | _ => throw CallbackMustBeAFunction
  end.

(** [Array.isArray(v)] *)
Definition isArray (v : value) : M bool :=
  match v with
  | VRef a =>
      let* c := read_cell a in
      ret match c with CArr _ => true | _ => false end
  | _ => ret false
  end.

(** [offSet(object, callback?)]; an omitted argument is [undefined]. *)
Definition offSet (object : loc) (callback : value) : M unit :=
  match callback with
  | VUndefined =>
      let* a := alloc (CArr []) in
      defineProp object observedCallbacksSymbol (VRef a)
  | VFun f =>
      let* v := Reflect_get_ rec object (PSym observedCallbacksSymbol) object in
      let* registered := isArray v in
      if negb registered then throw CallbackIsNotRegistered
      else
        let* arr := Reflect_get_ rec object (PSym observedCallbacksSymbol) object in
        let* items := array_items arr in
        let* a := alloc (CArr (filter (λ callbackRegistration,
                                         cb callbackRegistration ≠ f) items)) in
        defineProp object observedCallbacksSymbol (VRef a)
  | _ => throw CallbackMustBeAFunction
  end.

End Bodies.

(** With no budget left every internal method gives up. *)
Definition no_fuel : internals :=
  {| Reflect_get_ := λ _ _ _, out_of_fuel;
     Reflect_set_ := λ _ _ _ _, out_of_fuel;
     Object_keys_ := λ _, out_of_fuel;
     Object_defineProperty_ := λ _ _ _, out_of_fuel;
     observed_ := λ _ _, out_of_fuel |}.

Definition step (rec : internals) : internals :=
  {| Reflect_get_ := Reflect_get rec;
     Reflect_set_ := Reflect_set rec;
     Object_keys_ := Object_keys rec;
     Object_defineProperty_ := Object_defineProperty rec;
     observed_ := observed rec |}.

(** [run n]: the library with calls nested at most [n] deep. *)
Fixpoint run (n : nat) : internals :=
  match n with
  | O => no_fuel
  | S n' => step (run n')
  end.

(** ** Vocabulary of the statements

    The definitions from here to the end of the section are not part of
    the library: they name what the statements say about a store, about
    one write [receiver[k] = v] through a proxy whose target holds [old]
    under [k], and about the stores on which wrapping terminates. *)

(** The ordinary object a reference stands for: itself, or what the
    proxy's target stands for. *)
Inductive base_of (h : heap) : loc → loc → Prop :=
| base_obj l ps : h !! l = Some (CObj ps) → base_of h l l
| base_proxy l t o b :
    h !! l = Some (CProxy t o) → base_of h t b → base_of h l b.

(** What one operation may do to the store: cells are only added; a proxy
    and a registration array stay as they are; an object stays an object,
    and a symbol-keyed property that holds a truthy value keeps it; a
    proxy is only ever built over an object that was not marked. *)
Record pres (h h' : heap) : Prop := {
  pres_length : length h ≤ length h';
  pres_proxy l t o : h !! l = Some (CProxy t o) → h' !! l = Some (CProxy t o);
  pres_arr l items : h !! l = Some (CArr items) → h' !! l = Some (CArr items);
  pres_obj l ps :
    h !! l = Some (CObj ps) →
    ∃ ps', h' !! l = Some (CObj ps') ∧
      ∀ y, truthy (lookup_prop ps (PSym y)) = true →
           lookup_prop ps' (PSym y) = lookup_prop ps (PSym y);
  pres_new l t o ps :
    length h ≤ l → h' !! l = Some (CProxy t o) → h !! t = Some (CObj ps) →
    truthy (lookup_prop ps (PSym observedSymbol)) = false
}.

(** The callbacks of the before phase in the order the trap reaches them:
    the global [onBeforeSet] hook, then the ['before'] registrations in
    array order. *)
Definition before_hooks (options : ObserveOptions)
    (observers : list CallbackRegistration) : list fid :=
  option_list (opt_onBeforeSet options) ++
  map cb (filter (λ reg, phase reg = before) observers).

(** The callbacks of the after phase: the ['after'] registrations in array
    order, then the global [onSet] hook. *)
Definition after_hooks (options : ObserveOptions)
    (observers : list CallbackRegistration) : list fid :=
  map cb (filter (λ reg, phase reg = after) observers) ++
  option_list (opt_onSet options).

(** Feeding a value through a list of callbacks, each one receiving what
    the one before it returned; [None] when one of them throws. *)
Fixpoint pipeline (k : PropertyKey) (old : value) (receiver : loc)
    (fs : list fid) (v : value) : option value :=
  match fs with
  | [] => Some v
  | f :: fs' =>
      match callback f k v old (VRef receiver) with
      | Some v' => pipeline k old receiver fs' v'
      | None => None
      end
  end.

(** The calls that feeding makes, with the arguments of each. *)
Fixpoint pipeline_calls (k : PropertyKey) (old : value) (receiver : loc)
    (fs : list fid) (v : value) : list event :=
  match fs with
  | [] => []
  | f :: fs' =>
      EvCall f k v old (VRef receiver) ::
      match callback f k v old (VRef receiver) with
      | Some v' => pipeline_calls k old receiver fs' v'
      | None => []
      end
  end.

(** The calls of the after phase: every callback gets the committed value. *)
Definition after_calls (k : PropertyKey) (old : value) (receiver : loc)
    (fs : list fid) (v : value) : list event :=
  map (λ f, EvCall f k v old (VRef receiver)) fs.

(** The callback an event is a call of. *)
Definition callee (e : event) : option fid :=
  match e with
  | EvCall f _ _ _ _ => Some f
  | EvWrite _ _ _ => None
  end.

(** The registrations of a node: the elements of the array its
    [observedCallbacksSymbol] property refers to. *)
Definition registry (h : heap) (o : loc) : option (list CallbackRegistration) :=
  match h !! o with
  | Some (CObj ps) =>
      match lookup_prop ps (PSym observedCallbacksSymbol) with
      | VRef a =>
          match h !! a with
          | Some (CArr items) => Some items
          | _ => None
          end
      | _ => None
      end
  | _ => None
  end.

(** A node on which callbacks are registered: an ordinary object, or a
    proxy built by [observed] over an ordinary object [b], with the read
    hook [g] of its options. *)
Inductive node (h : heap) : loc → loc → option fid → Prop :=
| node_object o ps : h !! o = Some (CObj ps) → node h o o None
| node_proxy p t opts ps :
    h !! p = Some (CProxy t opts) → h !! t = Some (CObj ps) →
    node h p t (opt_onGet opts).

(** The read hook of the node returns on every read of the registry. *)
Definition registry_readable (o b : loc) (g : option fid) : Prop :=
  ∀ f v, g = Some f →
    is_Some (callback f (PSym observedCallbacksSymbol) v (VRef b) (VRef o)).

(** A reference is marked when the ordinary object it stands for carries
    a truthy [observedSymbol] property: what [isObserved] tests. *)
Definition marked (h : heap) (o : loc) : Prop :=
  ∃ b ps, base_of h o b ∧ h !! b = Some (CObj ps) ∧
          truthy (lookup_prop ps (PSym observedSymbol)) = true.

(** A reference to something [observed] can wrap: an object or a proxy. *)
Definition composite (h : heap) (c : loc) : Prop :=
  (∃ ps, h !! c = Some (CObj ps)) ∨ (∃ t o, h !! c = Some (CProxy t o)).

(** A store is well formed for a rank [rk] of its objects when
    - the registry property of an object is falsy or refers to an array;
    - an object refers, under its string keys, to objects and proxies of
      lower rank only: nesting is acyclic;
    - a proxy wraps a marked object that has a registry, and has the
      rank of that object. *)
Record wf (rk : loc → nat) (h : heap) : Prop := {
  wf_slot l ps :
    h !! l = Some (CObj ps) →
    truthy (lookup_prop ps (PSym observedCallbacksSymbol)) = false ∨
    ∃ a items, lookup_prop ps (PSym observedCallbacksSymbol) = VRef a ∧
               h !! a = Some (CArr items);
  wf_child l ps k c :
    h !! l = Some (CObj ps) → lookup_prop ps (PStr k) = VRef c →
    rk c < rk l ∧ composite h c;
  wf_proxy l t o :
    h !! l = Some (CProxy t o) →
    rk l = rk t ∧
    ∃ ps, h !! t = Some (CObj ps) ∧
          truthy (lookup_prop ps (PSym observedSymbol)) = true ∧
          truthy (lookup_prop ps (PSym observedCallbacksSymbol)) = true
}.

(** Callbacks that always return, and return either the value they were
    given or a value that is not a reference. *)
Definition tame : Prop :=
  ∀ f k v a2 a3, ∃ v',
    callback f k v a2 a3 = Some v' ∧ (v' = v ∨ ∀ l, v' ≠ VRef l).

(** The rank of a store extended to one more location. *)
Definition rank_with (rk : loc → nat) (p : loc) (d : nat) : loc → nat :=
  λ l, if decide (l = p) then d else rk l.

(** Objects of rank [bound] and more keep their marker from [h] to [h']. *)
Definition flags_kept (rk : loc → nat) (bound : nat) (h h' : heap) : Prop :=
  ∀ l ps, h !! l = Some (CObj ps) → bound ≤ rk l →
    ∃ ps', h' !! l = Some (CObj ps') ∧
           lookup_prop ps' (PSym observedSymbol) = lookup_prop ps (PSym observedSymbol).

(** A value an object of rank [bound] may hold under a string key. *)
Definition value_below (rk : loc → nat) (h : heap) (bound : nat) (v : value) : Prop :=
  ∀ c, v = VRef c → rk c < bound ∧ composite h c.

(** [observed] returns on every reference of rank at most [d], given
    budget [2 d + 3].  It leaves a well-formed store, gives what it
    returns the rank of its argument, changes no marker of an object of
    higher rank, and on an unmarked object returns a new proxy over it. *)
Definition observed_total (d : nat) : Prop :=
  ∀ n o opts s rk,
    2 * d + 3 ≤ n → wf rk (st_heap s) → composite (st_heap s) o → rk o ≤ d →
    ∃ p s' rk',
      observed_ (run n) o opts s = Ok p s' ∧
      wf rk' (st_heap s') ∧
      (∀ l, l < length (st_heap s) → rk' l = rk l) ∧
      rk' p = rk o ∧ composite (st_heap s') p ∧
      flags_kept rk (S (rk o)) (st_heap s) (st_heap s') ∧
      (∀ ps, st_heap s !! o = Some (CObj ps) →
             truthy (lookup_prop ps (PSym observedSymbol)) = false →
             length (st_heap s) ≤ p ∧
             st_heap s' !! p = Some (CProxy o (spread defaultOptions opts))).

(** A write under a string key returns on every reference of rank at
    most [d], given budget [2 d + 2]; it leaves a well-formed store and
    changes no marker of an object of that rank or more. *)
Definition set_total (d : nat) : Prop :=
  ∀ n o k v r s rk,
    2 * d + 2 ≤ n → wf rk (st_heap s) → composite (st_heap s) o → rk o ≤ d →
    value_below rk (st_heap s) (rk o) v →
    ∃ s' rk',
      Reflect_set_ (run n) o (PStr k) v r s = Ok true s' ∧
      wf rk' (st_heap s') ∧
      (∀ l, l < length (st_heap s) → rk' l = rk l) ∧
      flags_kept rk (rk o) (st_heap s) (st_heap s').

(** The call of the read hook [g] that one read of [k] makes through a
    node [o] over the object [b], where [k] holds [v]. *)
Definition read_events (g : option fid) (k : PropertyKey) (v : value)
    (b o : loc) : list event :=
  match g with
  | Some f => [EvCall f k v (VRef b) (VRef o)]
  | None => []
  end.

(** The first callback of a before phase that throws, if one does: each
    callback is given what the one before it returned. *)
Fixpoint thrower (k : PropertyKey) (old : value) (receiver : loc)
    (fs : list fid) (v : value) : option fid :=
  match fs with
  | [] => None
  | f :: fs' =>
      match callback f k v old (VRef receiver) with
      | Some v' => thrower k old receiver fs' v'
      | None => Some f
      end
  end.

(** The callbacks of an after phase that are reached: all of them up to
    and including the first that throws. *)
Fixpoint notified (k : PropertyKey) (old : value) (receiver : loc)
    (fs : list fid) (v : value) : list fid :=
  match fs with
  | [] => []
  | f :: fs' =>
      f :: match callback f k v old (VRef receiver) with
           | Some _ => notified k old receiver fs' v
           | None => []
           end
  end.

(** The first callback of an after phase that throws, if one does. *)
Fixpoint after_thrower (k : PropertyKey) (old : value) (receiver : loc)
    (fs : list fid) (v : value) : option fid :=
  match fs with
  | [] => None
  | f :: fs' =>
      match callback f k v old (VRef receiver) with
      | Some _ => after_thrower k old receiver fs' v
      | None => Some f
      end
  end.

(** Every object of [h] is an object of [h'] with the same string keys,
    in the same order. *)
Definition keys_kept (h h' : heap) : Prop :=
  ∀ l ps, h !! l = Some (CObj ps) →
    ∃ ps', h' !! l = Some (CObj ps') ∧ string_keys ps' = string_keys ps.

(** Two option records with the same three hooks. *)
Definition same_hooks (o1 o2 : ObserveOptions) : Prop :=
  opt_onBeforeSet o1 = opt_onBeforeSet o2 ∧
  opt_onSet o1 = opt_onSet o2 ∧
  opt_onGet o1 = opt_onGet o2.

(** Every proxy of the store carries the hooks of [H]. *)
Definition hooked (H : ObserveOptions) (h : heap) : Prop :=
  ∀ l t o, h !! l = Some (CProxy t o) → same_hooks o H.

(** A cell with the [deep] option of a proxy set aside. *)
Definition forget_deep (c : cell) : cell :=
  match c with
  | CProxy t o => CProxy t (with_deep o false)
  | _ => c
  end.

(** A state with the [deep] option of every proxy set aside, and the
    states that differ in [deep] options only. *)
Definition clear_deep (s : state) : state :=
  {| st_heap := forget_deep <$> st_heap s; st_trace := st_trace s |}.

Definition same_but_deep (s s' : state) : Prop := clear_deep s = clear_deep s'.

(** Two outcomes of the same kind, with results related by [R] and
    states that differ in [deep] options only. *)
Definition alike_with {A} (R : A → A → Prop) (r r' : outcome A) : Prop :=
  match r, r' with
  | Ok a s, Ok a' s' => R a a' ∧ same_but_deep s s'
  | Throw e s, Throw e' s' => e = e' ∧ same_but_deep s s'
  | OutOfFuel, OutOfFuel => True
  | Unsupported, Unsupported => True
  | _, _ => False
  end.

Definition alike {A} (r r' : outcome A) : Prop := alike_with eq r r'.

(** Internal methods that do not tell apart states that differ in [deep]
    options only, nor options that differ in [deep] only. *)
Definition deep_blind (rec : internals) : Prop :=
  (∀ o k r s s', same_but_deep s s' →
     alike (Reflect_get_ rec o k r s) (Reflect_get_ rec o k r s')) ∧
  (∀ o k v r s s', same_but_deep s s' →
     alike (Reflect_set_ rec o k v r s) (Reflect_set_ rec o k v r s')) ∧
  (∀ o s s', same_but_deep s s' →
     alike (Object_keys_ rec o s) (Object_keys_ rec o s')) ∧
  (∀ o y v s s', same_but_deep s s' →
     alike (Object_defineProperty_ rec o y v s) (Object_defineProperty_ rec o y v s')) ∧
  (∀ o opts opts' s s', same_hooks opts opts' → same_but_deep s s' →
     alike (observed_ rec o opts s) (observed_ rec o opts' s')).

(** A value that is not a reference, or a reference that is marked. *)
Definition marked_value (h : heap) (v : value) : Prop :=
  ∀ c, v = VRef c → marked h c.

(** Every marked object holds, under its string keys, marked references
    only. *)
Definition covered (h : heap) : Prop :=
  ∀ l ps k, h !! l = Some (CObj ps) →
    truthy (lookup_prop ps (PSym observedSymbol)) = true →
    marked_value h (lookup_prop ps (PStr k)).

(** From [h] to [h'], a string-keyed property of an object either stays
    as it was or holds a marked value. *)
Definition written_marked (h h' : heap) : Prop :=
  ∀ l ps ps' k, h !! l = Some (CObj ps) → h' !! l = Some (CObj ps') →
    lookup_prop ps' (PStr k) = lookup_prop ps (PStr k) ∨
    marked_value h' (lookup_prop ps' (PStr k)).

(** Callbacks that, when they return, return the value they were given
    or a value that is not an object. *)
Definition no_injection : Prop :=
  ∀ f k v a2 a3 v', callback f k v a2 a3 = Some v' → v' = v ∨ ∀ l, v' ≠ VRef l.

(** What is reachable from a reference through string-keyed properties,
    proxies counting as the object they stand for. *)
Inductive reach (h : heap) : loc → loc → Prop :=
| reach_here l : reach h l l
| reach_child l b ps k c q :
    base_of h l b → h !! b = Some (CObj ps) →
    lookup_prop ps (PStr k) = VRef c → reach h c q → reach h l q.

(** Callbacks that return on every call. *)
Definition returning : Prop :=
  ∀ f k v a2 a3, is_Some (callback f k v a2 a3).

(** ** Reasoning about computations *)

Lemma bind_Ok_inv {A B} (m : M A) (k : A → M B) s b s2 :
  bind m k s = Ok b s2 → ∃ a s1, m s = Ok a s1 ∧ k a s1 = Ok b s2.
Proof.
  unfold bind. destruct (m s) as [a s1| | |]; try discriminate. eauto.
Qed.

Lemma bind_Ok {A B} (m : M A) (k : A → M B) s a s1 :
  m s = Ok a s1 → bind m k s = k a s1.
Proof. unfold bind. by intros ->. Qed.

Lemma read_cell_Ok l s c s1 :
  read_cell l s = Ok c s1 → st_heap s !! l = Some c ∧ s1 = s.
Proof.
  unfold read_cell. destruct (st_heap s !! l); [|discriminate].
  by intros [= -> ->].
Qed.

Lemma read_cell_lookup l s c :
  st_heap s !! l = Some c → read_cell l s = Ok c s.
Proof. unfold read_cell. by intros ->. Qed.

(** [inv_bind H as a s H1] splits [H : bind m k s0 = Ok b s2] into
    [H1 : m s0 = Ok a s] and [H : k a s = Ok b s2]; [inv_step H] consumes
    a primitive step. *)
Tactic Notation "inv_bind" hyp(H) "as" ident(a) ident(s) ident(H1) :=
  apply bind_Ok_inv in H as (a & s & H1 & H).

Ltac inv_step H :=
  lazymatch type of H with
  | ret _ _ = Ok _ _ => unfold ret in H; simplify_eq
  | Ok _ _ = Ok _ _ => simplify_eq
  | throw _ _ = Ok _ _ => discriminate H
  | unsupported _ = Ok _ _ => discriminate H
  | out_of_fuel _ = Ok _ _ => discriminate H
  | read_cell _ _ = Ok _ _ => apply read_cell_Ok in H as [H ->]
  | log _ _ = Ok _ _ => unfold log in H; simplify_eq
  | write_cell _ _ _ = Ok _ _ => unfold write_cell in H; simplify_eq
  | alloc _ _ = Ok _ _ => unfold alloc in H; simplify_eq
  end.

(** ** Properties of objects *)

Lemma lookup_update_eq ps k v : lookup_prop (update_prop ps k v) k = v.
Proof.
  induction ps as [|[k' v'] ps IH]; simpl.
  - by rewrite decide_True.
  - destruct (decide (k' = k)) as [->|Hne]; simpl.
    + by rewrite decide_True.
    + by rewrite decide_False.
Qed.

Lemma lookup_update_ne ps k k' v :
  k ≠ k' → lookup_prop (update_prop ps k v) k' = lookup_prop ps k'.
Proof.
  intros Hne. induction ps as [|[k0 v0] ps IH]; simpl.
  - by rewrite decide_False.
  - destruct (decide (k0 = k)) as [->|Hne0]; simpl.
    + by rewrite !decide_False.
    + by rewrite IH.
Qed.

Lemma string_keys_update_sym ps y v :
  string_keys (update_prop ps (PSym y) v) = string_keys ps.
Proof.
  induction ps as [|[k0 v0] ps IH]; simpl; [done|].
  destruct (decide (k0 = PSym y)) as [->|Hne]; simpl; [done|].
  destruct k0; by rewrite IH.
Qed.

Lemma base_of_obj h l b : base_of h l b → ∃ ps, h !! b = Some (CObj ps).
Proof. induction 1; eauto. Qed.

Lemma base_of_fun h l b1 b2 : base_of h l b1 → base_of h l b2 → b1 = b2.
Proof.
  intros H1. revert b2. induction H1 as [l ps Hl|l t o b Hl _ IH]; intros b2 H2.
  - destruct H2; [done|congruence].
  - destruct H2 as [l' ps' Hl'|l' t' o' b' Hl' Hb']; [congruence|].
    apply IH. by simplify_eq.
Qed.

Lemma pres_refl h : pres h h.
Proof.
  split; eauto.
  intros l t o ps Hl Hp _. apply lookup_lt_Some in Hp. lia.
Qed.

Lemma pres_trans h1 h2 h3 : pres h1 h2 → pres h2 h3 → pres h1 h3.
Proof.
  intros H12 H23. split.
  - etrans; [apply H12|apply H23].
  - intros. by eapply pres_proxy, pres_proxy.
  - intros. by eapply pres_arr, pres_arr.
  - intros l ps Hl.
    destruct (pres_obj _ _ H12 _ _ Hl) as (ps2 & Hl2 & Hk2).
    destruct (pres_obj _ _ H23 _ _ Hl2) as (ps3 & Hl3 & Hk3).
    exists ps3. split; [done|]. intros y Hy.
    rewrite Hk3; rewrite Hk2; done.
  - intros l t o ps Hlen Hl3 Ht.
    destruct (decide (l < length h2)) as [Hlt|Hge].
    + destruct (lookup_lt_is_Some_2 _ _ Hlt) as [c Hc].
      destruct c as [ps2|items|t2 o2].
      * destruct (pres_obj _ _ H23 _ _ Hc) as (? & ? & _). congruence.
      * pose proof (pres_arr _ _ H23 _ _ Hc). congruence.
      * pose proof (pres_proxy _ _ H23 _ _ _ Hc). simplify_eq.
        by eapply (pres_new _ _ H12).
    + destruct (pres_obj _ _ H12 _ _ Ht) as (ps2 & Ht2 & Hk2).
      assert (truthy (lookup_prop ps2 (PSym observedSymbol)) = false) as Hf.
      { eapply (pres_new _ _ H23); [|done..]. lia. }
      destruct (truthy (lookup_prop ps (PSym observedSymbol))) eqn:E; [|done].
      rewrite Hk2 in Hf by done. congruence.
Qed.

Lemma pres_base_of h h' l b : pres h h' → base_of h l b → base_of h' l b.
Proof.
  intros Hp. induction 1 as [l ps Hl|l t o b Hl _ IH].
  - destruct (pres_obj _ _ Hp _ _ Hl) as (ps' & Hl' & _). by econstructor.
  - eapply base_proxy; [|done]. by eapply pres_proxy.
Qed.

Lemma call_Ok f k a1 a2 a3 s r s1 :
  call f k a1 a2 a3 s = Ok r s1 →
  callback f k a1 a2 a3 = Some r ∧
  s1 = {| st_heap := st_heap s; st_trace := st_trace s ++ [EvCall f k a1 a2 a3] |}.
Proof.
  unfold call. intros H. inv_bind H as u s' Hl. inv_step Hl.
  destruct (callback f k a1 a2 a3); [|discriminate]. by inv_step H.
Qed.

Lemma call_Some f k a1 a2 a3 s r :
  callback f k a1 a2 a3 = Some r →
  call f k a1 a2 a3 s =
    Ok r {| st_heap := st_heap s; st_trace := st_trace s ++ [EvCall f k a1 a2 a3] |}.
Proof. unfold call, bind, log. by intros ->. Qed.

(** A read never changes the store, and returns the property of the
    ordinary object the reference stands for. *)
Lemma Reflect_get_inv n o k r s v s1 :
  Reflect_get_ (run n) o k r s = Ok v s1 →
  ∃ b ps, base_of (st_heap s) o b ∧ st_heap s !! b = Some (CObj ps) ∧
          v = lookup_prop ps k ∧ st_heap s1 = st_heap s.
Proof.
  revert o s v s1. induction n as [|n IH]; intros o s v s1 H; [done|].
  simpl in H. unfold Reflect_get in H. inv_bind H as c s' Hc. inv_step Hc.
  destruct c as [ps|items|t opts].
  - inv_step H. exists o, ps. eauto using base_of.
  - done.
  - unfold get_trap in H. inv_bind H as v' s2 Hg.
    apply IH in Hg as (b & ps & Hb & Hps & -> & Hh).
    inv_bind H as u s3 Hhook. inv_step H.
    exists b, ps. split_and!; [by econstructor|done|done|].
    rewrite <-Hh. destruct (opt_onGet opts); [|by inv_step Hhook].
    inv_bind Hhook as r' s4 Hcall. apply call_Ok in Hcall as [_ ->]. by inv_step Hhook.
Qed.

Lemma Object_keys_inv n o s ks s1 :
  Object_keys_ (run n) o s = Ok ks s1 →
  ∃ b ps, base_of (st_heap s) o b ∧ st_heap s !! b = Some (CObj ps) ∧
          ks = string_keys ps ∧ s1 = s.
Proof.
  revert o. induction n as [|n IH]; intros o H; [done|].
  simpl in H. unfold Object_keys in H. inv_bind H as c s' Hc. inv_step Hc.
  destruct c as [ps|items|t opts].
  - inv_step H. exists o, ps. eauto using base_of.
  - done.
  - apply IH in H as (b & ps & Hb & Hps & -> & ->).
    exists b, ps. split_and!; [by econstructor|done..].
Qed.

Lemma Object_defineProperty_inv n o y v s u s1 :
  Object_defineProperty_ (run n) o y v s = Ok u s1 →
  ∃ b ps, base_of (st_heap s) o b ∧ st_heap s !! b = Some (CObj ps) ∧
    s1 = {| st_heap := <[b := CObj (update_prop ps (PSym y) v)]> (st_heap s);
            st_trace := st_trace s |}.
Proof.
  revert o. induction n as [|n IH]; intros o H; [done|].
  simpl in H. unfold Object_defineProperty in H. inv_bind H as c s' Hc. inv_step Hc.
  destruct c as [ps|items|t opts].
  - inv_step H. exists o, ps. eauto using base_of.
  - done.
  - apply IH in H as (b & ps & Hb & Hps & ->).
    exists b, ps. split_and!; [by econstructor|done..].
Qed.

Lemma pres_alloc_arr h items : pres h (h ++ [CArr items]).
Proof.
  split.
  - rewrite length_app. lia.
  - intros. by apply lookup_app_l_Some.
  - intros. by apply lookup_app_l_Some.
  - intros l ps Hl. exists ps. split; [by apply lookup_app_l_Some|done].
  - intros l t o ps Hlen Hl _.
    destruct (decide (l = length h)) as [->|Hne].
    + by rewrite list_lookup_middle in Hl.
    + apply lookup_lt_Some in Hl. rewrite length_app in Hl. simpl in Hl. lia.
Qed.

Lemma pres_alloc_proxy h t o :
  (∀ ps, h !! t = Some (CObj ps) →
         truthy (lookup_prop ps (PSym observedSymbol)) = false) →
  pres h (h ++ [CProxy t o]).
Proof.
  intros Hun. split.
  - rewrite length_app. lia.
  - intros. by apply lookup_app_l_Some.
  - intros. by apply lookup_app_l_Some.
  - intros l ps Hl. exists ps. split; [by apply lookup_app_l_Some|done].
  - intros l t' o' ps Hlen Hl Ht.
    destruct (decide (l = length h)) as [->|Hne].
    + rewrite list_lookup_middle in Hl by done. simplify_eq. eauto.
    + apply lookup_lt_Some in Hl. rewrite length_app in Hl. simpl in Hl. lia.
Qed.

Lemma pres_update h b ps k v :
  h !! b = Some (CObj ps) →
  (∀ y, k = PSym y → truthy (lookup_prop ps (PSym y)) = false) →
  pres h (<[b := CObj (update_prop ps k v)]> h).
Proof.
  intros Hb Hk. split.
  - by rewrite length_insert.
  - intros l t o Hl. rewrite list_lookup_insert_ne; [done|congruence].
  - intros l items Hl. rewrite list_lookup_insert_ne; [done|congruence].
  - intros l ps' Hl. destruct (decide (l = b)) as [->|Hne].
    + simplify_eq. eexists. split.
      * apply list_lookup_insert_eq. by eapply lookup_lt_Some.
      * intros y Hy. apply lookup_update_ne. intros ->.
        rewrite Hk in Hy; done.
    + exists ps'. by rewrite list_lookup_insert_ne.
  - intros l t o ps' Hlen Hl _. apply lookup_lt_Some in Hl.
    rewrite length_insert in Hl. lia.
Qed.

Lemma base_of_CObj h l ps b : h !! l = Some (CObj ps) → base_of h l b → b = l.
Proof. intros Hl Hb. destruct Hb; [done|congruence]. Qed.

(** The two loops of the [set] trap call callbacks and touch nothing. *)
Lemma inform_before_heap items k v old r s v' s1 :
  inform_before items k v old r s = Ok v' s1 → st_heap s1 = st_heap s.
Proof.
  revert v s. induction items as [|[f ph] items IH]; intros v s H; simpl in H.
  - by inv_step H.
  - inv_bind H as v1 s2 Hc. apply IH in H. rewrite H.
    destruct ph; simpl in Hc; [|by inv_step Hc].
    by apply call_Ok in Hc as [_ ->].
Qed.

Lemma inform_after_heap items k v old r s u s1 :
  inform_after items k v old r s = Ok u s1 → st_heap s1 = st_heap s.
Proof.
  unfold inform_after. revert s.
  induction items as [|[f ph] items IH]; intros s H; simpl in H.
  - by inv_step H.
  - inv_bind H as v1 s2 Hc. apply IH in H. rewrite H.
    destruct ph; simpl in Hc; [by inv_step Hc|].
    inv_bind Hc as r' s3 Hcall. apply call_Ok in Hcall as [_ ->]. by inv_step Hc.
Qed.

Lemma array_items_Ok v s items s1 :
  array_items v s = Ok items s1 → s1 = s.
Proof.
  destruct v; simpl; intros H; try done; try by inv_step H.
  inv_bind H as c s' Hc. inv_step Hc. destruct c; try done. by inv_step H.
Qed.

Lemma for_each_inv {A} (R : state → state → Prop) (body : A → M unit) xs :
  (∀ s, R s s) → (∀ s1 s2 s3, R s1 s2 → R s2 s3 → R s1 s3) →
  (∀ x s u s1, x ∈ xs → body x s = Ok u s1 → R s s1) →
  ∀ s u s1, for_each body xs s = Ok u s1 → R s s1.
Proof.
  intros Hrefl Htrans. induction xs as [|x xs IH]; intros Hbody s u s1 H; simpl in H.
  - inv_step H. apply Hrefl.
  - inv_bind H as u' s2 Hx. eapply Htrans.
    + eapply Hbody; [|done]. by left.
    + eapply IH; [|done]. intros. eapply Hbody; [|done]. by right.
Qed.

(** Every write under a string key and every call of [observed] keeps
    [pres]: symbol-keyed properties are written only while they are
    falsy, and a proxy is allocated only over an unmarked object. *)
Lemma initCallbackArray_pres n o s u s1 :
  initCallbackArray (run n) o s = Ok u s1 → pres (st_heap s) (st_heap s1).
Proof.
  unfold initCallbackArray. intros H. inv_bind H as v s2 Hg.
  apply Reflect_get_inv in Hg as (b & ps & Hb & Hps & -> & Hh).
  destruct (truthy (lookup_prop ps (PSym observedCallbacksSymbol))) eqn:Ht; simpl in H.
  - inv_step H. rewrite Hh. apply pres_refl.
  - inv_bind H as a s3 Ha. inv_step Ha. unfold defineProp in H.
    apply Object_defineProperty_inv in H as (b' & ps' & Hb' & Hps' & ->). simpl in *.
    rewrite Hh in *.
    assert (b' = b) as ->.
    { eapply base_of_fun; [done|]. eapply pres_base_of; [apply pres_alloc_arr|done]. }
    rewrite lookup_app_l in Hps' by (by eapply lookup_lt_Some). simplify_eq.
    eapply pres_trans; [apply pres_alloc_arr|].
    apply pres_update; [by apply lookup_app_l_Some|].
    by intros y [= <-].
Qed.

Lemma set_observed_pres n :
  (∀ o k v r s b s1,
      Reflect_set_ (run n) o (PStr k) v r s = Ok b s1 →
      pres (st_heap s) (st_heap s1)) ∧
  (∀ o opts s p s1,
      observed_ (run n) o opts s = Ok p s1 →
      pres (st_heap s) (st_heap s1)).
Proof.
  induction n as [|n [IHset IHobs]]; [done|].
  assert (∀ v opts s v' s1,
    mayObserve (run n) v opts s = Ok v' s1 → pres (st_heap s) (st_heap s1)) as Hmay.
  { intros v opts s v' s1 H. destruct v; simpl in H; try (inv_step H; apply pres_refl).
    inv_bind H as p s2 Ho. inv_step H. eauto. }
  split.
  - intros o k v r s b s1 H. simpl in H. unfold Reflect_set in H.
    inv_bind H as c s' Hc. inv_step Hc. destruct c as [ps|items|t opts]; [| done |].
    + inv_bind H as u1 s2 Hw. inv_step Hw. inv_bind H as u2 s3 Hl. inv_step Hl.
      inv_step H. simpl. by apply pres_update.
    + unfold set_trap in H.
      inv_bind H as old s2 Hg. apply Reflect_get_inv in Hg as (_ & _ & _ & _ & _ & Hh2).
      inv_bind H as v1 s3 Hm. apply Hmay in Hm.
      inv_bind H as v2 s4 Hgb.
      assert (st_heap s4 = st_heap s3) as Hh4.
      { destruct (opt_onBeforeSet opts); [|by inv_step Hgb].
        by apply call_Ok in Hgb as [_ ->]. }
      inv_bind H as obs s5 Hgo. unfold getObservers in Hgo.
      apply Reflect_get_inv in Hgo as (_ & _ & _ & _ & _ & Hh5).
      inv_bind H as items s6 Hi. apply array_items_Ok in Hi as ->.
      inv_bind H as v3 s7 Hb. apply inform_before_heap in Hb.
      inv_bind H as b1 s8 Hs. apply IHset in Hs.
      inv_bind H as items2 s9 Hi. apply array_items_Ok in Hi as ->.
      inv_bind H as u3 s10 Ha. apply inform_after_heap in Ha.
      inv_bind H as u4 s11 Hga. inv_step H.
      assert (st_heap s1 = st_heap s10) as ->.
      { destruct (opt_onSet opts); [|by inv_step Hga].
        inv_bind Hga as r' s12 Hcall. apply call_Ok in Hcall as [_ ->]. by inv_step Hga. }
      rewrite Ha. eapply pres_trans; [|done].
      rewrite Hb, Hh5, Hh4. by rewrite <-Hh2.
  - intros o opts s p s1 H. simpl in H. unfold observed in H.
    inv_bind H as u1 s2 Hinit. apply initCallbackArray_pres in Hinit.
    inv_bind H as keys s3 Hk. apply Object_keys_inv in Hk as (_ & _ & _ & _ & _ & ->).
    inv_bind H as u2 s4 Hloop.
    apply (for_each_inv (λ s s', pres (st_heap s) (st_heap s'))) in Hloop;
      [|intros; apply pres_refl|intros; by eapply pres_trans|]; last first.
    { intros key sa u sb _ Hbody.
      inv_bind Hbody as v sc Hg. apply Reflect_get_inv in Hg as (_ & _ & _ & _ & _ & Hhc).
      inv_bind Hbody as v' sd Hm. apply Hmay in Hm.
      inv_bind Hbody as b1 se Hs. apply IHset in Hs. inv_step Hbody.
      rewrite <-Hhc. by eapply pres_trans. }
    inv_bind H as marked s5 Hobs. unfold isObserved in Hobs.
    inv_bind Hobs as v s6 Hg. inv_step Hobs.
    apply Reflect_get_inv in Hg as (b & ps & Hb & Hps & -> & Hh6).
    eapply pres_trans; [done|]. eapply pres_trans; [done|].
    destruct (truthy (lookup_prop ps (PSym observedSymbol))) eqn:Ht.
    + inv_step H. rewrite Hh6. apply pres_refl.
    + inv_bind H as proxy s7 Ha. inv_step Ha. inv_bind H as u3 s8 Hd. inv_step H.
      unfold defineProp in Hd.
      apply Object_defineProperty_inv in Hd as (b' & ps' & Hb' & Hps' & ->). simpl in *.
      rewrite Hh6 in *.
      assert (pres (st_heap s4) (st_heap s4 ++ [CProxy o (spread defaultOptions opts)])) as Hpa.
      { apply pres_alloc_proxy. intros ps0 Ho.
        by rewrite (base_of_CObj _ _ _ _ Ho Hb) in Hps; simplify_eq. }
      assert (b' = b) as ->.
      { eapply base_of_fun; [done|]. by eapply pres_base_of. }
      rewrite lookup_app_l in Hps' by (by eapply lookup_lt_Some). simplify_eq.
      eapply pres_trans; [done|].
      apply pres_update; [by apply lookup_app_l_Some|].
      by intros y [= <-].
Qed.

Lemma inform_before_spec k old r items v vb s :
  pipeline k old r (map cb (filter (λ reg, phase reg = before) items)) v = Some vb →
  inform_before items k v old r s =
    Ok vb {| st_heap := st_heap s;
             st_trace := st_trace s ++
               pipeline_calls k old r
                 (map cb (filter (λ reg, phase reg = before) items)) v |}.
Proof.
  revert v s. induction items as [|[f ph] items IH]; intros v s H; simpl in *.
  - simplify_eq. rewrite app_nil_r. by destruct s.
  - destruct ph; simpl in *.
    + destruct (callback f k v old (VRef r)) as [v'|] eqn:Hc; [|done].
      erewrite bind_Ok; [|by apply call_Some].
      rewrite (IH _ _ H). simpl. by rewrite <-app_assoc.
    + erewrite bind_Ok; [|done]. by apply IH.
Qed.

Lemma inform_after_spec k old r items v s :
  Forall (λ f, is_Some (callback f k v old (VRef r)))
         (map cb (filter (λ reg, phase reg = after) items)) →
  inform_after items k v old r s =
    Ok tt {| st_heap := st_heap s;
             st_trace := st_trace s ++
               after_calls k old r
                 (map cb (filter (λ reg, phase reg = after) items)) v |}.
Proof.
  unfold inform_after, after_calls.
  revert s. induction items as [|[f ph] items IH]; intros s H; simpl in *.
  - rewrite app_nil_r. by destruct s.
  - destruct ph; simpl in *.
    + erewrite bind_Ok; [|done]. by apply IH.
    + apply Forall_cons in H as [[r' Hc] H].
      erewrite bind_Ok; [|by erewrite bind_Ok; [|by apply call_Some]].
      rewrite (IH _ H). simpl. by rewrite <-app_assoc.
Qed.

Lemma mayObserve_pres n v opts s v1 s1 :
  mayObserve (run n) v opts s = Ok v1 s1 → pres (st_heap s) (st_heap s1).
Proof.
  intros H. destruct v; simpl in H; try (inv_step H; apply pres_refl).
  inv_bind H as p s2 Ho. inv_step H. by eapply set_observed_pres.
Qed.

Lemma Reflect_get_obj rec o ps k r s :
  st_heap s !! o = Some (CObj ps) →
  Reflect_get rec o k r s = Ok (lookup_prop ps k) s.
Proof.
  intros Ho. unfold Reflect_get. by erewrite bind_Ok; [|by apply read_cell_lookup].
Qed.

Lemma array_items_arr a items s :
  st_heap s !! a = Some (CArr items) → array_items (VRef a) s = Ok items s.
Proof.
  intros Ha. simpl. by erewrite bind_Ok; [|by apply read_cell_lookup].
Qed.

(** One write through a proxy over an ordinary object, step by step: the
    old value is read, the incoming value is wrapped, the before phase
    runs, the value is committed, the after phase runs, and the trap
    answers [true]. *)
Lemma Reflect_set_proxy n p t opts ps a regs k v r s v1 s1 vb :
  st_heap s !! p = Some (CProxy t opts) →
  st_heap s !! t = Some (CObj ps) →
  lookup_prop ps (PSym observedCallbacksSymbol) = VRef a →
  st_heap s !! a = Some (CArr regs) →
  mayObserve (run (S n)) v opts s = Ok v1 s1 →
  pipeline k (lookup_prop ps k) r (before_hooks opts regs) v1 = Some vb →
  Forall (λ f, is_Some (callback f k vb (lookup_prop ps k) (VRef r)))
         (after_hooks opts regs) →
  ∃ ps1, st_heap s1 !! t = Some (CObj ps1) ∧
    Reflect_set (run (S n)) p k v r s =
      Ok true
        {| st_heap := <[t := CObj (update_prop ps1 k vb)]> (st_heap s1);
           st_trace := st_trace s1 ++
             pipeline_calls k (lookup_prop ps k) r (before_hooks opts regs) v1 ++
             [EvWrite t k vb] ++
             after_calls k (lookup_prop ps k) r (after_hooks opts regs) vb |}.
Proof.
  intros Hp Ht Hslot Ha Hwrap Hpipe Hafter.
  pose proof (mayObserve_pres _ _ _ _ _ _ Hwrap) as Hpres.
  destruct (pres_obj _ _ Hpres _ _ Ht) as (ps1 & Ht1 & Hkeep).
  pose proof (pres_arr _ _ Hpres _ _ Ha) as Ha1.
  assert (lookup_prop ps1 (PSym observedCallbacksSymbol) = VRef a) as Hslot1.
  { rewrite Hkeep; [done|]. by rewrite Hslot. }
  exists ps1. split; [done|].
  unfold Reflect_set. erewrite bind_Ok; [|by apply read_cell_lookup].
  unfold set_trap. simpl Reflect_get_.
  erewrite bind_Ok; [|by apply Reflect_get_obj].
  erewrite bind_Ok; [|done].
  set (old := lookup_prop ps k) in *.
  unfold before_hooks, after_hooks in *.
  apply Forall_app in Hafter as [Hafter Hga].
  (* the global before-hook *)
  assert (∃ v2, match opt_onBeforeSet opts with
                | Some f => callback f k v1 old (VRef r) = Some v2
                | None => v2 = v1
                end ∧
                pipeline k old r (map cb (filter (λ reg, phase reg = before) regs)) v2
                  = Some vb) as (v2 & Hgb & Hrest).
  { destruct (opt_onBeforeSet opts) as [f|]; simpl in Hpipe; [|by eauto].
    destruct (callback f k v1 old (VRef r)) as [v2|]; [by eauto|done]. }
  set (s2 := {| st_heap := st_heap s1;
                st_trace := st_trace s1 ++
                  pipeline_calls k old r (option_list (opt_onBeforeSet opts)) v1 |}).
  erewrite (bind_Ok _ _ s1 v2 s2); last first.
  { subst s2. destruct (opt_onBeforeSet opts) as [f|]; simpl.
    - rewrite (call_Some _ _ _ _ _ _ _ Hgb). by rewrite Hgb.
    - subst v2. rewrite app_nil_r. by destruct s1. }
  unfold getObservers. simpl Reflect_get_.
  erewrite bind_Ok; [|by apply Reflect_get_obj]. rewrite Hslot1.
  erewrite bind_Ok; [|by apply array_items_arr].
  erewrite bind_Ok; [|by apply inform_before_spec].
  set (s3 := {| st_heap := st_heap s2; st_trace := _ |}).
  (* the commit *)
  erewrite (bind_Ok _ _ s3 true); last first.
  { simpl Reflect_set_. unfold Reflect_set.
    erewrite bind_Ok; [|by apply read_cell_lookup].
    unfold bind, write_cell, log, ret. simpl. reflexivity. }
  erewrite bind_Ok; last first.
  { apply array_items_arr. simpl. rewrite list_lookup_insert_ne; [done|].
    intros ->. congruence. }
  erewrite bind_Ok; [|by apply inform_after_spec].
  set (s5 := {| st_heap := <[t:=_]> _; st_trace := _ |}).
  assert (pipeline_calls k old r
            (option_list (opt_onBeforeSet opts) ++
             map cb (filter (λ reg, phase reg = before) regs)) v1 =
          pipeline_calls k old r (option_list (opt_onBeforeSet opts)) v1 ++
          pipeline_calls k old r (map cb (filter (λ reg, phase reg = before) regs)) v2)
    as ->.
  { destruct (opt_onBeforeSet opts) as [f|]; simpl; [by rewrite Hgb|by subst]. }
  unfold after_calls. rewrite map_app.
  destruct (opt_onSet opts) as [f|]; simpl.
  - apply Forall_singleton in Hga as [r' Hr'].
    erewrite bind_Ok; [|by erewrite bind_Ok; [|by apply call_Some]].
    unfold ret. f_equal. subst s5 s3 s2. simpl. f_equal.
    by rewrite <-?app_assoc; simpl; rewrite <-?app_assoc.
  - unfold bind, ret. f_equal. subst s5 s3 s2. simpl. f_equal.
    by rewrite app_nil_r, <-?app_assoc; simpl; rewrite <-?app_assoc.
Qed.

Lemma pipeline_app k old r fs1 fs2 v :
  pipeline k old r (fs1 ++ fs2) v =
    match pipeline k old r fs1 v with
    | Some v' => pipeline k old r fs2 v'
    | None => None
    end.
Proof.
  revert v. induction fs1 as [|f fs1 IH]; intros v; simpl; [done|].
  by destruct (callback f k v old (VRef r)).
Qed.

Lemma pipeline_calls_callee k old r fs v vb :
  pipeline k old r fs v = Some vb →
  omap callee (pipeline_calls k old r fs v) = fs.
Proof.
  revert v. induction fs as [|f fs IH]; intros v H; simpl in *; [done|].
  destruct (callback f k v old (VRef r)); [|done]. f_equal. by apply IH.
Qed.

Lemma pipeline_calls_lookup k old r fs v vb i f :
  pipeline k old r fs v = Some vb →
  fs !! i = Some f →
  ∃ vi, pipeline k old r (take i fs) v = Some vi ∧
        pipeline_calls k old r fs v !! i = Some (EvCall f k vi old (VRef r)) ∧
        is_Some (callback f k vi old (VRef r)).
Proof.
  revert v i. induction fs as [|f0 fs IH]; intros v i H Hi; [done|].
  simpl in H. destruct (callback f0 k v old (VRef r)) as [v'|] eqn:Hc; [|done].
  destruct i as [|i]; simpl in *.
  - simplify_eq. exists v. by rewrite Hc.
  - rewrite Hc. by apply IH.
Qed.

Lemma pipeline_calls_length k old r fs v vb :
  pipeline k old r fs v = Some vb →
  length (pipeline_calls k old r fs v) = length fs.
Proof.
  revert v. induction fs as [|f fs IH]; intros v H; simpl in *; [done|].
  destruct (callback f k v old (VRef r)); [|done]. f_equal. by apply IH.
Qed.

Lemma pipeline_last k old r fs f v vb :
  pipeline k old r (fs ++ [f]) v = Some vb →
  ∃ vi, callback f k vi old (VRef r) = Some vb.
Proof.
  rewrite pipeline_app. destruct (pipeline k old r fs v) as [vi|]; [|done].
  simpl. destruct (callback f k vi old (VRef r)) eqn:Hc; [|done].
  intros [= <-]. eauto.
Qed.

Lemma after_calls_callee k old r fs v :
  omap callee (after_calls k old r fs v) = fs.
Proof. unfold after_calls. induction fs; simpl; [done|]. by f_equal. Qed.

(** One read through a proxy: the target is read, then the hook runs. *)
Lemma Reflect_get_proxy rec p t opts k r s v s1 :
  st_heap s !! p = Some (CProxy t opts) →
  Reflect_get_ rec t k r s = Ok v s1 →
  (∀ f, opt_onGet opts = Some f →
        ∃ ignored, callback f k v (VRef t) (VRef r) = Some ignored) →
  Reflect_get rec p k r s =
    Ok v {| st_heap := st_heap s1;
            st_trace := st_trace s1 ++
              match opt_onGet opts with
              | Some f => [EvCall f k v (VRef t) (VRef r)]
              | None => []
              end |}.
Proof.
  intros Hp Hget Hhook. unfold Reflect_get.
  erewrite bind_Ok; [|by apply read_cell_lookup].
  unfold get_trap. erewrite bind_Ok; [|done].
  destruct (opt_onGet opts) as [f|].
  - destruct (Hhook f eq_refl) as [ignored Hc].
    erewrite bind_Ok; [|by erewrite bind_Ok; [|by apply call_Some]]. done.
  - unfold bind, ret. rewrite app_nil_r. by destruct s1.
Qed.

(** ** Reads and writes through a proxy *)

(** C9 (read interception is observational only).  A property read
    through a proxy returns exactly the value [Reflect.get] retrieves from
    the target.  When the options carry an [onGet] hook it is called once,
    with [(key, value, target, receiver)], after the value was retrieved;
    whatever the hook returns ([ignored], any value) the read returns the
    retrieved value and the store is the one the retrieval left. *)
Theorem read_interception n p t opts k r s v s1 :
  st_heap s !! p = Some (CProxy t opts) →
  Reflect_get_ (run n) t k r s = Ok v s1 →
  (∀ f, opt_onGet opts = Some f →
        ∃ ignored, callback f k v (VRef t) (VRef r) = Some ignored) →
  Reflect_get (run n) p k r s =
    Ok v {| st_heap := st_heap s1;
            st_trace := st_trace s1 ++
              match opt_onGet opts with
              | Some f => [EvCall f k v (VRef t) (VRef r)]
              | None => []
              end |}.
Proof. apply Reflect_get_proxy. Qed.

(** C3 (fixed dispatch order).  On a write through a proxy, once the
    incoming value has been wrapped, the trap emits, in this order: the
    call of the global [onBeforeSet] hook (if configured), the calls of
    the ['before'] registrations in array order, the write that commits
    the value on the target, the calls of the ['after'] registrations in
    array order, and last the call of the global [onSet] hook (if
    configured). *)
Theorem dispatch_order n p t opts ps a regs k v r s v1 s1 vb :
  st_heap s !! p = Some (CProxy t opts) →
  st_heap s !! t = Some (CObj ps) →
  lookup_prop ps (PSym observedCallbacksSymbol) = VRef a →
  st_heap s !! a = Some (CArr regs) →
  mayObserve (run (S n)) v opts s = Ok v1 s1 →
  pipeline k (lookup_prop ps k) r (before_hooks opts regs) v1 = Some vb →
  Forall (λ f, is_Some (callback f k vb (lookup_prop ps k) (VRef r)))
         (after_hooks opts regs) →
  ∃ s' calls_before calls_after,
    Reflect_set (run (S n)) p k v r s = Ok true s' ∧
    st_trace s' =
      st_trace s1 ++ calls_before ++ [EvWrite t k vb] ++ calls_after ∧
    omap callee calls_before =
      option_list (opt_onBeforeSet opts) ++
      map cb (filter (λ reg, phase reg = before) regs) ∧
    omap callee calls_after =
      map cb (filter (λ reg, phase reg = after) regs) ++
      option_list (opt_onSet opts).
Proof.
  intros Hp Ht Hslot Ha Hwrap Hpipe Hafter.
  destruct (Reflect_set_proxy _ _ _ _ _ _ _ _ _ _ _ _ _ _
              Hp Ht Hslot Ha Hwrap Hpipe Hafter) as (ps1 & _ & ->).
  eexists _, _, _. split_and!; [done|done|..].
  - by eapply pipeline_calls_callee.
  - apply after_calls_callee.
Qed.

(** C4 (before-phase pipeline).  The value stored on the target is the
    incoming (wrapped) value fed through the global [onBeforeSet] hook and
    then the ['before'] registrations in array order: the [i]-th of these
    callbacks is called with the value the first [i] produced, and the
    value committed is what the last one returned, whatever it is; a
    callback that returns nothing makes it [undefined]. *)
Theorem before_phase_pipeline n p t opts ps a regs k v r s v1 s1 vb :
  st_heap s !! p = Some (CProxy t opts) →
  st_heap s !! t = Some (CObj ps) →
  lookup_prop ps (PSym observedCallbacksSymbol) = VRef a →
  st_heap s !! a = Some (CArr regs) →
  mayObserve (run (S n)) v opts s = Ok v1 s1 →
  pipeline k (lookup_prop ps k) r (before_hooks opts regs) v1 = Some vb →
  Forall (λ f, is_Some (callback f k vb (lookup_prop ps k) (VRef r)))
         (after_hooks opts regs) →
  ∃ s' ps' calls_before rest,
    Reflect_set (run (S n)) p k v r s = Ok true s' ∧
    st_heap s' !! t = Some (CObj ps') ∧ lookup_prop ps' k = vb ∧
    st_trace s' = st_trace s1 ++ calls_before ++ [EvWrite t k vb] ++ rest ∧
    length calls_before = length (before_hooks opts regs) ∧
    (∀ i f, before_hooks opts regs !! i = Some f →
       ∃ vi, pipeline k (lookup_prop ps k) r (take i (before_hooks opts regs)) v1
               = Some vi ∧
             calls_before !! i = Some (EvCall f k vi (lookup_prop ps k) (VRef r))) ∧
    (∀ fs f, before_hooks opts regs = fs ++ [f] →
       ∃ vi, callback f k vi (lookup_prop ps k) (VRef r) = Some vb) ∧
    (before_hooks opts regs = [] → vb = v1).
Proof.
  intros Hp Ht Hslot Ha Hwrap Hpipe Hafter.
  destruct (Reflect_set_proxy _ _ _ _ _ _ _ _ _ _ _ _ _ _
              Hp Ht Hslot Ha Hwrap Hpipe Hafter) as (ps1 & Ht1 & ->).
  eexists _, _, _, _. split_and!; [done| |apply lookup_update_eq|done|..].
  - simpl. apply list_lookup_insert_eq. by eapply lookup_lt_Some.
  - by eapply pipeline_calls_length.
  - intros i f Hi.
    destruct (pipeline_calls_lookup _ _ _ _ _ _ _ _ Hpipe Hi) as (vi & ? & ? & _).
    eauto.
  - intros fs f Hfs. rewrite Hfs in Hpipe. by eapply pipeline_last.
  - intros Hnil. rewrite Hnil in Hpipe. simpl in Hpipe. congruence.
Qed.

(** C5 (phase isolation).  The ['after'] registrations and the global
    [onSet] hook are called only after the write that commits the value,
    each with the committed value, and what they return is dropped: the
    value stored under the key is the result of the before phase, and the
    store after the write is the store after wrapping with that one
    property of the target updated, whatever the after-phase callbacks
    return. *)
Theorem after_phase_isolation n p t opts ps a regs k v r s v1 s1 vb :
  st_heap s !! p = Some (CProxy t opts) →
  st_heap s !! t = Some (CObj ps) →
  lookup_prop ps (PSym observedCallbacksSymbol) = VRef a →
  st_heap s !! a = Some (CArr regs) →
  mayObserve (run (S n)) v opts s = Ok v1 s1 →
  pipeline k (lookup_prop ps k) r (before_hooks opts regs) v1 = Some vb →
  (∀ f, f ∈ after_hooks opts regs →
        ∃ returned, callback f k vb (lookup_prop ps k) (VRef r) = Some returned) →
  ∃ s' ps1,
    Reflect_set (run (S n)) p k v r s = Ok true s' ∧
    st_heap s1 !! t = Some (CObj ps1) ∧
    st_heap s' = <[t := CObj (update_prop ps1 k vb)]> (st_heap s1) ∧
    st_trace s' =
      (st_trace s1 ++
       pipeline_calls k (lookup_prop ps k) r (before_hooks opts regs) v1) ++
      [EvWrite t k vb] ++
      map (λ f, EvCall f k vb (lookup_prop ps k) (VRef r)) (after_hooks opts regs).
Proof.
  intros Hp Ht Hslot Ha Hwrap Hpipe Hafter.
  apply Forall_forall in Hafter.
  destruct (Reflect_set_proxy _ _ _ _ _ _ _ _ _ _ _ _ _ _
              Hp Ht Hslot Ha Hwrap Hpipe Hafter) as (ps1 & Ht1 & ->).
  eexists _, ps1. split_and!; [done|done|done|]. simpl.
  by rewrite app_assoc.
Qed.

(** C6 (transparency, no veto).  A write through a proxy is never
    compared with the value already stored: for every incoming value, the
    stored one included, the trap calls every callback of the before
    phase and of the after phase once, in order, commits a value on the
    target, and answers [true]; the callbacks choose the value that is
    stored, never whether the write takes place. *)
Theorem write_transparency n p t opts ps a regs k v r s v1 s1 vb :
  st_heap s !! p = Some (CProxy t opts) →
  st_heap s !! t = Some (CObj ps) →
  lookup_prop ps (PSym observedCallbacksSymbol) = VRef a →
  st_heap s !! a = Some (CArr regs) →
  mayObserve (run (S n)) v opts s = Ok v1 s1 →
  pipeline k (lookup_prop ps k) r (before_hooks opts regs) v1 = Some vb →
  Forall (λ f, is_Some (callback f k vb (lookup_prop ps k) (VRef r)))
         (after_hooks opts regs) →
  ∃ s' ps',
    Reflect_set (run (S n)) p k v r s = Ok true s' ∧
    omap callee (drop (length (st_trace s1)) (st_trace s')) =
      before_hooks opts regs ++ after_hooks opts regs ∧
    EvWrite t k vb ∈ st_trace s' ∧
    st_heap s' !! t = Some (CObj ps') ∧ lookup_prop ps' k = vb.
Proof.
  intros Hp Ht Hslot Ha Hwrap Hpipe Hafter.
  destruct (Reflect_set_proxy _ _ _ _ _ _ _ _ _ _ _ _ _ _
              Hp Ht Hslot Ha Hwrap Hpipe Hafter) as (ps1 & Ht1 & ->).
  eexists _, _. split_and!; [done|..|apply lookup_update_eq]; simpl.
  - rewrite drop_app_length, !omap_app. simpl.
    by erewrite pipeline_calls_callee, after_calls_callee.
  - rewrite !elem_of_app, elem_of_cons. right. right. by left.
  - apply list_lookup_insert_eq. by eapply lookup_lt_Some.
Qed.

(** ** Registration and removal *)

Lemma node_base h o b g : node h o b g → ∃ ps, h !! b = Some (CObj ps).
Proof. destruct 1; eauto. Qed.

Lemma node_pres h h' o b g : pres h h' → node h o b g → node h' o b g.
Proof.
  intros Hp [o' ps Ho|p t opts ps Hp' Ht].
  - destruct (pres_obj _ _ Hp _ _ Ho) as (ps' & Ho' & _). by econstructor.
  - destruct (pres_obj _ _ Hp _ _ Ht) as (ps' & Ht' & _).
    econstructor; [|done]. by eapply pres_proxy.
Qed.

Lemma node_insert h o b g ps' :
  node h o b g → node (<[b := CObj ps']> h) o b g.
Proof.
  intros [o' ps Ho|p t opts ps Hp Ht].
  - econstructor. apply list_lookup_insert_eq. by eapply lookup_lt_Some.
  - econstructor.
    + rewrite list_lookup_insert_ne; [done|]. intros ->. congruence.
    + apply list_lookup_insert_eq. by eapply lookup_lt_Some.
Qed.

Lemma node_app h o b g cs : node h o b g → node (h ++ cs) o b g.
Proof.
  intros [o' ps Ho|p t opts ps Hp Ht]; econstructor; by apply lookup_app_l_Some.
Qed.

Lemma node_get n o b g ps k s :
  node (st_heap s) o b g →
  st_heap s !! b = Some (CObj ps) →
  (∀ f, g = Some f → is_Some (callback f k (lookup_prop ps k) (VRef b) (VRef o))) →
  ∃ tr, Reflect_get_ (run (S (S n))) o k o s =
          Ok (lookup_prop ps k) {| st_heap := st_heap s; st_trace := tr |}.
Proof.
  intros Hnode Hb Hhook. simpl Reflect_get_.
  destruct Hnode as [o ps' Ho|p t opts ps' Hp Ht]; simplify_eq.
  - exists (st_trace s). rewrite (Reflect_get_obj _ _ _ _ _ _ Ho). by destruct s.
  - eexists. erewrite Reflect_get_proxy; [done|done| |].
    + simpl Reflect_get_. by apply Reflect_get_obj.
    + intros f Hf. by apply Hhook.
Qed.

Lemma node_define n o b g ps y v s :
  node (st_heap s) o b g →
  st_heap s !! b = Some (CObj ps) →
  Object_defineProperty_ (run (S (S n))) o y v s =
    Ok tt {| st_heap := <[b := CObj (update_prop ps (PSym y) v)]> (st_heap s);
             st_trace := st_trace s |}.
Proof.
  intros Hnode Hb. simpl Object_defineProperty_.
  destruct Hnode as [o ps' Ho|p t opts ps' Hp Ht]; simplify_eq.
  - unfold Object_defineProperty. by erewrite bind_Ok; [|by apply read_cell_lookup].
  - unfold Object_defineProperty at 1. erewrite bind_Ok; [|by apply read_cell_lookup].
    cbn [Object_defineProperty_ step]. unfold Object_defineProperty.
    by erewrite bind_Ok; [|by apply read_cell_lookup].
Qed.

Lemma registry_Some h b items :
  registry h b = Some items ↔
  ∃ ps a, h !! b = Some (CObj ps) ∧
          lookup_prop ps (PSym observedCallbacksSymbol) = VRef a ∧
          h !! a = Some (CArr items).
Proof.
  unfold registry. split.
  - destruct (h !! b) as [[ps| |]|]; try done.
    destruct (lookup_prop ps (PSym observedCallbacksSymbol)) as [| | | | | |a] eqn:E; try done.
    destruct (h !! a) as [[|items'|]|] eqn:Ea; try done.
    intros [= ->]. eauto.
  - intros (ps & a & -> & -> & ->). done.
Qed.

(** Replacing the registry property of [b] by a reference to a fresh
    array: what [defineProp(object, observedCallbacksSymbol, [...])] leaves. *)
Lemma registry_define h b ps items :
  h !! b = Some (CObj ps) →
  registry (<[b := CObj (update_prop ps (PSym observedCallbacksSymbol)
                           (VRef (length h)))]> (h ++ [CArr items])) b
    = Some items.
Proof.
  intros Hb. apply registry_Some. eexists _, _. split_and!.
  - apply list_lookup_insert_eq. rewrite length_app.
    apply lookup_lt_Some in Hb. lia.
  - apply lookup_update_eq.
  - rewrite list_lookup_insert_ne.
    + by apply list_lookup_middle.
    + apply lookup_lt_Some in Hb. lia.
Qed.

Lemma initCallbackArray_node n o b g s items :
  node (st_heap s) o b g →
  registry_readable o b g →
  (registry (st_heap s) b = Some items ∨
   ∃ ps, st_heap s !! b = Some (CObj ps) ∧
         truthy (lookup_prop ps (PSym observedCallbacksSymbol)) = false ∧
         items = []) →
  ∃ s1, initCallbackArray (run (S (S n))) o s = Ok tt s1 ∧
        node (st_heap s1) o b g ∧ registry (st_heap s1) b = Some items.
Proof.
  intros Hnode Hread Hreg. unfold initCallbackArray.
  destruct Hreg as [Hreg|(ps & Hb & Hfalsy & ->)].
  - pose proof Hreg as Hreg'.
    apply registry_Some in Hreg' as (ps & a & Hb & Hslot & Ha).
    destruct (node_get n o b g ps (PSym observedCallbacksSymbol) s Hnode Hb)
      as [tr Hget]; [intros; by apply Hread|].
    erewrite bind_Ok; [|done]. rewrite Hslot. simpl. eauto.
  - destruct (node_get n o b g ps (PSym observedCallbacksSymbol) s Hnode Hb)
      as [tr Hget]; [intros; by apply Hread|].
    erewrite bind_Ok; [|done]. rewrite Hfalsy. cbn [negb].
    erewrite bind_Ok; [|done]. unfold defineProp.
    erewrite node_define; [| |by apply lookup_app_l_Some]; simpl.
    + eexists. split; [done|]. simpl. split.
      * by apply node_insert, node_app.
      * by apply registry_define.
    + by apply node_app.
Qed.

(** [onSet] on a node with a callable callback: the registration is
    appended, first to the array in place, then to the fresh copy that
    becomes the registry of the node. *)
Lemma onSet_node n o b g s items f ph :
  node (st_heap s) o b g →
  registry_readable o b g →
  (registry (st_heap s) b = Some items ∨
   ∃ ps, st_heap s !! b = Some (CObj ps) ∧
         truthy (lookup_prop ps (PSym observedCallbacksSymbol)) = false ∧
         items = []) →
  ∃ s', onSet (run (S (S n))) o (VFun f) ph s = Ok tt s' ∧
        node (st_heap s') o b g ∧
        registry (st_heap s') b =
          Some (items ++ [{| cb := f; phase := default after ph |}]).
Proof.
  intros Hnode Hread Hreg. unfold onSet.
  destruct (initCallbackArray_node n _ _ _ _ _ Hnode Hread Hreg)
    as (s1 & Hinit & Hnode1 & Hreg1).
  erewrite bind_Ok; [|done].
  apply registry_Some in Hreg1 as (ps & a & Hb & Hslot & Ha).
  destruct (node_get n o b g ps (PSym observedCallbacksSymbol) s1 Hnode1 Hb)
    as [tr Hget]; [intros; by apply Hread|].
  erewrite bind_Ok; [|done]. rewrite Hslot.
  set (reg := {| cb := f; phase := default after ph |}).
  (* push *)
  set (s2 := {| st_heap := <[a := CArr (items ++ [reg])]> (st_heap s1); st_trace := tr |}).
  erewrite (bind_Ok _ _ _ tt s2); last first.
  { unfold push. by erewrite bind_Ok; [|by apply read_cell_lookup]. }
  assert (a ≠ b) as Hab by (intros ->; congruence).
  assert (st_heap s2 !! b = Some (CObj ps)) as Hb2.
  { simpl. by rewrite list_lookup_insert_ne. }
  assert (st_heap s2 !! a = Some (CArr (items ++ [reg]))) as Ha2.
  { simpl. apply list_lookup_insert_eq. by eapply lookup_lt_Some. }
  assert (node (st_heap s2) o b g) as Hnode2.
  { simpl. destruct Hnode1 as [o ps' Ho|p t opts ps' Hp Ht]; simplify_eq.
    - econstructor. by rewrite list_lookup_insert_ne.
    - econstructor; [|by rewrite list_lookup_insert_ne].
      rewrite list_lookup_insert_ne; [done|]. intros ->. congruence. }
  destruct (node_get n o b g ps (PSym observedCallbacksSymbol) s2 Hnode2 Hb2)
    as [tr2 Hget2]; [intros; by apply Hread|].
  erewrite bind_Ok; [|done]. rewrite Hslot.
  (* the copy *)
  erewrite bind_Ok; last first.
  { unfold spread_array. by erewrite bind_Ok; [|by apply read_cell_lookup]. }
  unfold defineProp.
  erewrite node_define; [| |by apply lookup_app_l_Some]; simpl.
  - eexists. split; [done|]. simpl. split.
    + by apply node_insert, node_app.
    + apply registry_define. by rewrite list_lookup_insert_ne.
  - by apply node_app.
Qed.

(** [offSet] without a callback: a fresh empty array becomes the registry. *)
Lemma offSet_all n o b g s :
  node (st_heap s) o b g →
  ∃ s', offSet (run (S (S n))) o VUndefined s = Ok tt s' ∧
        node (st_heap s') o b g ∧ registry (st_heap s') b = Some [].
Proof.
  intros Hnode. destruct (node_base _ _ _ _ Hnode) as [ps Hb].
  unfold offSet. erewrite bind_Ok; [|done]. unfold defineProp.
  erewrite node_define; [| |by apply lookup_app_l_Some]; simpl.
  - eexists. split; [done|]. simpl. split.
    + by apply node_insert, node_app.
    + by apply registry_define.
  - by apply node_app.
Qed.

(** [offSet] with a callable callback on a node whose registry property
    does not hold an array. *)
Lemma offSet_not_registered n o b g ps s f :
  node (st_heap s) o b g →
  registry_readable o b g →
  st_heap s !! b = Some (CObj ps) →
  (∀ a, lookup_prop ps (PSym observedCallbacksSymbol) = VRef a →
        ∃ c, st_heap s !! a = Some c ∧ ∀ items, c ≠ CArr items) →
  ∃ s', offSet (run (S (S n))) o (VFun f) s = Throw CallbackIsNotRegistered s' ∧
        st_heap s' = st_heap s.
Proof.
  intros Hnode Hread Hb Hnot. unfold offSet.
  destruct (node_get n o b g ps (PSym observedCallbacksSymbol) s Hnode Hb)
    as [tr Hget]; [intros; by apply Hread|].
  erewrite bind_Ok; [|done].
  destruct (lookup_prop ps (PSym observedCallbacksSymbol)) as [| | | | | |a] eqn:Hslot;
    try (eexists; split; [reflexivity|done]).
  destruct (Hnot a eq_refl) as (c & Ha & Hc).
  unfold isArray. erewrite bind_Ok; last first.
  { by erewrite bind_Ok; [|by apply read_cell_lookup]. }
  destruct c as [ps'|items|t opts]; [|by destruct (Hc items)|];
    (eexists; split; [reflexivity|done]).
Qed.

(** [offSet] with a callable callback on a node that has a registry: the
    registrations of that callback are filtered out into a fresh array. *)
Lemma offSet_one n o b g s items f :
  node (st_heap s) o b g →
  registry_readable o b g →
  registry (st_heap s) b = Some items →
  ∃ s', offSet (run (S (S n))) o (VFun f) s = Ok tt s' ∧
        node (st_heap s') o b g ∧
        registry (st_heap s') b = Some (filter (λ reg, cb reg ≠ f) items).
Proof.
  intros Hnode Hread Hreg. unfold offSet.
  apply registry_Some in Hreg as (ps & a & Hb & Hslot & Ha).
  destruct (node_get n o b g ps (PSym observedCallbacksSymbol) s Hnode Hb)
    as [tr Hget]; [intros; by apply Hread|].
  erewrite bind_Ok; [|done]. rewrite Hslot.
  set (s1 := {| st_heap := st_heap s; st_trace := tr |}).
  erewrite bind_Ok; last first.
  { unfold isArray. by erewrite bind_Ok; [|by apply (read_cell_lookup _ s1)]. }
  cbn [negb].
  destruct (node_get n o b g ps (PSym observedCallbacksSymbol) s1 Hnode Hb)
    as [tr1 Hget1]; [intros; by apply Hread|].
  erewrite bind_Ok; [|done]. rewrite Hslot.
  erewrite bind_Ok; [|by apply array_items_arr].
  erewrite bind_Ok; [|done]. unfold defineProp.
  erewrite node_define; [| |by apply lookup_app_l_Some]; simpl.
  - eexists. split; [done|]. simpl. split.
    + by apply node_insert, node_app.
    + by apply registry_define.
  - by apply node_app.
Qed.

(** C8 (register).  [onSet] with a callback that is not a function throws
    ['callback must be a function'] and leaves the store as it was.  With
    a function it appends the registration [{cb, phase}], the phase being
    ['after'] when none is given, to the end of the node's registry (an
    absent registry counting as empty); registering the same callback
    again appends a second, equal entry. *)
Theorem register_semantics n o b g s items :
  node (st_heap s) o b g →
  registry_readable o b g →
  (registry (st_heap s) b = Some items ∨
   ∃ ps, st_heap s !! b = Some (CObj ps) ∧
         truthy (lookup_prop ps (PSym observedCallbacksSymbol)) = false ∧
         items = []) →
  (∀ rec c ph, (∀ f, c ≠ VFun f) →
     onSet rec o c ph s = Throw CallbackMustBeAFunction s) ∧
  (∀ f ph, ∃ s',
     onSet (run (S (S n))) o (VFun f) ph s = Ok tt s' ∧
     registry (st_heap s') b =
       Some (items ++ [{| cb := f; phase := default after ph |}]) ∧
     ∃ s'',
       onSet (run (S (S n))) o (VFun f) ph s' = Ok tt s'' ∧
       registry (st_heap s'') b =
         Some (items ++ [{| cb := f; phase := default after ph |};
                         {| cb := f; phase := default after ph |}])).
Proof.
  intros Hnode Hread Hreg. split.
  - intros rec c ph Hc. destruct c; try done. by destruct (Hc f).
  - intros f ph.
    destruct (onSet_node n _ _ _ _ _ f ph Hnode Hread Hreg) as (s' & Hs' & Hnode' & Hreg').
    exists s'. split_and!; [done|done|].
    destruct (onSet_node n _ _ _ _ _ f ph Hnode' Hread (or_introl Hreg'))
      as (s'' & Hs'' & _ & Hreg'').
    exists s''. split; [done|]. by rewrite <-app_assoc in Hreg''.
Qed.

(** C7 (unregister).  [offSet] without a callback replaces the node's
    registry by an empty one, whatever it held before, present or not.
    With a function, on a node whose registry property holds no array, it
    throws ['callback is not registered'].  With a function, on a node
    with a registry, the new registry is the old one without the entries
    whose callback is that function, both phases alike, the other entries
    in the order they had. *)
Theorem unregister_semantics n o b g s :
  node (st_heap s) o b g →
  registry_readable o b g →
  (∃ s', offSet (run (S (S n))) o VUndefined s = Ok tt s' ∧
         registry (st_heap s') b = Some []) ∧
  (∀ f ps,
     st_heap s !! b = Some (CObj ps) →
     (∀ a, lookup_prop ps (PSym observedCallbacksSymbol) = VRef a →
           ∃ c, st_heap s !! a = Some c ∧ ∀ items, c ≠ CArr items) →
     ∃ s', offSet (run (S (S n))) o (VFun f) s = Throw CallbackIsNotRegistered s' ∧
           st_heap s' = st_heap s) ∧
  (∀ f items,
     registry (st_heap s) b = Some items →
     ∃ s' items',
       offSet (run (S (S n))) o (VFun f) s = Ok tt s' ∧
       registry (st_heap s') b = Some items' ∧
       items' = filter (λ reg, cb reg ≠ f) items ∧
       items' `sublist_of` items ∧
       (∀ reg, reg ∈ items' ↔ reg ∈ items ∧ cb reg ≠ f)).
Proof.
  intros Hnode Hread. split_and!.
  - destruct (offSet_all n _ _ _ _ Hnode) as (s' & ? & _ & ?). eauto.
  - intros f ps Hb Hnot. by eapply offSet_not_registered.
  - intros f items Hreg.
    destruct (offSet_one n _ _ _ _ _ f Hnode Hread Hreg) as (s' & ? & _ & ?).
    eexists _, _. split_and!; [done|done|done|apply sublist_filter|].
    intros reg. rewrite list_elem_of_filter. tauto.
Qed.

(** ** Wrapping *)

Lemma marked_pres h h' o : pres h h' → marked h o → marked h' o.
Proof.
  intros Hp (b & ps & Hb & Hps & Ht).
  destruct (pres_obj _ _ Hp _ _ Hps) as (ps' & Hps' & Hk).
  exists b, ps'. split_and!; [by eapply pres_base_of|done|].
  by rewrite Hk.
Qed.

Lemma base_of_app h cs o b : base_of h o b → base_of (h ++ cs) o b.
Proof. induction 1; econstructor; eauto using lookup_app_l_Some. Qed.

Lemma base_of_insert h o b b' ps ps' :
  h !! b' = Some (CObj ps) → base_of h o b → base_of (<[b' := CObj ps']> h) o b.
Proof.
  intros Hb'. induction 1 as [l ps0 Hl|l t opts b Hl _ IH].
  - destruct (decide (l = b')) as [->|Hne].
    + econstructor. apply list_lookup_insert_eq. by eapply lookup_lt_Some.
    + econstructor. by rewrite list_lookup_insert_ne.
  - eapply base_proxy; [|done]. rewrite list_lookup_insert_ne; [done|].
    intros ->. congruence.
Qed.

(** The shape of a call of [observed] that returns: the registry is
    initialised and the own properties are rewrapped, which keeps [pres];
    then either the object is marked and is returned as it is, or a proxy
    is allocated over it and the object it stands for is marked. *)
Lemma observed_inv n o opts s p s1 :
  observed (run n) o opts s = Ok p s1 →
  ∃ hl b psl,
    pres (st_heap s) hl ∧ base_of hl o b ∧ hl !! b = Some (CObj psl) ∧
    ((truthy (lookup_prop psl (PSym observedSymbol)) = true ∧
      p = o ∧ st_heap s1 = hl) ∨
     (truthy (lookup_prop psl (PSym observedSymbol)) = false ∧
      p = length hl ∧
      st_heap s1 =
        <[b := CObj (update_prop psl (PSym observedSymbol) (VBool true))]>
          (hl ++ [CProxy o (spread defaultOptions opts)]))).
Proof.
  intros H. unfold observed in H.
  inv_bind H as u1 s2 Hinit. apply initCallbackArray_pres in Hinit.
  inv_bind H as keys s3 Hk. apply Object_keys_inv in Hk as (_ & _ & _ & _ & _ & ->).
  inv_bind H as u2 s4 Hloop.
  apply (for_each_inv (λ s s', pres (st_heap s) (st_heap s'))) in Hloop;
    [|intros; apply pres_refl|intros; by eapply pres_trans|]; last first.
  { intros key sa u sb _ Hbody.
    inv_bind Hbody as v sc Hg. apply Reflect_get_inv in Hg as (_ & _ & _ & _ & _ & Hhc).
    inv_bind Hbody as v' sd Hm. apply mayObserve_pres in Hm.
    inv_bind Hbody as b1 se Hs. apply set_observed_pres in Hs. inv_step Hbody.
    rewrite <-Hhc. by eapply pres_trans. }
  inv_bind H as is_marked s5 Hobs. unfold isObserved in Hobs.
  inv_bind Hobs as v s6 Hg. inv_step Hobs.
  apply Reflect_get_inv in Hg as (b & ps & Hb & Hps & -> & Hh6).
  exists (st_heap s4), b, ps. split_and!; [by eapply pres_trans|done|done|].
  destruct (truthy (lookup_prop ps (PSym observedSymbol))) eqn:Ht.
  - inv_step H. by left.
  - right. inv_bind H as proxy s7 Ha. inv_step Ha. inv_bind H as u3 s8 Hd. inv_step H.
    unfold defineProp in Hd.
    apply Object_defineProperty_inv in Hd as (b' & ps' & Hb' & Hps' & ->). simpl in *.
    rewrite Hh6 in *.
    assert (b' = b) as ->.
    { eapply base_of_fun; [done|]. by apply base_of_app. }
    rewrite lookup_app_l in Hps' by (by eapply lookup_lt_Some). by simplify_eq.
Qed.

(** What [observed] returns is marked. *)
Lemma observed_marked n o opts s p s1 :
  observed (run n) o opts s = Ok p s1 → marked (st_heap s1) p.
Proof.
  intros H. apply observed_inv in H as (hl & b & psl & Hpres & Hb & Hpsl & Hcase).
  destruct Hcase as [(Ht & -> & ->)|(Ht & -> & ->)].
  - by exists b, psl.
  - assert (b < length hl) as Hlt by (by eapply lookup_lt_Some).
    exists b, (update_prop psl (PSym observedSymbol) (VBool true)). split_and!.
    + eapply base_proxy.
      * rewrite list_lookup_insert_ne by lia. by apply list_lookup_middle.
      * eapply base_of_insert; [by apply lookup_app_l_Some|]. by apply base_of_app.
    + apply list_lookup_insert_eq. rewrite length_app. lia.
    + by rewrite lookup_update_eq.
Qed.

(** [observed] on a marked reference returns that reference. *)
Lemma observed_of_marked n o opts s p s1 :
  marked (st_heap s) o →
  observed (run n) o opts s = Ok p s1 →
  p = o ∧ pres (st_heap s) (st_heap s1).
Proof.
  intros Hm H. apply observed_inv in H as (hl & b & psl & Hpres & Hb & Hpsl & Hcase).
  destruct (marked_pres _ _ _ Hpres Hm) as (b' & ps' & Hb' & Hps' & Ht').
  assert (b' = b) as -> by (by eapply base_of_fun). simplify_eq.
  destruct Hcase as [(Ht & -> & ->)|(Ht & -> & ->)]; [done|congruence].
Qed.

(** ** Termination of wrapping on well-formed stores *)

Lemma tame_pipeline k old r fs v :
  tame → ∃ vb, pipeline k old r fs v = Some vb ∧ (vb = v ∨ ∀ l, vb ≠ VRef l).
Proof.
  intros Ht. revert v. induction fs as [|f fs IH]; intros v; simpl; [by eauto|].
  destruct (Ht f k v old (VRef r)) as (v' & -> & Hv').
  destruct (IH v') as (vb & ? & Hvb). exists vb. split; [done|].
  destruct Hvb as [->|?]; [done|by right].
Qed.

Lemma composite_app h cs c : composite h c → composite (h ++ cs) c.
Proof.
  intros [[ps Hc]|(t & o & Hc)]; [left|right]; eauto using lookup_app_l_Some.
Qed.

Lemma composite_insert h b ps ps' c :
  h !! b = Some (CObj ps) → composite h c → composite (<[b := CObj ps']> h) c.
Proof.
  intros Hb Hc. destruct (decide (c = b)) as [->|Hne].
  - left. eexists. apply list_lookup_insert_eq. by eapply lookup_lt_Some.
  - unfold composite. by rewrite list_lookup_insert_ne.
Qed.

Lemma composite_lt h c : composite h c → c < length h.
Proof. intros [[ps Hc]|(t & o & Hc)]; by eapply lookup_lt_Some. Qed.

(** Allocating a registration array keeps the store well formed. *)
Lemma wf_alloc_arr rk h items : wf rk h → wf rk (h ++ [CArr items]).
Proof.
  intros Hwf.
  assert (∀ l c, (∀ items', c ≠ CArr items') →
            (h ++ [CArr items]) !! l = Some c → h !! l = Some c) as Hold.
  { intros l c Hc Hl. destruct (decide (l < length h)) as [Hlt|Hge].
    - by rewrite lookup_app_l in Hl.
    - rewrite lookup_app_r in Hl by lia.
      destruct (l - length h) as [|i]; simpl in Hl; [|done].
      simplify_eq. by destruct (Hc items). }
  split.
  - intros l ps Hl. apply Hold in Hl; [|done].
    destruct (wf_slot _ _ Hwf _ _ Hl) as [?|(a & items' & ? & ?)]; [by left|].
    right. eauto using lookup_app_l_Some.
  - intros l ps k c Hl Hk. apply Hold in Hl; [|done].
    destruct (wf_child _ _ Hwf _ _ _ _ Hl Hk). eauto using composite_app.
  - intros l t o Hl. apply Hold in Hl; [|done].
    destruct (wf_proxy _ _ Hwf _ _ _ Hl) as (? & ps & ? & ? & ?).
    eauto 10 using lookup_app_l_Some.
Qed.

(** Writing a property of an object keeps the store well formed when the
    value is a registration array under the registry key, a truthy value
    under the marker key, and under a string key anything but a reference
    to something of equal or higher rank. *)
Lemma wf_update rk h b ps k v :
  wf rk h →
  h !! b = Some (CObj ps) →
  match k with
  | PSym observedCallbacksSymbol => ∃ a items, v = VRef a ∧ h !! a = Some (CArr items)
  | PSym observedSymbol => truthy v = true
  | PStr _ => ∀ c, v = VRef c → rk c < rk b ∧ composite h c
  end →
  wf rk (<[b := CObj (update_prop ps k v)]> h).
Proof.
  intros Hwf Hb Hv.
  assert (b < length h) as Hlt by (by eapply lookup_lt_Some).
  assert (∀ a items, h !! a = Some (CArr items) →
            <[b := CObj (update_prop ps k v)]> h !! a = Some (CArr items)) as Harr.
  { intros a items Ha. rewrite list_lookup_insert_ne; [done|]. intros ->. congruence. }
  split.
  - intros l ps' Hl. destruct (decide (l = b)) as [->|Hne].
    + rewrite list_lookup_insert_eq in Hl by done. simplify_eq.
      destruct (decide (k = PSym observedCallbacksSymbol)) as [->|Hk].
      * destruct Hv as (a & items & -> & Ha). right. exists a, items.
        split; [apply lookup_update_eq|by apply Harr].
      * rewrite lookup_update_ne by done.
        destruct (wf_slot _ _ Hwf _ _ Hb) as [?|(a & items & ? & ?)]; [by left|].
        right. eauto.
    + rewrite list_lookup_insert_ne in Hl by done.
      destruct (wf_slot _ _ Hwf _ _ Hl) as [?|(a & items & ? & ?)]; [by left|].
      right. eauto.
  - intros l ps' k' c Hl Hk'. destruct (decide (l = b)) as [->|Hne].
    + rewrite list_lookup_insert_eq in Hl by done. simplify_eq.
      destruct (decide (k = PStr k')) as [->|Hk].
      * rewrite lookup_update_eq in Hk'. destruct (Hv c Hk').
        eauto using composite_insert.
      * rewrite lookup_update_ne in Hk' by done.
        destruct (wf_child _ _ Hwf _ _ _ _ Hb Hk'). eauto using composite_insert.
    + rewrite list_lookup_insert_ne in Hl by done.
      destruct (wf_child _ _ Hwf _ _ _ _ Hl Hk'). eauto using composite_insert.
  - intros l t o Hl.
    rewrite list_lookup_insert_ne in Hl by (intros ->; rewrite list_lookup_insert_eq in Hl; done).
    destruct (wf_proxy _ _ Hwf _ _ _ Hl) as (Hrk & ps' & Ht & Hm & Hs).
    split; [done|]. destruct (decide (t = b)) as [->|Hne].
    + simplify_eq. eexists. split; [by apply list_lookup_insert_eq|].
      destruct k as [k|[]].
      * by rewrite !lookup_update_ne.
      * by rewrite lookup_update_eq, lookup_update_ne.
      * rewrite lookup_update_eq, lookup_update_ne by done.
        by destruct Hv as (a & items & -> & _).
    + exists ps'. by rewrite list_lookup_insert_ne.
Qed.

Lemma wf_ext rk rk' h :
  (∀ l, l < length h → rk' l = rk l) → wf rk h → wf rk' h.
Proof.
  intros Heq Hwf. split.
  - by apply (wf_slot _ _ Hwf).
  - intros l ps k c Hl Hk. destruct (wf_child _ _ Hwf _ _ _ _ Hl Hk) as [Hlt Hc].
    split; [|done]. rewrite !Heq; [done|by eapply lookup_lt_Some|by apply composite_lt].
  - intros l t o Hl. destruct (wf_proxy _ _ Hwf _ _ _ Hl) as (Hrk & ps & Ht & ? & ?).
    split; [|by eauto]. rewrite !Heq; [done|by eapply lookup_lt_Some..].
Qed.

(** Allocating a proxy over a marked object that has a registry keeps the
    store well formed when the new location has the rank of the object. *)
Lemma wf_alloc_proxy rk h o ps opts :
  wf rk h →
  h !! o = Some (CObj ps) →
  truthy (lookup_prop ps (PSym observedSymbol)) = true →
  truthy (lookup_prop ps (PSym observedCallbacksSymbol)) = true →
  rk (length h) = rk o →
  wf rk (h ++ [CProxy o opts]).
Proof.
  intros Hwf Ho Hm Hslot Hrk. split.
  - intros l ps' Hl. apply lookup_app_Some in Hl as [Hl|[_ Hl]].
    + destruct (wf_slot _ _ Hwf _ _ Hl) as [?|(a & items & ? & ?)]; [by left|].
      right. eauto using lookup_app_l_Some.
    + destruct (l - length h) as [|i]; simpl in Hl; done.
  - intros l ps' k c Hl Hk. apply lookup_app_Some in Hl as [Hl|[_ Hl]].
    + destruct (wf_child _ _ Hwf _ _ _ _ Hl Hk). eauto using composite_app.
    + destruct (l - length h) as [|i]; simpl in Hl; done.
  - intros l t o' Hl. apply lookup_app_Some in Hl as [Hl|[Hge Hl]].
    + destruct (wf_proxy _ _ Hwf _ _ _ Hl) as (? & ps' & ? & ? & ?).
      eauto 10 using lookup_app_l_Some.
    + destruct (l - length h) as [|i] eqn:Hi; simpl in Hl; [|done]. simplify_eq.
      assert (l = length h) as -> by lia.
      eauto 10 using lookup_app_l_Some.
Qed.

(** Allocating a proxy over an object that has a registry and marking the
    object, the last two steps of [observed], keep the store well formed;
    the proxy takes the rank of the object. *)
Lemma wf_wrap rk h o ps opts :
  wf rk h →
  h !! o = Some (CObj ps) →
  truthy (lookup_prop ps (PSym observedCallbacksSymbol)) = true →
  wf (rank_with rk (length h) (rk o))
     (<[o := CObj (update_prop ps (PSym observedSymbol) (VBool true))]>
        (h ++ [CProxy o opts])).
Proof.
  intros Hwf Ho Hslot.
  assert (o < length h) as Hlt by (by eapply lookup_lt_Some).
  set (rk' := rank_with rk (length h) (rk o)).
  assert (∀ l, l < length h → rk' l = rk l) as Hagree.
  { intros l Hl. unfold rk', rank_with. rewrite decide_False; [done|lia]. }
  assert (rk' (length h) = rk' o) as Hnew.
  { rewrite (Hagree o) by done. unfold rk', rank_with. by rewrite decide_True. }
  apply (wf_ext _ _ _ Hagree) in Hwf. clearbody rk'. clear Hagree.
  rewrite insert_app_l by done.
  eapply wf_alloc_proxy.
  - by apply (wf_update _ _ _ _ (PSym observedSymbol) (VBool true) Hwf Ho).
  - by apply list_lookup_insert_eq.
  - by rewrite lookup_update_eq.
  - by rewrite lookup_update_ne.
  - by rewrite length_insert.
Qed.

Lemma tame_readable o b g : tame → registry_readable o b g.
Proof.
  intros Ht f v _. destruct (Ht f (PSym observedCallbacksSymbol) v (VRef b) (VRef o))
    as (v' & -> & _). done.
Qed.

(** In a well-formed store a reference to an object or a proxy is a node,
    of the rank of the object behind it. *)
Lemma wf_node rk h o :
  wf rk h → composite h o →
  ∃ b g ps, node h o b g ∧ h !! b = Some (CObj ps) ∧ rk b = rk o ∧
    (b = o ∨ (truthy (lookup_prop ps (PSym observedSymbol)) = true ∧
              ∃ opts, h !! o = Some (CProxy b opts))).
Proof.
  intros Hwf [[ps Ho]|(t & opts & Ho)].
  - exists o, None, ps. split_and!; [by econstructor|done|done|by left].
  - destruct (wf_proxy _ _ Hwf _ _ _ Ho) as (Hrk & ps & Ht & Hm & _).
    exists t, (opt_onGet opts), ps. split_and!; [by econstructor|done|done|].
    right. eauto.
Qed.

Lemma node_keys n o b g ps s :
  node (st_heap s) o b g →
  st_heap s !! b = Some (CObj ps) →
  Object_keys_ (run (S (S n))) o s = Ok (string_keys ps) s.
Proof.
  intros Hnode Hb. simpl Object_keys_.
  destruct Hnode as [o ps' Ho|p t opts ps' Hp Ht]; simplify_eq.
  - unfold Object_keys. by erewrite bind_Ok; [|by apply read_cell_lookup].
  - unfold Object_keys at 1. erewrite bind_Ok; [|by apply read_cell_lookup].
    cbn [Object_keys_ step]. unfold Object_keys.
    by erewrite bind_Ok; [|by apply read_cell_lookup].
Qed.

Lemma for_each_total {A} (Inv : state → Prop) (body : A → M unit) xs s :
  Inv s →
  (∀ x s, Inv s → ∃ s', body x s = Ok tt s' ∧ Inv s') →
  ∃ s', for_each body xs s = Ok tt s' ∧ Inv s'.
Proof.
  intros Hs Hbody. revert s Hs. induction xs as [|x xs IH]; intros s Hs; simpl.
  - by exists s.
  - destruct (Hbody x s Hs) as (s1 & Hx & Hs1).
    destruct (IH s1 Hs1) as (s2 & Hxs & Hs2).
    exists s2. split; [|done]. by erewrite bind_Ok.
Qed.

Lemma flags_kept_refl rk bound h : flags_kept rk bound h h.
Proof. intros l ps Hl _. eauto. Qed.

Lemma flags_kept_trans rk rk' bound h1 h2 h3 :
  flags_kept rk bound h1 h2 →
  (∀ l, l < length h1 → rk' l = rk l) →
  flags_kept rk' bound h2 h3 →
  flags_kept rk bound h1 h3.
Proof.
  intros H12 Hagree H23 l ps Hl Hb.
  destruct (H12 l ps Hl Hb) as (ps2 & Hl2 & He2).
  destruct (H23 l ps2 Hl2) as (ps3 & Hl3 & He3).
  { rewrite Hagree; [done|by eapply lookup_lt_Some]. }
  exists ps3. split; [done|congruence].
Qed.

Lemma flags_kept_mono rk bound bound' h h' :
  bound ≤ bound' → flags_kept rk bound h h' → flags_kept rk bound' h h'.
Proof. intros Hle H l ps Hl Hb. apply (H l ps Hl). lia. Qed.

Lemma flags_kept_app rk bound h cs : flags_kept rk bound h (h ++ cs).
Proof. intros l ps Hl _. eauto using lookup_app_l_Some. Qed.

Lemma flags_kept_update rk bound h b ps k v :
  h !! b = Some (CObj ps) →
  (k ≠ PSym observedSymbol ∨ rk b < bound) →
  flags_kept rk bound h (<[b := CObj (update_prop ps k v)]> h).
Proof.
  intros Hb Hk l ps' Hl Hbound. destruct (decide (l = b)) as [->|Hne].
  - simplify_eq. eexists. split.
    + apply list_lookup_insert_eq. by eapply lookup_lt_Some.
    + destruct Hk as [Hk|Hk]; [|lia]. by apply lookup_update_ne.
  - exists ps'. by rewrite list_lookup_insert_ne.
Qed.

(** [initCallbackArray] on a node of a well-formed store returns and
    leaves a well-formed store in which the node has a registry; no
    marker changes. *)
Lemma initCallbackArray_wf n rk o b g s :
  tame → wf rk (st_heap s) → node (st_heap s) o b g →
  ∃ s1 ps1, initCallbackArray (run (S (S n))) o s = Ok tt s1 ∧
    wf rk (st_heap s1) ∧ st_heap s1 !! b = Some (CObj ps1) ∧
    truthy (lookup_prop ps1 (PSym observedCallbacksSymbol)) = true ∧
    flags_kept rk 0 (st_heap s) (st_heap s1).
Proof.
  intros Htame Hwf Hnode. destruct (node_base _ _ _ _ Hnode) as [ps Hb].
  unfold initCallbackArray.
  destruct (node_get n o b g ps (PSym observedCallbacksSymbol) s Hnode Hb)
    as [tr Hget]; [intros; by eapply tame_readable|].
  erewrite bind_Ok; [|done].
  destruct (truthy (lookup_prop ps (PSym observedCallbacksSymbol))) eqn:Hslot; cbn [negb].
  - eexists _, ps. split; [done|]. simpl. split_and!; [done..|apply flags_kept_refl].
  - erewrite bind_Ok; [|done]. unfold defineProp.
    erewrite node_define; [| |by apply lookup_app_l_Some]; simpl; [|by apply node_app].
    eexists _, _. split; [done|]. simpl.
    assert (b < length (st_heap s)) by (by eapply lookup_lt_Some).
    split_and!.
    + apply (wf_update _ _ _ _ (PSym observedCallbacksSymbol));
        [by apply wf_alloc_arr|by apply lookup_app_l_Some|].
      eexists _, _. split; [done|]. by apply list_lookup_middle.
    + apply list_lookup_insert_eq. rewrite length_app. lia.
    + by rewrite lookup_update_eq.
    + eapply flags_kept_trans; [apply flags_kept_app|done|].
      apply flags_kept_update; [by apply lookup_app_l_Some|by left].
Qed.

Lemma composite_pres h h' c : pres h h' → composite h c → composite h' c.
Proof.
  intros Hp [[ps Hc]|(t & o & Hc)].
  - destruct (pres_obj _ _ Hp _ _ Hc) as (ps' & ? & _). left. eauto.
  - right. eauto using pres_proxy.
Qed.

Lemma mayObserve_total d n v opts s rk bound :
  (∀ d', d' < d → observed_total d') →
  bound ≤ d → 2 * d + 1 ≤ n →
  wf rk (st_heap s) → value_below rk (st_heap s) bound v →
  ∃ v1 s1 rk1,
    mayObserve (run n) v opts s = Ok v1 s1 ∧
    wf rk1 (st_heap s1) ∧
    (∀ l, l < length (st_heap s) → rk1 l = rk l) ∧
    value_below rk1 (st_heap s1) bound v1 ∧
    flags_kept rk bound (st_heap s) (st_heap s1).
Proof.
  intros Hobs Hbound Hn Hwf Hv.
  destruct v as [| | | | | |c];
    try (eexists _, s, rk; split; [reflexivity|];
         split_and!; [done|done|by intros ? [=]|apply flags_kept_refl]).
  destruct (Hv c eq_refl) as [Hlt Hc].
  destruct (Hobs (rk c) ltac:(lia) n c (with_deep opts false) s rk)
    as (p & s1 & rk1 & Hrun & Hwf1 & Hagree & Hrk & Hp & Hflags & _);
    [lia|done|done|lia|].
  exists (VRef p), s1, rk1. split_and!; [|done|done| |].
  - simpl. by erewrite bind_Ok.
  - intros ? [= <-]. split; [lia|done].
  - eapply flags_kept_mono; [|done]. lia.
Qed.

Lemma set_total_step d :
  tame → (∀ d', d' < d → observed_total d') → set_total d.
Proof.
  intros Htame Hobs n o k v r s rk Hn Hwf Ho Hrk Hv.
  destruct n as [|n]; [lia|]. simpl Reflect_set_.
  destruct Ho as [[ps Ho]|(t & opts & Ho)].
  - (* an ordinary object *)
    eexists _, rk. split; [|split_and!].
    + unfold Reflect_set. by erewrite bind_Ok; [|by apply read_cell_lookup].
    + simpl. by apply wf_update.
    + done.
    + simpl. apply flags_kept_update; [done|by left].
  - (* a proxy *)
    destruct n as [|n]; [lia|].
    destruct (wf_proxy _ _ Hwf _ _ _ Ho) as (Hrkt & ps & Ht & Hm & Hslot).
    destruct (wf_slot _ _ Hwf _ _ Ht) as [Hf|(a & regs & Ha & Hregs)]; [congruence|].
    destruct (mayObserve_total d (S n) v opts s rk (rk o) Hobs)
      as (v1 & s1 & rk1 & Hwrap & Hwf1 & Hagree & Hv1 & Hflags); [lia|lia|done|done|].
    destruct (tame_pipeline (PStr k) (lookup_prop ps (PStr k)) r
                (before_hooks opts regs) v1 Htame) as (vb & Hpipe & Hvb).
    destruct (Reflect_set_proxy n o t opts ps a regs (PStr k) v r s v1 s1 vb)
      as (ps1 & Ht1 & Hrun); [done..| |].
    { apply Forall_forall. intros f _.
      destruct (Htame f (PStr k) vb (lookup_prop ps (PStr k)) (VRef r)) as (? & -> & _).
      done. }
    eexists _, rk1. split; [done|]. split_and!; [|done|]; simpl.
    + apply wf_update; [done|done|].
      intros c Hc. destruct Hvb as [Heq|Hvb]; [subst|by destruct (Hvb c)].
      destruct (Hv1 c eq_refl) as [Hlt Hc]. split; [|done].
      rewrite (Hagree t) by (by eapply lookup_lt_Some). lia.
    + eapply flags_kept_trans; [done|done|].
      apply flags_kept_update; [done|by left].
Qed.

Lemma observed_total_step d :
  tame → (∀ d', d' < d → observed_total d') → set_total d → observed_total d.
Proof.
  intros Htame Hobs Hset n o opts s rk Hn Hwf Ho Hrk.
  destruct n as [|[|[|n]]]; [lia..|].
  change (observed_ (run (S (S (S n)))) o opts s)
    with (observed (run (S (S n))) o opts s).
  unfold observed. set (options := spread defaultOptions opts).
  destruct (wf_node _ _ _ Hwf Ho) as (b & g & ps & Hnode & Hb & Hrkb & _).
  (* the registry *)
  destruct (initCallbackArray_wf n rk o b g s Htame Hwf Hnode)
    as (s1 & ps1 & Hinit & Hwf1 & Hb1 & Hslot1 & Hflags1).
  pose proof (initCallbackArray_pres _ _ _ _ _ Hinit) as Hpres1.
  erewrite bind_Ok; [|done].
  pose proof (node_pres _ _ _ _ _ Hpres1 Hnode) as Hnode1.
  erewrite bind_Ok; [|by eapply node_keys].
  (* the loop over the own keys *)
  set (Inv := λ s', ∃ rk', wf rk' (st_heap s') ∧
                 (∀ l, l < length (st_heap s1) → rk' l = rk l) ∧
                 pres (st_heap s1) (st_heap s') ∧
                 flags_kept rk (rk o) (st_heap s1) (st_heap s')).
  lazymatch goal with
  | |- context [for_each ?body ?xs] =>
      destruct (for_each_total Inv body xs s1)
        as (s4 & Hloop & rk4 & Hwf4 & Hagree4 & Hpres4 & Hflags4);
        [| |erewrite bind_Ok; [|exact Hloop]]
  end.
  { exists rk. split_and!; [done|done|apply pres_refl|apply flags_kept_refl]. }
  { intros key sa (rka & Hwfa & Hagreea & Hpresa & Hflagsa).
    pose proof (node_pres _ _ _ _ _ Hpresa Hnode1) as Hnodea.
    destruct (pres_obj _ _ Hpresa _ _ Hb1) as (psa & Hba & _).
    assert (b < length (st_heap s1)) as Hblt by (by eapply lookup_lt_Some).
    assert (o < length (st_heap s1)) as Holt.
    { eapply composite_lt, composite_pres; done. }
    pose proof (pres_length _ _ Hpresa) as Hlena.
    destruct (node_get n o b g psa (PStr key) sa Hnodea Hba) as [tr Hget].
    { intros f _. destruct (Htame f (PStr key) (lookup_prop psa (PStr key))
                              (VRef b) (VRef o)) as (? & -> & _). done. }
    erewrite bind_Ok; [|done].
    set (sa' := {| st_heap := st_heap sa; st_trace := tr |}).
    destruct (mayObserve_total d (S (S n)) (lookup_prop psa (PStr key)) options sa'
                rka (rk o) Hobs)
      as (v1 & s2 & rk2 & Hwrap & Hwf2 & Hagree2 & Hv1 & Hflags2);
      [done|lia|done| |].
    { intros c Hc. destruct (wf_child _ _ Hwfa _ _ _ _ Hba Hc) as [Hlt Hcomp].
      split; [|done]. rewrite (Hagreea b) in Hlt by done. lia. }
    erewrite bind_Ok; [|done].
    pose proof (mayObserve_pres _ _ _ _ _ _ Hwrap) as Hpres2. simpl in Hpres2.
    pose proof (pres_length _ _ Hpres2) as Hlen2.
    assert (rk2 o = rk o) as Hrk2.
    { simpl in *. rewrite Hagree2, Hagreea; [done|done|lia]. }
    destruct (Hset (S (S n)) o key v1 o s2 rk2)
      as (s3 & rk3 & Hrun & Hwf3 & Hagree3 & Hflags3).
    { lia. }
    { done. }
    { eapply composite_pres; [done|]. eapply composite_pres; [done|].
      by eapply composite_pres. }
    { by rewrite Hrk2. }
    { by rewrite Hrk2. }
    erewrite bind_Ok; [|done].
    eexists. split; [reflexivity|].
    destruct (set_observed_pres (S (S n))) as [Hsp _].
    pose proof (Hsp _ _ _ _ _ _ _ Hrun) as Hpres3.
    exists rk3. simpl in *. split_and!; [done| | |].
    - intros l Hl. rewrite Hagree3, Hagree2, Hagreea; [done|lia..].
    - eapply pres_trans; [done|]. by eapply pres_trans.
    - eapply flags_kept_trans; [done|done|].
      eapply flags_kept_trans; [done|done|]. by rewrite <-Hrk2. }
  (* the marker *)
  pose proof (node_pres _ _ _ _ _ Hpres4 Hnode1) as Hnode4.
  destruct (pres_obj _ _ Hpres4 _ _ Hb1) as (ps4 & Hb4 & Hkeep4).
  assert (truthy (lookup_prop ps4 (PSym observedCallbacksSymbol)) = true) as Hslot4.
  { by rewrite Hkeep4. }
  assert (o < length (st_heap s)) as Holt by (by apply composite_lt).
  assert (length (st_heap s) ≤ length (st_heap s1)) as Hlen1 by apply Hpres1.
  assert (length (st_heap s1) ≤ length (st_heap s4)) as Hlen4 by apply Hpres4.
  assert (flags_kept rk (rk o) (st_heap s) (st_heap s4)) as Hflags.
  { eapply flags_kept_trans; [|done|done].
    eapply flags_kept_mono; [|done]. lia. }
  unfold isObserved.
  destruct (node_get n o b g ps4 (PSym observedSymbol) s4 Hnode4 Hb4) as [tr Hget].
  { intros f _. destruct (Htame f (PSym observedSymbol)
                            (lookup_prop ps4 (PSym observedSymbol))
                            (VRef b) (VRef o)) as (? & -> & _). done. }
  erewrite bind_Ok; [|by erewrite bind_Ok; [|done]].
  destruct (truthy (lookup_prop ps4 (PSym observedSymbol))) eqn:Hm.
  - (* marked: the reference itself *)
    eexists o, _, rk4. split; [reflexivity|]. simpl. split_and!; [done| | | | |].
    + intros l Hl. apply Hagree4. lia.
    + apply Hagree4. lia.
    + eapply composite_pres; [done|]. by eapply composite_pres.
    + eapply flags_kept_mono; [|done]. lia.
    + intros ps0 Ho0 Hm0. exfalso.
      destruct (Hflags o ps0 Ho0) as (ps0' & Ho0' & He); [lia|].
      destruct Hnode4 as [o' ps' Ho'|p t popts ps' Hp Ht]; simplify_eq.
      congruence.
  - (* not marked: an ordinary object, which gets a proxy *)
    assert (b = o) as ->.
    { destruct Hnode4 as [o' ps' Ho'|p t popts ps' Hp Ht]; [done|].
      destruct (wf_proxy _ _ Hwf4 _ _ _ Hp) as (_ & ps'' & Ht' & Hm' & _).
      simplify_eq. congruence. }
    erewrite bind_Ok; [|done]. unfold defineProp.
    erewrite bind_Ok; last first.
    { eapply (node_define n o o g); [|by apply lookup_app_l_Some].
      simpl. by apply node_app. }
    eexists _, _, (rank_with rk4 (length (st_heap s4)) (rk4 o)).
    split; [reflexivity|]. simpl.
    assert (<[o:=CObj (update_prop ps4 (PSym observedSymbol) (VBool true))]>
              (st_heap s4 ++ [CProxy o options]) !! length (st_heap s4)
            = Some (CProxy o options)) as Hproxy.
    { rewrite list_lookup_insert_ne by lia. by apply list_lookup_middle. }
    split_and!.
    + by apply wf_wrap.
    + intros l Hl. unfold rank_with. rewrite decide_False by lia. apply Hagree4. lia.
    + unfold rank_with. rewrite decide_True by done. apply Hagree4. lia.
    + right. eauto.
    + eapply flags_kept_trans; [|done|].
      { eapply flags_kept_mono; [|done]. lia. }
      eapply flags_kept_trans; [apply flags_kept_app|done|].
      apply flags_kept_update; [by apply lookup_app_l_Some|].
      right. lia.
    + intros _ _ _. split; [lia|done].
Qed.

(** [observed] and writes under string keys return on every well-formed
    store. *)
Lemma observed_set_total d : tame → observed_total d ∧ set_total d.
Proof.
  intros Htame. induction (lt_wf d) as [d _ IH].
  assert (∀ d', d' < d → observed_total d') as Hobs by (intros; by apply IH).
  pose proof (set_total_step d Htame Hobs). split; [|done].
  by apply observed_total_step.
Qed.

(** No operation builds a proxy over an object that is already marked. *)
Lemma no_second_wrapper h h' p t q o :
  pres h h' → marked h p → base_of h p t →
  h' !! q = Some (CProxy t o) → h !! q = Some (CProxy t o).
Proof.
  intros Hpres (b & ps & Hb & Hps & Hm) Ht Hq.
  assert (b = t) as -> by (by eapply base_of_fun).
  destruct (decide (q < length h)) as [Hlt|Hge].
  - destruct (lookup_lt_is_Some_2 _ _ Hlt) as [c Hc].
    destruct c as [ps'|items|t' o'].
    + destruct (pres_obj _ _ Hpres _ _ Hc) as (? & ? & _). congruence.
    + pose proof (pres_arr _ _ Hpres _ _ Hc). congruence.
    + pose proof (pres_proxy _ _ Hpres _ _ _ Hc). congruence.
  - assert (truthy (lookup_prop ps (PSym observedSymbol)) = false); [|congruence].
    eapply (pres_new _ _ Hpres); [|done..]. lia.
Qed.

(** C1 (idempotent wrap).  Let [p] be what [observed] returned for [x].
    Whenever [observed] applied to [p] returns, it returns [p] itself, the
    same identity, and it has allocated no proxy over the object behind
    [p]: every proxy over that object in the store afterwards was there
    before.  On a well-formed store, with callbacks that return, both
    calls do return, for every object or proxy [x]. *)
Theorem wrap_idempotent x opts opts' s :
  (∀ n m p s1 r s2,
     observed (run n) x opts s = Ok p s1 →
     observed (run m) p opts' s1 = Ok r s2 →
     r = p ∧
     ∀ t q o, base_of (st_heap s1) p t →
              st_heap s2 !! q = Some (CProxy t o) →
              st_heap s1 !! q = Some (CProxy t o)) ∧
  (∀ rk n,
     tame → wf rk (st_heap s) → composite (st_heap s) x → 2 * rk x + 2 ≤ n →
     ∃ p s1 s2,
       observed (run n) x opts s = Ok p s1 ∧
       observed (run n) p opts' s1 = Ok p s2).
Proof.
  split.
  - intros n m p s1 r s2 Hrun1 Hrun2.
    pose proof (observed_marked _ _ _ _ _ _ Hrun1) as Hmarked.
    destruct (observed_of_marked _ _ _ _ _ _ Hmarked Hrun2) as [-> Hpres].
    split; [done|]. intros t q o Ht Hq. by eapply no_second_wrapper.
  - intros rk n Htame Hwf Hx Hn.
    destruct (observed_set_total (rk x) Htame) as [Hobs _].
    destruct (Hobs (S n) x opts s rk)
      as (p & s1 & rk1 & Hrun1 & Hwf1 & _ & Hrk1 & Hp & _); [lia|done|done|done|].
    change (observed (run n) x opts s = Ok p s1) in Hrun1.
    destruct (Hobs (S n) p opts' s1 rk1) as (p2 & s2 & rk2 & Hrun2 & _);
      [lia|done|done|lia|].
    change (observed (run n) p opts' s1 = Ok p2 s2) in Hrun2.
    pose proof (observed_marked _ _ _ _ _ _ Hrun1) as Hmarked.
    destruct (observed_of_marked _ _ _ _ _ _ Hmarked Hrun2) as [-> _].
    by exists p, s1, s2.
Qed.

(** C10 (the marker is on the raw object).  Whenever [observed] returns
    for an ordinary object [x], the marker is defined on [x] itself:
    [isObserved(x)] on the unwrapped original answers [true]; and when
    what it returned is not [x], it is a proxy over [x], and [x] holds
    [observedSymbol: true].  On a well-formed store, with callbacks that
    return, [observed] on an unmarked ordinary object does return, and
    returns such a proxy. *)
Theorem marker_on_raw_object x ps opts s :
  st_heap s !! x = Some (CObj ps) →
  (∀ n p s1,
     observed (run n) x opts s = Ok p s1 →
     ∃ ps1,
       st_heap s1 !! x = Some (CObj ps1) ∧
       truthy (lookup_prop ps1 (PSym observedSymbol)) = true ∧
       (∀ rec, isObserved (step rec) x s1 = Ok true s1) ∧
       (p ≠ x →
        st_heap s1 !! p = Some (CProxy x (spread defaultOptions opts)) ∧
        lookup_prop ps1 (PSym observedSymbol) = VBool true)) ∧
  (∀ rk n,
     tame → wf rk (st_heap s) →
     truthy (lookup_prop ps (PSym observedSymbol)) = false →
     2 * rk x + 2 ≤ n →
     ∃ p s1, observed (run n) x opts s = Ok p s1 ∧ p ≠ x).
Proof.
  intros Hx. split.
  - intros n p s1 Hrun.
    apply observed_inv in Hrun as (hl & b & psl & Hpres & Hb & Hpsl & Hcase).
    destruct (pres_obj _ _ Hpres _ _ Hx) as (psx & Hxl & _).
    assert (b = x) as -> by (by eapply base_of_CObj).
    assert (∀ ps1, st_heap s1 !! x = Some (CObj ps1) →
              truthy (lookup_prop ps1 (PSym observedSymbol)) = true →
              ∀ rec, isObserved (step rec) x s1 = Ok true s1) as Hobserved.
    { intros ps1 Hx1 Hm rec. unfold isObserved. cbn [Reflect_get_ step].
      erewrite bind_Ok; [|by apply Reflect_get_obj]. by rewrite Hm. }
    destruct Hcase as [(Hm & -> & Hheap)|(Hm & -> & Hheap)].
    + exists psl. rewrite Hheap. split_and!; [done|done| |done].
      apply (Hobserved psl); [by rewrite Hheap|done].
    + assert (st_heap s1 !! x =
              Some (CObj (update_prop psl (PSym observedSymbol) (VBool true)))) as Hx1.
      { rewrite Hheap. apply list_lookup_insert_eq. rewrite length_app.
        apply lookup_lt_Some in Hpsl. lia. }
      eexists. split_and!; [done|by rewrite lookup_update_eq| |].
      * apply (Hobserved _ Hx1). by rewrite lookup_update_eq.
      * intros Hne. split; [|apply lookup_update_eq].
        rewrite Hheap, list_lookup_insert_ne by done. by apply list_lookup_middle.
  - intros rk n Htame Hwf Hm Hn.
    destruct (observed_set_total (rk x) Htame) as [Hobs _].
    destruct (Hobs (S n) x opts s rk)
      as (p & s1 & rk1 & Hrun & _ & _ & _ & _ & _ & Hnew);
      [lia|done|by left; eauto|done|].
    destruct (Hnew ps Hx Hm) as [Hlen Hp].
    assert (x < length (st_heap s)) as Hlt by (by eapply lookup_lt_Some).
    exists p, s1. split; [done|lia].
Qed.


(** ** Registrations across reads, writes and wrapping *)

Lemma registry_pres h h' b items :
  pres h h' → registry h b = Some items → registry h' b = Some items.
Proof.
  intros Hp Hreg. apply registry_Some in Hreg as (ps & a & Hb & Hslot & Ha).
  destruct (pres_obj _ _ Hp _ _ Hb) as (ps' & Hb' & Hkeep).
  apply registry_Some. exists ps', a. split_and!; [done| |by eapply pres_arr].
  rewrite Hkeep; [done|]. by rewrite Hslot.
Qed.

(** X1 (wrapping and the registrations).  A call of [observed] that
    returns leaves the registrations of every object in the store as they
    were, those of the object it wraps included; and an ordinary object
    that had no registry has an empty one afterwards. *)
Theorem wrap_keeps_registrations n o opts s p s1 :
  observed (run n) o opts s = Ok p s1 →
  (∀ b items, registry (st_heap s) b = Some items →
              registry (st_heap s1) b = Some items) ∧
  (∀ ps, st_heap s !! o = Some (CObj ps) →
         truthy (lookup_prop ps (PSym observedCallbacksSymbol)) = false →
         registry (st_heap s1) o = Some []).
Proof.
  intros Hrun. split.
  - intros b items. apply registry_pres.
    by apply (proj2 (set_observed_pres (S n)) o opts s p s1).
  - intros ps Ho Hfalsy. destruct n as [|n]; [done|].
    unfold observed in Hrun. inv_bind Hrun as u s2 Hinit.
    unfold initCallbackArray in Hinit. simpl Reflect_get_ in Hinit.
    erewrite bind_Ok in Hinit; [|by apply Reflect_get_obj].
    rewrite Hfalsy in Hinit. cbn [negb] in Hinit.
    erewrite bind_Ok in Hinit; [|done].
    unfold defineProp in Hinit. cbn [Object_defineProperty_ step run] in Hinit.
    unfold Object_defineProperty in Hinit.
    erewrite bind_Ok in Hinit; [|by apply read_cell_lookup, lookup_app_l_Some].
    cbn beta iota in Hinit. inv_step Hinit. cbn [st_heap st_trace] in Hrun.
    set (s2 := {| st_heap := <[o := _]> _; st_trace := _ |}) in Hrun.
    assert (registry (st_heap s2) o = Some []) as Hreg by (by apply registry_define).
    eapply registry_pres; [|done].
    apply (proj2 (set_observed_pres (S (S n))) o opts s2 p s1).
    change (observed_ (run (S (S n))) o opts s2) with (observed (run (S n)) o opts s2).
    unfold observed.
    erewrite (bind_Ok (initCallbackArray _ _) _ s2 tt s2); [done|].
    apply registry_Some in Hreg as (ps2 & a & Ho2 & Hslot & _).
    unfold initCallbackArray. simpl Reflect_get_.
    erewrite bind_Ok; [|by apply Reflect_get_obj]. by rewrite Hslot.
Qed.

(** X2 (the options of a proxy are fixed when it is built).  No call of
    [observed] and no write under a string key changes the target or the
    options of a proxy that exists; and [observed] applied to a marked
    reference returns that reference, so that the options given to this
    later call are recorded nowhere on it. *)
Theorem options_fixed_at_first_wrap n q t o s :
  st_heap s !! q = Some (CProxy t o) →
  (∀ x opts' r s1,
     observed (run n) x opts' s = Ok r s1 →
     st_heap s1 !! q = Some (CProxy t o) ∧
     (marked (st_heap s) x → r = x)) ∧
  (∀ x k v r b s1,
     Reflect_set_ (run n) x (PStr k) v r s = Ok b s1 →
     st_heap s1 !! q = Some (CProxy t o)).
Proof.
  intros Hq. split.
  - intros x opts' r s1 Hrun. split.
    + eapply pres_proxy; [|done].
      by apply (proj2 (set_observed_pres (S n)) x opts' s r s1).
    + intros Hm. by destruct (observed_of_marked _ _ _ _ _ _ Hm Hrun).
  - intros x k v r b s1 Hrun. eapply pres_proxy; [|done].
    by apply (proj1 (set_observed_pres n) x k v r s b s1).
Qed.

(** ** The registration arrays in the store *)

Lemma node_read n o b g ps k s :
  node (st_heap s) o b g →
  st_heap s !! b = Some (CObj ps) →
  (∀ f, g = Some f → is_Some (callback f k (lookup_prop ps k) (VRef b) (VRef o))) →
  Reflect_get_ (run (S (S n))) o k o s =
    Ok (lookup_prop ps k)
       {| st_heap := st_heap s;
          st_trace := st_trace s ++ read_events g k (lookup_prop ps k) b o |}.
Proof.
  intros Hnode Hb Hhook. simpl Reflect_get_.
  destruct Hnode as [o ps' Ho|p t opts ps' Hp Ht]; simplify_eq.
  - rewrite (Reflect_get_obj _ _ _ _ _ _ Ho). simpl. rewrite app_nil_r. by destruct s.
  - erewrite Reflect_get_proxy; [done|done| |].
    + simpl Reflect_get_. by apply Reflect_get_obj.
    + intros f Hf. by apply Hhook.
Qed.

Lemma node_insert_arr h o b g a items items' :
  h !! a = Some (CArr items) → node h o b g → node (<[a := CArr items']> h) o b g.
Proof.
  intros Ha [o' ps Ho|p t opts ps Hp Ht]; econstructor;
    (rewrite list_lookup_insert_ne; [done|]; intros ->; congruence).
Qed.

(** [onSet] on a node that has a registry, with the store it leaves: the
    array the registry property refers to holds the new registration, and
    so does the fresh copy the property is redefined to. *)
Lemma onSet_registered n o b g s ps a items f ph :
  node (st_heap s) o b g →
  registry_readable o b g →
  st_heap s !! b = Some (CObj ps) →
  lookup_prop ps (PSym observedCallbacksSymbol) = VRef a →
  st_heap s !! a = Some (CArr items) →
  onSet (run (S (S n))) o (VFun f) ph s =
    Ok tt
      {| st_heap :=
           <[b := CObj (update_prop ps (PSym observedCallbacksSymbol)
                          (VRef (length (st_heap s))))]>
             (<[a := CArr (items ++ [{| cb := f; phase := default after ph |}])]>
                (st_heap s) ++
              [CArr (items ++ [{| cb := f; phase := default after ph |}])]);
         st_trace :=
           ((st_trace s ++
             read_events g (PSym observedCallbacksSymbol) (VRef a) b o) ++
            read_events g (PSym observedCallbacksSymbol) (VRef a) b o) ++
           read_events g (PSym observedCallbacksSymbol) (VRef a) b o |}.
Proof.
  intros Hnode Hread Hb Hslot Ha. unfold onSet, initCallbackArray.
  set (reg := {| cb := f; phase := default after ph |}).
  set (evs := read_events g (PSym observedCallbacksSymbol) (VRef a) b o).
  assert (a ≠ b) as Hab by (intros ->; congruence).
  assert (a < length (st_heap s)) as Hlt by (by eapply lookup_lt_Some).
  assert (∀ s0, node (st_heap s0) o b g → st_heap s0 !! b = Some (CObj ps) →
            Reflect_get_ (run (S (S n))) o (PSym observedCallbacksSymbol) o s0 =
              Ok (VRef a) {| st_heap := st_heap s0; st_trace := st_trace s0 ++ evs |})
    as Hget.
  { intros s0 Hnode0 Hb0. subst evs. rewrite <-Hslot.
    apply node_read; [done|done|]. intros; by apply Hread. }
  erewrite bind_Ok; [|erewrite bind_Ok; [|by apply Hget]; reflexivity].
  erewrite bind_Ok; [|by apply Hget].
  erewrite bind_Ok; last first.
  { unfold push. erewrite bind_Ok; [|by apply read_cell_lookup]. reflexivity. }
  unfold write_cell. cbn [st_heap st_trace].
  erewrite bind_Ok; last first.
  { apply Hget; cbn [st_heap].
    - by eapply node_insert_arr.
    - by rewrite list_lookup_insert_ne. }
  cbn [st_heap st_trace].
  erewrite bind_Ok; last first.
  { unfold spread_array. erewrite bind_Ok; last first.
    { apply read_cell_lookup. cbn [st_heap]. by apply list_lookup_insert_eq. }
    reflexivity. }
  unfold alloc, defineProp. cbn [st_heap st_trace].
  erewrite node_define; cbn [st_heap st_trace].
  - by rewrite length_insert.
  - apply node_app. by eapply node_insert_arr.
  - apply lookup_app_l_Some. by rewrite list_lookup_insert_ne.
Qed.

(** [offSet] on a node, with the stores it leaves: only the registry
    property of the node changes, to a reference to a fresh array. *)
Lemma offSet_all_store n o b g s ps :
  node (st_heap s) o b g →
  st_heap s !! b = Some (CObj ps) →
  offSet (run (S (S n))) o VUndefined s =
    Ok tt
      {| st_heap :=
           <[b := CObj (update_prop ps (PSym observedCallbacksSymbol)
                          (VRef (length (st_heap s))))]>
             (st_heap s ++ [CArr []]);
         st_trace := st_trace s |}.
Proof.
  intros Hnode Hb. unfold offSet. erewrite bind_Ok; [|done]. unfold defineProp.
  erewrite node_define; [done| |by apply lookup_app_l_Some].
  by apply node_app.
Qed.

Lemma offSet_one_store n o b g s ps a items f :
  node (st_heap s) o b g →
  registry_readable o b g →
  st_heap s !! b = Some (CObj ps) →
  lookup_prop ps (PSym observedCallbacksSymbol) = VRef a →
  st_heap s !! a = Some (CArr items) →
  offSet (run (S (S n))) o (VFun f) s =
    Ok tt
      {| st_heap :=
           <[b := CObj (update_prop ps (PSym observedCallbacksSymbol)
                          (VRef (length (st_heap s))))]>
             (st_heap s ++ [CArr (filter (λ reg, cb reg ≠ f) items)]);
         st_trace :=
           (st_trace s ++
            read_events g (PSym observedCallbacksSymbol) (VRef a) b o) ++
           read_events g (PSym observedCallbacksSymbol) (VRef a) b o |}.
Proof.
  intros Hnode Hread Hb Hslot Ha. unfold offSet.
  set (evs := read_events g (PSym observedCallbacksSymbol) (VRef a) b o).
  assert (∀ s0, node (st_heap s0) o b g → st_heap s0 !! b = Some (CObj ps) →
            Reflect_get_ (run (S (S n))) o (PSym observedCallbacksSymbol) o s0 =
              Ok (VRef a) {| st_heap := st_heap s0; st_trace := st_trace s0 ++ evs |})
    as Hget.
  { intros s0 Hnode0 Hb0. subst evs. rewrite <-Hslot.
    apply node_read; [done|done|]. intros; by apply Hread. }
  erewrite bind_Ok; [|by apply Hget].
  erewrite bind_Ok; last first.
  { unfold isArray. erewrite bind_Ok; [|by apply read_cell_lookup]. reflexivity. }
  cbn [negb].
  erewrite bind_Ok; [|by apply Hget]. cbn [st_heap st_trace].
  erewrite bind_Ok; [|by apply array_items_arr].
  erewrite bind_Ok; [|done]. unfold defineProp.
  erewrite node_define; [done| |by apply lookup_app_l_Some].
  by apply node_app.
Qed.

(** What the store of [onSet_registered] holds. *)
Lemma registered_store h b ps a items items' :
  h !! b = Some (CObj ps) →
  h !! a = Some (CArr items) →
  let h' := <[b := CObj (update_prop ps (PSym observedCallbacksSymbol)
                           (VRef (length h)))]>
              (<[a := CArr items']> h ++ [CArr items']) in
  h' !! a = Some (CArr items') ∧
  h' !! b = Some (CObj (update_prop ps (PSym observedCallbacksSymbol)
                          (VRef (length h)))) ∧
  h' !! length h = Some (CArr items') ∧
  (∀ l c, l ≠ a → l ≠ b → h !! l = Some c → h' !! l = Some c).
Proof.
  intros Hb Ha h'. subst h'.
  assert (a ≠ b) as Hab by (intros ->; congruence).
  assert (a < length h) as Hlta by (by eapply lookup_lt_Some).
  assert (b < length h) as Hltb by (by eapply lookup_lt_Some).
  split_and!.
  - rewrite list_lookup_insert_ne by done. apply lookup_app_l_Some.
    by apply list_lookup_insert_eq.
  - apply list_lookup_insert_eq. rewrite length_app, length_insert. lia.
  - rewrite list_lookup_insert_ne by lia.
    rewrite <-(length_insert h a (CArr items')). by apply list_lookup_middle.
  - intros l c Hla Hlb Hl. rewrite list_lookup_insert_ne by done.
    apply lookup_app_l_Some. by rewrite list_lookup_insert_ne.
Qed.

(** What the stores of [offSet_all_store] and [offSet_one_store] hold. *)
Lemma replaced_store h b ps items' :
  h !! b = Some (CObj ps) →
  let h' := <[b := CObj (update_prop ps (PSym observedCallbacksSymbol)
                           (VRef (length h)))]> (h ++ [CArr items']) in
  h' !! b = Some (CObj (update_prop ps (PSym observedCallbacksSymbol)
                          (VRef (length h)))) ∧
  h' !! length h = Some (CArr items') ∧
  (∀ l c, l ≠ b → h !! l = Some c → h' !! l = Some c).
Proof.
  intros Hb h'. subst h'.
  assert (b < length h) as Hltb by (by eapply lookup_lt_Some).
  split_and!.
  - apply list_lookup_insert_eq. rewrite length_app. lia.
  - rewrite list_lookup_insert_ne by lia. by apply list_lookup_middle.
  - intros l c Hlb Hl. rewrite list_lookup_insert_ne by done.
    by apply lookup_app_l_Some.
Qed.

Lemma registry_frame h h' b items :
  (∀ l c, l ≠ b → h !! l = Some c → h' !! l = Some c) →
  registry h b = Some items → ∀ b', b' ≠ b →
  ∀ items', registry h b' = Some items' → registry h' b' = Some items'.
Proof.
  intros Hframe Hregb b' Hne items' Hreg.
  apply registry_Some in Hregb as (ps & a & Hb & _).
  apply registry_Some in Hreg as (ps' & a' & Hb' & Hslot' & Ha').
  apply registry_Some. exists ps', a'. split_and!; [by apply Hframe|done|].
  apply Hframe; [|done]. intros ->. congruence.
Qed.

(** X3 (the array a registration is pushed to).  [onSet] on a node that
    has a registry pushes the registration to the array the registry
    property refers to, in place, and then redefines the property to a
    fresh copy: an array obtained from [getObservers] before the call
    holds the new registration after it, but is no longer the registry of
    the node, and a second [onSet] leaves it alone. *)
Theorem onSet_live_view n o b g s ps a items f ph :
  node (st_heap s) o b g →
  registry_readable o b g →
  st_heap s !! b = Some (CObj ps) →
  lookup_prop ps (PSym observedCallbacksSymbol) = VRef a →
  st_heap s !! a = Some (CArr items) →
  ∃ s' ps',
    onSet (run (S (S n))) o (VFun f) ph s = Ok tt s' ∧
    st_heap s' !! a =
      Some (CArr (items ++ [{| cb := f; phase := default after ph |}])) ∧
    st_heap s' !! b = Some (CObj ps') ∧
    lookup_prop ps' (PSym observedCallbacksSymbol) = VRef (length (st_heap s)) ∧
    a < length (st_heap s) ∧
    st_heap s' !! length (st_heap s) =
      Some (CArr (items ++ [{| cb := f; phase := default after ph |}])) ∧
    (∀ f' ph', ∃ s'',
       onSet (run (S (S n))) o (VFun f') ph' s' = Ok tt s'' ∧
       st_heap s'' !! a =
         Some (CArr (items ++ [{| cb := f; phase := default after ph |}])) ∧
       registry (st_heap s'') b =
         Some (items ++ [{| cb := f; phase := default after ph |};
                         {| cb := f'; phase := default after ph' |}])).
Proof.
  intros Hnode Hread Hb Hslot Ha.
  set (reg := {| cb := f; phase := default after ph |}).
  destruct (registered_store _ _ _ _ _ (items ++ [reg]) Hb Ha)
    as (Ha1 & Hb1 & Hnew1 & Hframe1).
  assert (a < length (st_heap s)) as Hlta by (by eapply lookup_lt_Some).
  eexists _, _. split; [by apply onSet_registered|]. cbn [st_heap].
  split_and!; [done|done|apply lookup_update_eq|done|done|].
  intros f' ph'. set (reg' := {| cb := f'; phase := default after ph' |}).
  eexists. split.
  - eapply onSet_registered; cbn [st_heap]; [|done|done|apply lookup_update_eq|done].
    apply node_insert, node_app. by eapply node_insert_arr.
  - cbn [st_heap].
    set (h1 := <[b := _]> (<[a := _]> (st_heap s) ++ _)) in *.
    assert (length h1 = S (length (st_heap s))) as Hlen1.
    { subst h1. rewrite length_insert, length_app, length_insert. simpl. lia. }
    destruct (registered_store h1 b _ (length (st_heap s)) _
                ((items ++ [reg]) ++ [reg']) Hb1 Hnew1)
      as (_ & Hb2 & Hnew2 & Hframe2).
    split.
    + apply Hframe2; [lia|intros ->; congruence|done].
    + apply registry_Some. eexists _, _.
      split_and!; [done|apply lookup_update_eq|].
      replace (items ++ [reg; reg']) with ((items ++ [reg]) ++ [reg'])
        by (by rewrite <-app_assoc).
      exact Hnew2.
Qed.

(** X4 ([offSet] builds a new array).  [offSet] with a function or with
    no callback, on a node that has a registry, leaves the array that was
    the registry as it was: an array obtained from [getObservers] before
    the call still holds every registration.  It changes one cell of the
    store, the object behind the node, and of that object only the
    registry property; the registrations of every other object stay, and
    the call without a callback reads nothing through the node. *)
Theorem offSet_replaces_array n o b g s ps a items c :
  node (st_heap s) o b g →
  registry_readable o b g →
  st_heap s !! b = Some (CObj ps) →
  lookup_prop ps (PSym observedCallbacksSymbol) = VRef a →
  st_heap s !! a = Some (CArr items) →
  c = VUndefined ∨ (∃ f, c = VFun f) →
  ∃ s' ps',
    offSet (run (S (S n))) o c s = Ok tt s' ∧
    st_heap s' !! a = Some (CArr items) ∧
    st_heap s' !! b = Some (CObj ps') ∧
    lookup_prop ps' (PSym observedCallbacksSymbol) = VRef (length (st_heap s)) ∧
    (∀ k, k ≠ PSym observedCallbacksSymbol → lookup_prop ps' k = lookup_prop ps k) ∧
    string_keys ps' = string_keys ps ∧
    (∀ l c', l ≠ b → st_heap s !! l = Some c' → st_heap s' !! l = Some c') ∧
    (∀ b' items', b' ≠ b → registry (st_heap s) b' = Some items' →
                  registry (st_heap s') b' = Some items') ∧
    (c = VUndefined → st_trace s' = st_trace s).
Proof.
  intros Hnode Hread Hb Hslot Ha Hc.
  assert (a ≠ b) as Hab by (intros ->; congruence).
  assert (registry (st_heap s) b = Some items) as Hreg.
  { apply registry_Some. eauto. }
  destruct Hc as [->|[f ->]].
  - destruct (replaced_store _ _ _ [] Hb) as (Hb1 & Hnew1 & Hframe1).
    eexists _, _. split; [by eapply offSet_all_store|]. cbn [st_heap st_trace].
    split_and!; [by apply Hframe1|done|apply lookup_update_eq| |
                 apply string_keys_update_sym|done| |done].
    + intros k Hk. by apply lookup_update_ne.
    + intros b' items' Hne. by eapply registry_frame.
  - destruct (replaced_store _ _ _ (filter (λ reg, cb reg ≠ f) items) Hb)
      as (Hb1 & Hnew1 & Hframe1).
    eexists _, _. split; [by eapply offSet_one_store|]. cbn [st_heap st_trace].
    split_and!; [by apply Hframe1|done|apply lookup_update_eq| |
                 apply string_keys_update_sym|done| |done].
    + intros k Hk. by apply lookup_update_ne.
    + intros b' items' Hne. by eapply registry_frame.
Qed.

Lemma filter_cb_snoc items f ph :
  filter (λ reg, cb reg ≠ f) (items ++ [{| cb := f; phase := ph |}]) =
  filter (λ reg, cb reg ≠ f) items.
Proof.
  rewrite filter_app, filter_cons_False; [|by intros ?].
  by rewrite filter_nil, app_nil_r.
Qed.

Lemma filter_all {A} (P : A → Prop) `{∀ x, Decision (P x)} (l : list A) :
  Forall P l → filter P l = l.
Proof.
  induction 1 as [|x l Hx _ IH]; [done|].
  rewrite filter_cons, decide_True by done. by rewrite IH.
Qed.

(** X5 (register, then unregister).  On a node that has a registry,
    [onSet] with a function followed by [offSet] with the same function
    leaves the registrations the node had before without those of that
    function: the node is back to the registrations it had exactly when
    the function was not registered before, since [offSet] removes the
    earlier registrations of the function as well.  A second [offSet]
    with the function returns and changes no registration. *)
Theorem register_unregister_round_trip n o b g s items f ph :
  node (st_heap s) o b g →
  registry_readable o b g →
  registry (st_heap s) b = Some items →
  ∃ s1 s2 s3,
    onSet (run (S (S n))) o (VFun f) ph s = Ok tt s1 ∧
    offSet (run (S (S n))) o (VFun f) s1 = Ok tt s2 ∧
    registry (st_heap s2) b = Some (filter (λ reg, cb reg ≠ f) items) ∧
    (Forall (λ reg, cb reg ≠ f) items → registry (st_heap s2) b = Some items) ∧
    offSet (run (S (S n))) o (VFun f) s2 = Ok tt s3 ∧
    registry (st_heap s3) b = registry (st_heap s2) b.
Proof.
  intros Hnode Hread Hreg.
  destruct (onSet_node n _ _ _ _ _ f ph Hnode Hread (or_introl Hreg))
    as (s1 & Hs1 & Hnode1 & Hreg1).
  destruct (offSet_one n _ _ _ _ _ f Hnode1 Hread Hreg1) as (s2 & Hs2 & Hnode2 & Hreg2).
  destruct (offSet_one n _ _ _ _ _ f Hnode2 Hread Hreg2) as (s3 & Hs3 & _ & Hreg3).
  rewrite filter_cb_snoc in Hreg2, Hreg3.
  exists s1, s2, s3. split_and!; [done|done|done| |done|].
  - intros Hall. by rewrite Hreg2, filter_all.
  - rewrite Hreg3, Hreg2. f_equal. apply filter_all.
    apply Forall_forall. intros reg Hin. by apply list_elem_of_filter in Hin as [? _].
Qed.

(** ** Registration, then a write *)

Lemma pipeline_returns k old r fs v :
  (∀ f x, is_Some (callback f k x old (VRef r))) →
  is_Some (pipeline k old r fs v).
Proof.
  intros Hret. revert v. induction fs as [|f fs IH]; intros v; simpl; [done|].
  destruct (Hret f v) as [v' ->]. apply IH.
Qed.

Lemma mayObserve_value rec v opts s :
  (∀ l, v ≠ VRef l) → mayObserve rec v opts s = Ok v s.
Proof. intros Hv. destruct v; try done. by destruct (Hv l). Qed.

Lemma before_hooks_snoc opts items reg :
  before_hooks opts (items ++ [reg]) =
  before_hooks opts items ++
  match phase reg with before => [cb reg] | after => [] end.
Proof.
  unfold before_hooks. rewrite filter_app, map_app, <-app_assoc. do 2 f_equal.
  destruct reg as [f []]; [by rewrite filter_cons_True|by rewrite filter_cons_False].
Qed.

Lemma after_hooks_snoc opts items reg :
  after_hooks opts (items ++ [reg]) =
  map cb (filter (λ reg, phase reg = after) items) ++
  match phase reg with after => [cb reg] | before => [] end ++
  option_list (opt_onSet opts).
Proof.
  unfold after_hooks. rewrite filter_app, map_app, <-app_assoc. do 2 f_equal.
  destruct reg as [f []]; [by rewrite filter_cons_False|by rewrite filter_cons_True].
Qed.

(** X6 (a registration takes effect at the next write).  On a proxy [p]
    over an object [t] that has a registry, [onSet] with a function [f],
    through the proxy or on the raw object [t], followed by a write
    through [p]: a ['before'] registration makes [f] the last callback of
    the before phase, so that the value stored is what [f] returned; an
    ['after'] registration (the default) makes [f] the last registered
    callback of the after phase, called with the stored value before the
    global [onSet] hook.  Stated for a write of a value that is not an
    object, with callbacks that return. *)
Theorem registered_callback_is_called n o p t opts s ps a items f ph k v :
  st_heap s !! p = Some (CProxy t opts) →
  st_heap s !! t = Some (CObj ps) →
  lookup_prop ps (PSym observedCallbacksSymbol) = VRef a →
  st_heap s !! a = Some (CArr items) →
  o = p ∨ o = t →
  registry_readable p t (opt_onGet opts) →
  k ≠ PSym observedCallbacksSymbol →
  (∀ l, v ≠ VRef l) →
  (∀ h x, is_Some (callback h k x (lookup_prop ps k) (VRef p))) →
  ∃ s1 s2 ps2 vb,
    onSet (run (S (S n))) o (VFun f) ph s = Ok tt s1 ∧
    Reflect_set (run (S n)) p k v p s1 = Ok true s2 ∧
    st_heap s2 !! t = Some (CObj ps2) ∧ lookup_prop ps2 k = vb ∧
    omap callee (drop (length (st_trace s1)) (st_trace s2)) =
      match default after ph with
      | before => before_hooks opts items ++ [f] ++ after_hooks opts items
      | after =>
          before_hooks opts items ++
          map cb (filter (λ reg, phase reg = after) items) ++ [f] ++
          option_list (opt_onSet opts)
      end ∧
    match default after ph with
    | before => ∃ vi, callback f k vi (lookup_prop ps k) (VRef p) = Some vb
    | after => EvCall f k vb (lookup_prop ps k) (VRef p) ∈ st_trace s2
    end.
Proof.
  intros Hp Ht Hslot Ha Ho Hread Hk Hv Hret.
  set (reg := {| cb := f; phase := default after ph |}).
  assert (∃ g, node (st_heap s) o t g ∧ registry_readable o t g) as (g & Hnode & Hread').
  { destruct Ho as [->| ->].
    - exists (opt_onGet opts). split; [by econstructor|done].
    - exists None. split; [by econstructor|by intros ? ? ?]. }
  destruct (registered_store _ _ _ _ _ (items ++ [reg]) Ht Ha)
    as (Ha1 & Ht1 & Hnew1 & Hframe1).
  pose proof (onSet_registered n o t g s ps a items f ph Hnode Hread' Ht Hslot Ha) as Hon.
  match type of Hon with _ = Ok tt ?st => set (s1 := st) in * end.
  set (ps1 := update_prop ps (PSym observedCallbacksSymbol) (VRef (length (st_heap s)))) in *.
  assert (lookup_prop ps1 k = lookup_prop ps k) as Hold by (by apply lookup_update_ne).
  destruct (pipeline_returns k (lookup_prop ps k) p (before_hooks opts (items ++ [reg])) v
              Hret) as [vb Hpipe].
  destruct (Reflect_set_proxy n p t opts ps1 (length (st_heap s)) (items ++ [reg])
              k v p s1 v s1 vb) as (ps1' & Ht1' & Hset).
  { apply Hframe1; [intros ->; congruence|intros ->; congruence|done]. }
  { done. }
  { apply lookup_update_eq. }
  { done. }
  { by apply mayObserve_value. }
  { by rewrite Hold. }
  { apply Forall_forall. intros h _. rewrite Hold. apply Hret. }
  rewrite Hold in Hset.
  eexists s1, _, _, vb. split_and!; [done|exact Hset|..]; cbn [st_heap st_trace].
  - apply list_lookup_insert_eq. by eapply lookup_lt_Some.
  - apply lookup_update_eq.
  - rewrite drop_app_length, !omap_app. cbn [omap callee option_list app].
    erewrite pipeline_calls_callee, after_calls_callee by done.
    rewrite before_hooks_snoc, after_hooks_snoc. subst reg. cbn [phase cb].
    destruct (default after ph); simpl.
    + by rewrite <-app_assoc.
    + by rewrite app_nil_r.
  - rewrite before_hooks_snoc in Hpipe. subst reg. cbn [phase cb] in *.
    destruct (default after ph).
    + by eapply pipeline_last.
    + rewrite !elem_of_app. right. right. right.
      unfold after_calls. apply list_elem_of_fmap. exists f. split; [done|].
      rewrite after_hooks_snoc. cbn [phase cb]. rewrite !elem_of_app, elem_of_cons. 
      right. left. by left.
Qed.


(** ** A write, then a read *)

(** X8 (a read after a write).  After a write through a proxy, a read of
    the same key through the proxy returns the value the before phase
    produced, which need not be the value that was assigned; a read of
    any other key returns what the target held under it once the incoming
    value was wrapped, and when the incoming value is not an object that
    is what the target held before the write. *)
Theorem write_then_read n p t opts ps a regs k v r s v1 s1 vb :
  st_heap s !! p = Some (CProxy t opts) →
  st_heap s !! t = Some (CObj ps) →
  lookup_prop ps (PSym observedCallbacksSymbol) = VRef a →
  st_heap s !! a = Some (CArr regs) →
  mayObserve (run (S n)) v opts s = Ok v1 s1 →
  pipeline k (lookup_prop ps k) r (before_hooks opts regs) v1 = Some vb →
  Forall (λ f, is_Some (callback f k vb (lookup_prop ps k) (VRef r)))
         (after_hooks opts regs) →
  (∀ f k' x, opt_onGet opts = Some f →
             is_Some (callback f k' x (VRef t) (VRef p))) →
  ∃ s' ps1,
    Reflect_set (run (S n)) p k v r s = Ok true s' ∧
    st_heap s1 !! t = Some (CObj ps1) ∧
    (∃ s'', Reflect_get (run (S n)) p k p s' = Ok vb s'' ∧
            st_heap s'' = st_heap s') ∧
    (∀ k', k' ≠ k →
       ∃ s'', Reflect_get (run (S n)) p k' p s' = Ok (lookup_prop ps1 k') s'' ∧
              st_heap s'' = st_heap s') ∧
    ((∀ l, v ≠ VRef l) → ps1 = ps).
Proof.
  intros Hp Ht Hslot Ha Hwrap Hpipe Hafter Hget.
  destruct (Reflect_set_proxy _ _ _ _ _ _ _ _ _ _ _ _ _ _
              Hp Ht Hslot Ha Hwrap Hpipe Hafter) as (ps1 & Ht1 & Hset).
  pose proof (mayObserve_pres _ _ _ _ _ _ Hwrap) as Hpres.
  pose proof (pres_proxy _ _ Hpres _ _ _ Hp) as Hp1.
  assert (t < length (st_heap s1)) as Hlt by (by eapply lookup_lt_Some).
  assert (p ≠ t) as Hpt by (intros ->; congruence).
  eexists _, ps1. split; [exact Hset|]. split; [done|].
  assert (∀ k', ∃ s'',
    Reflect_get (run (S n)) p k' p
      {| st_heap := <[t := CObj (update_prop ps1 k vb)]> (st_heap s1);
         st_trace := st_trace s1 ++
           pipeline_calls k (lookup_prop ps k) r (before_hooks opts regs) v1 ++
           [EvWrite t k vb] ++
           after_calls k (lookup_prop ps k) r (after_hooks opts regs) vb |}
      = Ok (lookup_prop (update_prop ps1 k vb) k') s'' ∧
    st_heap s'' = <[t := CObj (update_prop ps1 k vb)]> (st_heap s1)) as Hread.
  { intros k'. eexists. split.
    - eapply Reflect_get_proxy.
      + cbn [st_heap]. by rewrite list_lookup_insert_ne.
      + simpl Reflect_get_. apply Reflect_get_obj. cbn [st_heap].
        by apply list_lookup_insert_eq.
      + intros f Hf. by apply Hget.
    - done. }
  split_and!.
  - destruct (Hread k) as (s'' & Hrun & Hheap). rewrite lookup_update_eq in Hrun. eauto.
  - intros k' Hne. destruct (Hread k') as (s'' & Hrun & Hheap).
    rewrite lookup_update_ne in Hrun by done. eauto.
  - intros Hv. rewrite mayObserve_value in Hwrap by done. by simplify_eq.
Qed.

(** ** Callbacks that throw in a write *)

Lemma bind_Throw {A B} (m : M A) (k : A → M B) s e s1 :
  m s = Throw e s1 → bind m k s = Throw e s1.
Proof. unfold bind. by intros ->. Qed.

Lemma call_None f k a1 a2 a3 s :
  callback f k a1 a2 a3 = None →
  call f k a1 a2 a3 s =
    Throw (Thrown f)
      {| st_heap := st_heap s; st_trace := st_trace s ++ [EvCall f k a1 a2 a3] |}.
Proof. unfold call, bind, log. by intros ->. Qed.

Lemma thrower_pipeline k old r fs v f :
  thrower k old r fs v = Some f → pipeline k old r fs v = None ∧ f ∈ fs.
Proof.
  revert v. induction fs as [|f0 fs IH]; intros v H; simpl in *; [done|].
  destruct (callback f0 k v old (VRef r)) as [v'|].
  - destruct (IH _ H). split; [done|by right].
  - simplify_eq. split; [done|by left].
Qed.

Lemma inform_before_throw k old r items v f s :
  thrower k old r (map cb (filter (λ reg, phase reg = before) items)) v = Some f →
  inform_before items k v old r s =
    Throw (Thrown f)
      {| st_heap := st_heap s;
         st_trace := st_trace s ++
           pipeline_calls k old r
             (map cb (filter (λ reg, phase reg = before) items)) v |}.
Proof.
  revert v s. induction items as [|[f0 ph] items IH]; intros v s H; simpl in *; [done|].
  destruct ph; simpl in *.
  - destruct (callback f0 k v old (VRef r)) as [v'|] eqn:Hc.
    + erewrite bind_Ok; [|by apply call_Some].
      rewrite (IH _ _ H). simpl. by rewrite <-app_assoc.
    + simplify_eq. erewrite bind_Throw; [done|by apply call_None].
  - erewrite bind_Ok; [|done]. by apply IH.
Qed.

(** X9 (a before callback that throws).  When a callback of the before
    phase throws, the global [onBeforeSet] hook or a ['before']
    registration, the write through the proxy throws that exception.  The
    callbacks before it in the phase have been called, each with what the
    one before it returned; nothing is written, so the store is the one
    that wrapping the incoming value left, and no callback after the one
    that threw is called. *)
Theorem before_throw_blocks_write n p t opts ps a regs k v r s v1 s1 f :
  st_heap s !! p = Some (CProxy t opts) →
  st_heap s !! t = Some (CObj ps) →
  lookup_prop ps (PSym observedCallbacksSymbol) = VRef a →
  st_heap s !! a = Some (CArr regs) →
  mayObserve (run (S n)) v opts s = Ok v1 s1 →
  thrower k (lookup_prop ps k) r (before_hooks opts regs) v1 = Some f →
  f ∈ before_hooks opts regs ∧
  Reflect_set (run (S n)) p k v r s =
    Throw (Thrown f)
      {| st_heap := st_heap s1;
         st_trace := st_trace s1 ++
           pipeline_calls k (lookup_prop ps k) r (before_hooks opts regs) v1 |}.
Proof.
  intros Hp Ht Hslot Ha Hwrap Hthrow.
  split; [by eapply thrower_pipeline|].
  pose proof (mayObserve_pres _ _ _ _ _ _ Hwrap) as Hpres.
  destruct (pres_obj _ _ Hpres _ _ Ht) as (ps1 & Ht1 & Hkeep).
  pose proof (pres_arr _ _ Hpres _ _ Ha) as Ha1.
  assert (lookup_prop ps1 (PSym observedCallbacksSymbol) = VRef a) as Hslot1.
  { rewrite Hkeep; [done|]. by rewrite Hslot. }
  unfold Reflect_set. erewrite bind_Ok; [|by apply read_cell_lookup].
  unfold set_trap. simpl Reflect_get_.
  erewrite bind_Ok; [|by apply Reflect_get_obj].
  erewrite bind_Ok; [|done].
  set (old := lookup_prop ps k) in *.
  unfold before_hooks in *.
  destruct (opt_onBeforeSet opts) as [h|]; simpl in Hthrow |- *.
  - destruct (callback h k v1 old (VRef r)) as [v2|] eqn:Hh.
    + erewrite bind_Ok; [|by apply call_Some].
      unfold getObservers. simpl Reflect_get_.
      erewrite bind_Ok; [|by apply Reflect_get_obj]. rewrite Hslot1.
      erewrite bind_Ok; [|by apply array_items_arr].
      erewrite bind_Throw; [|by apply inform_before_throw].
      simpl. by rewrite <-app_assoc.
    + simplify_eq. erewrite bind_Throw; [done|by apply call_None].
  - erewrite bind_Ok; [|done].
    unfold getObservers. simpl Reflect_get_.
    erewrite bind_Ok; [|by apply Reflect_get_obj]. rewrite Hslot1.
    erewrite bind_Ok; [|by apply array_items_arr].
    erewrite bind_Throw; [done|by apply inform_before_throw].
Qed.

Lemma after_thrower_app k old r fs1 fs2 v :
  after_thrower k old r (fs1 ++ fs2) v =
    match after_thrower k old r fs1 v with
    | Some f => Some f
    | None => after_thrower k old r fs2 v
    end.
Proof.
  induction fs1 as [|f fs1 IH]; simpl; [done|].
  by destruct (callback f k v old (VRef r)).
Qed.

Lemma notified_app k old r fs1 fs2 v :
  notified k old r (fs1 ++ fs2) v =
    match after_thrower k old r fs1 v with
    | Some _ => notified k old r fs1 v
    | None => fs1 ++ notified k old r fs2 v
    end.
Proof.
  induction fs1 as [|f fs1 IH]; simpl; [done|].
  destruct (callback f k v old (VRef r)); [|done].
  rewrite IH. by destruct (after_thrower k old r fs1 v).
Qed.

Lemma after_thrower_None k old r fs v :
  after_thrower k old r fs v = None →
  Forall (λ f, is_Some (callback f k v old (VRef r))) fs.
Proof.
  induction fs as [|f fs IH]; simpl; [by constructor|].
  destruct (callback f k v old (VRef r)) eqn:Hc; [|done].
  intros H. constructor; [by rewrite Hc|by apply IH].
Qed.

Lemma notified_last k old r fs v f :
  after_thrower k old r fs v = Some f →
  callback f k v old (VRef r) = None ∧
  ∃ reached rest,
    notified k old r fs v = reached ++ [f] ∧ fs = reached ++ f :: rest ∧
    Forall (λ f', is_Some (callback f' k v old (VRef r))) reached.
Proof.
  induction fs as [|f0 fs IH]; simpl; [done|].
  destruct (callback f0 k v old (VRef r)) eqn:Hc.
  - intros H. destruct (IH H) as (Hf & reached & rest & -> & -> & Hall).
    split; [done|]. exists (f0 :: reached), rest. split_and!; [done|done|].
    constructor; [by rewrite Hc|done].
  - intros [= <-]. split; [done|]. exists [], fs. split_and!; [done|done|constructor].
Qed.

Lemma inform_after_throw k old r items v f s :
  after_thrower k old r (map cb (filter (λ reg, phase reg = after) items)) v = Some f →
  inform_after items k v old r s =
    Throw (Thrown f)
      {| st_heap := st_heap s;
         st_trace := st_trace s ++
           after_calls k old r
             (notified k old r
                (map cb (filter (λ reg, phase reg = after) items)) v) v |}.
Proof.
  unfold inform_after, after_calls.
  revert s. induction items as [|[f0 ph] items IH]; intros s H; simpl in *; [done|].
  destruct ph; simpl in *.
  - erewrite bind_Ok; [|done]. by apply IH.
  - destruct (callback f0 k v old (VRef r)) as [v'|] eqn:Hc.
    + erewrite bind_Ok; [|by erewrite bind_Ok; [|by apply call_Some]].
      rewrite (IH _ H). simpl. by rewrite <-app_assoc.
    + simplify_eq. erewrite bind_Throw; [done|].
      erewrite bind_Throw; [done|by apply call_None].
Qed.

(** A write through a proxy up to the commit: what is left to run is the
    after phase, on the store that holds the committed value. *)
Lemma Reflect_set_commit n p t opts ps a regs k v r s v1 s1 vb :
  st_heap s !! p = Some (CProxy t opts) →
  st_heap s !! t = Some (CObj ps) →
  lookup_prop ps (PSym observedCallbacksSymbol) = VRef a →
  st_heap s !! a = Some (CArr regs) →
  mayObserve (run (S n)) v opts s = Ok v1 s1 →
  pipeline k (lookup_prop ps k) r (before_hooks opts regs) v1 = Some vb →
  ∃ ps1, st_heap s1 !! t = Some (CObj ps1) ∧
    Reflect_set (run (S n)) p k v r s =
      (do* inform_after regs k vb (lookup_prop ps k) r in
       do* match opt_onSet opts with
           | Some f => do* call f k vb (lookup_prop ps k) (VRef r) in ret tt
           | None => ret tt
           end in
       ret true)
        {| st_heap := <[t := CObj (update_prop ps1 k vb)]> (st_heap s1);
           st_trace := (st_trace s1 ++
             pipeline_calls k (lookup_prop ps k) r (before_hooks opts regs) v1) ++
             [EvWrite t k vb] |}.
Proof.
  intros Hp Ht Hslot Ha Hwrap Hpipe.
  pose proof (mayObserve_pres _ _ _ _ _ _ Hwrap) as Hpres.
  destruct (pres_obj _ _ Hpres _ _ Ht) as (ps1 & Ht1 & Hkeep).
  pose proof (pres_arr _ _ Hpres _ _ Ha) as Ha1.
  assert (lookup_prop ps1 (PSym observedCallbacksSymbol) = VRef a) as Hslot1.
  { rewrite Hkeep; [done|]. by rewrite Hslot. }
  exists ps1. split; [done|].
  unfold Reflect_set. erewrite bind_Ok; [|by apply read_cell_lookup].
  unfold set_trap. simpl Reflect_get_.
  erewrite bind_Ok; [|by apply Reflect_get_obj].
  erewrite bind_Ok; [|done].
  set (old := lookup_prop ps k) in *.
  unfold before_hooks in *.
  assert (∃ v2, match opt_onBeforeSet opts with
                | Some h => callback h k v1 old (VRef r) = Some v2
                | None => v2 = v1
                end ∧
                pipeline k old r (map cb (filter (λ reg, phase reg = before) regs)) v2
                  = Some vb) as (v2 & Hgb & Hrest).
  { destruct (opt_onBeforeSet opts) as [h|]; simpl in Hpipe; [|by eauto].
    destruct (callback h k v1 old (VRef r)) as [v2|]; [by eauto|done]. }
  erewrite (bind_Ok _ _ s1 v2
              {| st_heap := st_heap s1;
                 st_trace := st_trace s1 ++
                   pipeline_calls k old r (option_list (opt_onBeforeSet opts)) v1 |});
    last first.
  { destruct (opt_onBeforeSet opts) as [h|]; simpl.
    - rewrite (call_Some _ _ _ _ _ _ _ Hgb). by rewrite Hgb.
    - subst v2. rewrite app_nil_r. by destruct s1. }
  unfold getObservers. simpl Reflect_get_.
  erewrite bind_Ok; [|by apply Reflect_get_obj]. rewrite Hslot1.
  erewrite bind_Ok; [|by apply array_items_arr].
  erewrite bind_Ok; [|by apply inform_before_spec].
  erewrite bind_Ok; last first.
  { simpl Reflect_set_. unfold Reflect_set.
    erewrite bind_Ok; [|by apply read_cell_lookup].
    unfold bind, write_cell, log, ret. simpl. reflexivity. }
  erewrite bind_Ok; last first.
  { apply array_items_arr. simpl. rewrite list_lookup_insert_ne; [done|].
    intros ->. congruence. }
  cbn [st_heap st_trace]. do 3 f_equal.
  rewrite <-app_assoc. f_equal.
  destruct (opt_onBeforeSet opts) as [h|]; simpl; [by rewrite Hgb|by subst].
Qed.

(** X10 (an after callback that throws).  When the before phase has
    produced a value and a callback of the after phase throws, an
    ['after'] registration or the global [onSet] hook, the write through
    the proxy throws that exception after the value has been stored: the
    store holds the committed value, nothing is rolled back, the callbacks
    of the after phase up to the one that threw have been called, and the
    ones after it are not. *)
Theorem after_throw_keeps_write n p t opts ps a regs k v r s v1 s1 vb f :
  st_heap s !! p = Some (CProxy t opts) →
  st_heap s !! t = Some (CObj ps) →
  lookup_prop ps (PSym observedCallbacksSymbol) = VRef a →
  st_heap s !! a = Some (CArr regs) →
  mayObserve (run (S n)) v opts s = Ok v1 s1 →
  pipeline k (lookup_prop ps k) r (before_hooks opts regs) v1 = Some vb →
  after_thrower k (lookup_prop ps k) r (after_hooks opts regs) vb = Some f →
  ∃ ps1 reached rest,
    st_heap s1 !! t = Some (CObj ps1) ∧
    after_hooks opts regs = reached ++ f :: rest ∧
    Forall (λ f', is_Some (callback f' k vb (lookup_prop ps k) (VRef r))) reached ∧
    callback f k vb (lookup_prop ps k) (VRef r) = None ∧
    Reflect_set (run (S n)) p k v r s =
      Throw (Thrown f)
        {| st_heap := <[t := CObj (update_prop ps1 k vb)]> (st_heap s1);
           st_trace := st_trace s1 ++
             pipeline_calls k (lookup_prop ps k) r (before_hooks opts regs) v1 ++
             [EvWrite t k vb] ++
             after_calls k (lookup_prop ps k) r (reached ++ [f]) vb |}.
Proof.
  intros Hp Ht Hslot Ha Hwrap Hpipe Hthrow.
  destruct (Reflect_set_commit _ _ _ _ _ _ _ _ _ _ _ _ _ _
              Hp Ht Hslot Ha Hwrap Hpipe) as (ps1 & Ht1 & ->).
  destruct (notified_last _ _ _ _ _ _ Hthrow) as (Hf & reached & rest & Hn & Hfs & Hall).
  exists ps1, reached, rest. split_and!; [done..|].
  rewrite <-Hn. clear Hn Hfs Hall reached rest.
  set (old := lookup_prop ps k) in *.
  unfold after_hooks in *. rewrite after_thrower_app in Hthrow.
  rewrite notified_app.
  destruct (after_thrower k old r
              (map cb (filter (λ reg, phase reg = after) regs)) vb) as [f'|] eqn:Hreg.
  - simplify_eq. erewrite bind_Throw; [|by apply inform_after_throw].
    cbn [st_heap st_trace]. by rewrite <-!app_assoc.
  - erewrite bind_Ok; [|by apply inform_after_spec, after_thrower_None].
    destruct (opt_onSet opts) as [h|]; simpl in Hthrow; [|done].
    destruct (callback h k vb old (VRef r)) eqn:Hh; [done|]. simplify_eq.
    erewrite bind_Throw; last first.
    { erewrite bind_Throw; [done|by apply call_None]. }
    cbn [st_heap st_trace]. simpl. rewrite Hh. unfold after_calls.
    rewrite map_app. simpl. by rewrite <-!app_assoc.
Qed.

(** ** The own keys of objects *)

Lemma string_keys_update_str ps k v :
  k ∈ string_keys ps → string_keys (update_prop ps (PStr k) v) = string_keys ps.
Proof.
  induction ps as [|[k0 v0] ps IH]; simpl; [by intros ?%elem_of_nil|].
  destruct (decide (k0 = PStr k)) as [->|Hne]; simpl; [done|].
  destruct k0 as [k0|y]; simpl.
  - intros [?|Hin]%elem_of_cons; [congruence|]. by rewrite IH.
  - intros Hin. by apply IH.
Qed.

Lemma keys_kept_refl h : keys_kept h h.
Proof. intros l ps Hl. eauto. Qed.

Lemma keys_kept_trans h1 h2 h3 :
  keys_kept h1 h2 → keys_kept h2 h3 → keys_kept h1 h3.
Proof.
  intros H12 H23 l ps Hl.
  destruct (H12 _ _ Hl) as (ps2 & Hl2 & E2).
  destruct (H23 _ _ Hl2) as (ps3 & Hl3 & E3).
  exists ps3. split; [done|congruence].
Qed.

Lemma keys_kept_app h cs : keys_kept h (h ++ cs).
Proof. intros l ps Hl. eauto using lookup_app_l_Some. Qed.

Lemma keys_kept_update h b ps k v :
  h !! b = Some (CObj ps) →
  string_keys (update_prop ps k v) = string_keys ps →
  keys_kept h (<[b := CObj (update_prop ps k v)]> h).
Proof.
  intros Hb Hk l ps' Hl. destruct (decide (l = b)) as [->|Hne].
  - simplify_eq. eexists. split; [|done].
    apply list_lookup_insert_eq. by eapply lookup_lt_Some.
  - exists ps'. by rewrite list_lookup_insert_ne.
Qed.

Lemma for_each_inv_state {A} (Inv : state → Prop) (body : A → M unit) xs :
  (∀ x s u s1, x ∈ xs → Inv s → body x s = Ok u s1 → Inv s1) →
  ∀ s u s1, Inv s → for_each body xs s = Ok u s1 → Inv s1.
Proof.
  induction xs as [|x xs IH]; intros Hbody s u s1 Hs H; simpl in H.
  - by inv_step H.
  - inv_bind H as u' s2 Hx. eapply IH; [| |done].
    + intros. eapply Hbody; [by right|done..].
    + eapply Hbody; [by left|done..].
Qed.

(** The steps of [observed] that define a symbol-keyed property. *)
Lemma define_steps n o y v s u s1 :
  Object_defineProperty_ (run n) o y v s = Ok u s1 →
  keys_kept (st_heap s) (st_heap s1) ∧
  (∀ l t opts, st_heap s1 !! l = Some (CProxy t opts) →
               st_heap s !! l = Some (CProxy t opts)).
Proof.
  intros H. apply Object_defineProperty_inv in H as (b & ps & Hb & Hps & ->).
  cbn [st_heap]. split.
  - apply keys_kept_update; [done|]. apply string_keys_update_sym.
  - intros l t opts Hl. destruct (decide (l = b)) as [->|Hne].
    + rewrite list_lookup_insert_eq in Hl by (by eapply lookup_lt_Some). done.
    + by rewrite list_lookup_insert_ne in Hl.
Qed.

Lemma initCallbackArray_steps n o s u s1 :
  initCallbackArray (run n) o s = Ok u s1 →
  keys_kept (st_heap s) (st_heap s1) ∧
  (∀ l t opts, st_heap s1 !! l = Some (CProxy t opts) →
               st_heap s !! l = Some (CProxy t opts)).
Proof.
  unfold initCallbackArray. intros H. inv_bind H as v s2 Hg.
  apply Reflect_get_inv in Hg as (b & ps & Hb & Hps & -> & Hh).
  destruct (truthy (lookup_prop ps (PSym observedCallbacksSymbol))); simpl in H.
  - inv_step H. rewrite Hh. split; [apply keys_kept_refl|done].
  - inv_bind H as a s3 Ha. inv_step Ha. unfold defineProp in H.
    apply define_steps in H as [Hkeys Hproxies]. cbn [st_heap] in *.
    rewrite Hh in *. split.
    + eapply keys_kept_trans; [apply keys_kept_app|done].
    + intros l t opts Hl. apply Hproxies in Hl.
      apply lookup_app_Some in Hl as [Hl|[_ Hl]]; [done|].
      destruct (l - length (st_heap s)) as [|i]; simpl in Hl; done.
Qed.

Lemma base_of_target h p t opts b :
  h !! p = Some (CProxy t opts) → base_of h p b → base_of h t b.
Proof. intros Hp Hb. destruct Hb; [congruence|]. by simplify_eq. Qed.

(** A write under a key the object has, and every call of [observed],
    keep the string keys of every object. *)
Lemma set_observed_keys n :
  (∀ o k v r s b s1 bo pso,
      Reflect_set_ (run n) o (PStr k) v r s = Ok b s1 →
      base_of (st_heap s) o bo → st_heap s !! bo = Some (CObj pso) →
      k ∈ string_keys pso →
      keys_kept (st_heap s) (st_heap s1)) ∧
  (∀ o opts s p s1,
      observed_ (run n) o opts s = Ok p s1 →
      keys_kept (st_heap s) (st_heap s1)).
Proof.
  induction n as [|n [IHset IHobs]]; [done|].
  assert (∀ v opts s v' s1,
    mayObserve (run n) v opts s = Ok v' s1 →
    keys_kept (st_heap s) (st_heap s1)) as Hmay.
  { intros v opts s v' s1 H. destruct v; simpl in H; try (inv_step H; apply keys_kept_refl).
    inv_bind H as p s2 Ho. inv_step H. eauto. }
  split.
  - intros o k v r s b s1 bo pso H Hbo Hpso Hin. simpl in H. unfold Reflect_set in H.
    inv_bind H as c s' Hc. inv_step Hc. destruct c as [ps|items|t opts]; [| done |].
    + inv_bind H as u1 s2 Hw. inv_step Hw. inv_bind H as u2 s3 Hl. inv_step Hl.
      inv_step H. simpl. rewrite (base_of_CObj _ _ _ _ Hc Hbo) in Hpso. simplify_eq.
      apply keys_kept_update; [done|]. by apply string_keys_update_str.
    + unfold set_trap in H.
      inv_bind H as old s2 Hg. apply Reflect_get_inv in Hg as (_ & _ & _ & _ & _ & Hh2).
      inv_bind H as v1 s3 Hm.
      pose proof (mayObserve_pres _ _ _ _ _ _ Hm) as Hpres3. apply Hmay in Hm.
      rewrite Hh2 in *.
      inv_bind H as v2 s4 Hgb.
      assert (st_heap s4 = st_heap s3) as Hh4.
      { destruct (opt_onBeforeSet opts); [|by inv_step Hgb].
        by apply call_Ok in Hgb as [_ ->]. }
      inv_bind H as obs s5 Hgo. unfold getObservers in Hgo.
      apply Reflect_get_inv in Hgo as (_ & _ & _ & _ & _ & Hh5).
      inv_bind H as items s6 Hi. apply array_items_Ok in Hi as ->.
      inv_bind H as v3 s7 Hb. apply inform_before_heap in Hb.
      inv_bind H as b1 s8 Hs.
      assert (st_heap s7 = st_heap s3) as Hh7 by congruence.
      destruct (Hm _ _ Hpso) as (pso3 & Hpso3 & Hk3).
      eapply (IHset _ _ _ _ _ _ _ bo pso3) in Hs; last first.
      { by rewrite Hk3. }
      { by rewrite Hh7. }
      { rewrite Hh7. eapply pres_base_of; [done|]. by eapply base_of_target. }
      inv_bind H as items2 s9 Hi. apply array_items_Ok in Hi as ->.
      inv_bind H as u3 s10 Ha. apply inform_after_heap in Ha.
      inv_bind H as u4 s11 Hga. inv_step H.
      assert (st_heap s1 = st_heap s10) as ->.
      { destruct (opt_onSet opts); [|by inv_step Hga].
        inv_bind Hga as r' s12 Hcall. apply call_Ok in Hcall as [_ ->]. by inv_step Hga. }
      rewrite Ha. eapply keys_kept_trans; [done|]. by rewrite <-Hh7.
  - intros o opts s p s1 H. simpl in H. unfold observed in H.
    inv_bind H as u1 s2 Hinit. apply initCallbackArray_steps in Hinit as [Hinit _].
    inv_bind H as keys s3 Hk.
    apply Object_keys_inv in Hk as (b & ps & Hb & Hps & -> & ->).
    inv_bind H as u2 s4 Hloop.
    apply (for_each_inv_state
             (λ s', pres (st_heap s2) (st_heap s') ∧
                    keys_kept (st_heap s2) (st_heap s'))) in Hloop;
      [|clear Hloop|split; [apply pres_refl|apply keys_kept_refl]].
    2:{ intros key sa u sb Hin [Hpa Hka] Hbody.
        inv_bind Hbody as v sc Hg. apply Reflect_get_inv in Hg as (_ & _ & _ & _ & _ & Hhc).
        inv_bind Hbody as v' sd Hm.
        pose proof (mayObserve_pres _ _ _ _ _ _ Hm) as Hpd. apply Hmay in Hm.
        inv_bind Hbody as b1 se Hs. inv_step Hbody.
        pose proof (proj1 (set_observed_pres n) _ _ _ _ _ _ _ Hs) as Hpe.
        rewrite Hhc in *.
        assert (keys_kept (st_heap s2) (st_heap sd)) as Hkd by (by eapply keys_kept_trans).
        assert (pres (st_heap s2) (st_heap sd)) as Hpd' by (by eapply pres_trans).
        destruct (Hkd _ _ Hps) as (psd & Hpsd & Hkeysd).
        eapply (IHset _ _ _ _ _ _ _ b psd) in Hs;
          [|by eapply pres_base_of|done|by rewrite Hkeysd].
        split; [by eapply pres_trans|by eapply keys_kept_trans]. }
    destruct Hloop as [_ Hloop].
    inv_bind H as marked s5 Hobs. unfold isObserved in Hobs.
    inv_bind Hobs as v s6 Hg. inv_step Hobs.
    apply Reflect_get_inv in Hg as (b' & ps' & Hb' & Hps' & -> & Hh6).
    eapply keys_kept_trans; [done|]. eapply keys_kept_trans; [done|].
    destruct (truthy (lookup_prop ps' (PSym observedSymbol))).
    + inv_step H. rewrite Hh6. apply keys_kept_refl.
    + inv_bind H as proxy s7 Ha. inv_step Ha. inv_bind H as u3 s8 Hd. inv_step H.
      unfold defineProp in Hd. apply define_steps in Hd as [Hd _]. cbn [st_heap] in Hd.
      rewrite Hh6 in *. eapply keys_kept_trans; [apply keys_kept_app|done].
Qed.

(** X11 (wrapping keeps the own keys).  A call of [observed] that
    returns leaves every object of the store with the string keys it had,
    in the same order: the loop assigns to keys the object has, and the
    marker and the registry are symbol-keyed.  So [Object.keys] of what is
    returned lists what [Object.keys] of the argument listed before. *)
Theorem observed_keeps_keys n o opts s p s1 :
  observed (run n) o opts s = Ok p s1 →
  (∀ l ps, st_heap s !! l = Some (CObj ps) →
     ∃ ps', st_heap s1 !! l = Some (CObj ps') ∧ string_keys ps' = string_keys ps) ∧
  (∀ m m' ks ks' sa sb,
     Object_keys_ (run m) o s = Ok ks sa →
     Object_keys_ (run m') p s1 = Ok ks' sb →
     ks' = ks).
Proof.
  intros Hrun.
  pose proof (proj2 (set_observed_keys (S n)) o opts s p s1 Hrun) as Hkeys.
  split; [done|].
  intros m m' ks ks' sa sb Hk Hk'.
  apply Object_keys_inv in Hk as (b & ps & Hb & Hps & -> & _).
  apply Object_keys_inv in Hk' as (b' & ps' & Hb' & Hps' & -> & _).
  destruct (Hkeys _ _ Hps) as (ps1 & Hps1 & <-).
  pose proof (proj2 (set_observed_pres (S n)) o opts s p s1 Hrun) as Hpres.
  pose proof (pres_base_of _ _ _ _ Hpres Hb) as Hb1.
  enough (b' = b) by (by simplify_eq).
  apply observed_inv in Hrun as (hl & bl & psl & Hpl & Hbl & Hpsl & Hcase).
  destruct Hcase as [(_ & -> & _)|(_ & -> & Hheap)]; [by eapply base_of_fun|].
  assert (length hl ≠ bl) as Hne.
  { apply lookup_lt_Some in Hpsl. lia. }
  assert (st_heap s1 !! length hl = Some (CProxy o (spread defaultOptions opts))) as Hp.
  { rewrite Hheap, list_lookup_insert_ne by done. by apply list_lookup_middle. }
  eapply base_of_fun; [|done]. by eapply base_of_target.
Qed.

(** X12 ([defineProp] is invisible to enumeration).  [defineProp] on a
    node with one of the two symbols stores the value under the symbol on
    the object behind the node, through a proxy as well; a read of the
    symbol on the object finds the value; the string-keyed properties of
    the object and the list [Object.keys] gives stay as they were; no
    other cell of the store changes and no callback is called. *)
Theorem defineProp_invisible n o b g ps y v s :
  node (st_heap s) o b g →
  st_heap s !! b = Some (CObj ps) →
  ∃ s' ps',
    defineProp (run (S (S n))) o y v s = Ok tt s' ∧
    st_heap s' !! b = Some (CObj ps') ∧
    lookup_prop ps' (PSym y) = v ∧
    (∀ k, k ≠ PSym y → lookup_prop ps' k = lookup_prop ps k) ∧
    Object_keys_ (run (S (S n))) o s' = Ok (string_keys ps) s' ∧
    (∀ l c, l ≠ b → st_heap s !! l = Some c → st_heap s' !! l = Some c) ∧
    st_trace s' = st_trace s.
Proof.
  intros Hnode Hb.
  assert (b < length (st_heap s)) as Hlt by (by eapply lookup_lt_Some).
  eexists _, _. split; [by eapply node_define|]. cbn [st_heap st_trace].
  split_and!; [by apply list_lookup_insert_eq|apply lookup_update_eq| | | |done].
  - intros k Hk. by apply lookup_update_ne.
  - rewrite <-(string_keys_update_sym ps y v). eapply node_keys; cbn [st_heap].
    + by apply node_insert.
    + by apply list_lookup_insert_eq.
  - intros l c Hne Hl. by rewrite list_lookup_insert_ne.
Qed.

(** ** The hooks of the proxies in the store *)

Lemma same_hooks_spread opts : same_hooks (spread defaultOptions opts) opts.
Proof.
  unfold same_hooks, spread. simpl.
  by destruct (opt_onBeforeSet opts), (opt_onSet opts), (opt_onGet opts).
Qed.

Lemma same_hooks_trans o1 o2 o3 :
  same_hooks o1 o2 → same_hooks o2 o3 → same_hooks o1 o3.
Proof. intros (? & ? & ?) (? & ? & ?). split_and!; congruence. Qed.

Lemma hooked_from H h h' :
  (∀ l t o, h' !! l = Some (CProxy t o) → h !! l = Some (CProxy t o)) →
  hooked H h → hooked H h'.
Proof. intros Hold Hh l t o Hl. eapply Hh. by apply Hold. Qed.

(** Writes and calls of [observed] build proxies that carry the hooks of
    the proxy written through, or of the options given. *)
Lemma set_observed_hooked H n :
  (∀ o k v r s b s1,
      hooked H (st_heap s) →
      Reflect_set_ (run n) o k v r s = Ok b s1 →
      hooked H (st_heap s1)) ∧
  (∀ o opts s p s1,
      hooked H (st_heap s) → same_hooks opts H →
      observed_ (run n) o opts s = Ok p s1 →
      hooked H (st_heap s1)).
Proof.
  induction n as [|n [IHset IHobs]]; [done|].
  assert (∀ v opts s v' s1,
    hooked H (st_heap s) → same_hooks opts H →
    mayObserve (run n) v opts s = Ok v' s1 → hooked H (st_heap s1)) as Hmay.
  { intros v opts s v' s1 Hh Ho Hm. destruct v; simpl in Hm; try (by inv_step Hm).
    inv_bind Hm as p s2 Hrun. inv_step Hm. eapply IHobs; [done| |done].
    by destruct Ho as (? & ? & ?). }
  split.
  - intros o k v r s b s1 Hh H0. simpl in H0. unfold Reflect_set in H0.
    inv_bind H0 as c s' Hc. inv_step Hc. destruct c as [ps|items|t opts]; [| done |].
    + inv_bind H0 as u1 s2 Hw. inv_step Hw. inv_bind H0 as u2 s3 Hl. inv_step Hl.
      inv_step H0. simpl. eapply hooked_from; [|done].
      intros l t o' Hl. destruct (decide (l = o)) as [->|Hne].
      * rewrite list_lookup_insert_eq in Hl by (by eapply lookup_lt_Some). done.
      * by rewrite list_lookup_insert_ne in Hl.
    + unfold set_trap in H0.
      inv_bind H0 as old s2 Hg. apply Reflect_get_inv in Hg as (_ & _ & _ & _ & _ & Hh2).
      inv_bind H0 as v1 s3 Hm. apply Hmay in Hm; [|by rewrite Hh2|by eapply Hh].
      inv_bind H0 as v2 s4 Hgb.
      assert (st_heap s4 = st_heap s3) as Hh4.
      { destruct (opt_onBeforeSet opts); [|by inv_step Hgb].
        by apply call_Ok in Hgb as [_ ->]. }
      inv_bind H0 as obs s5 Hgo. unfold getObservers in Hgo.
      apply Reflect_get_inv in Hgo as (_ & _ & _ & _ & _ & Hh5).
      inv_bind H0 as items s6 Hi. apply array_items_Ok in Hi as ->.
      inv_bind H0 as v3 s7 Hb. apply inform_before_heap in Hb.
      inv_bind H0 as b1 s8 Hs. apply IHset in Hs; [|by rewrite Hb, Hh5, Hh4].
      inv_bind H0 as items2 s9 Hi. apply array_items_Ok in Hi as ->.
      inv_bind H0 as u3 s10 Ha. apply inform_after_heap in Ha.
      inv_bind H0 as u4 s11 Hga. inv_step H0.
      assert (st_heap s1 = st_heap s10) as ->.
      { destruct (opt_onSet opts); [|by inv_step Hga].
        inv_bind Hga as r' s12 Hcall. apply call_Ok in Hcall as [_ ->]. by inv_step Hga. }
      by rewrite Ha.
  - intros o opts s p s1 Hh Ho H0. simpl in H0. unfold observed in H0.
    assert (same_hooks (spread defaultOptions opts) H) as Ho'.
    { eapply same_hooks_trans; [apply same_hooks_spread|done]. }
    inv_bind H0 as u1 s2 Hinit. apply initCallbackArray_steps in Hinit as [_ Hinit].
    inv_bind H0 as keys s3 Hk. apply Object_keys_inv in Hk as (_ & _ & _ & _ & _ & ->).
    inv_bind H0 as u2 s4 Hloop.
    apply (for_each_inv_state (λ s', hooked H (st_heap s'))) in Hloop;
      [| |by eapply hooked_from].
    2:{ intros key sa u sb _ Hha Hbody.
        inv_bind Hbody as v sc Hg. apply Reflect_get_inv in Hg as (_ & _ & _ & _ & _ & Hhc).
        inv_bind Hbody as v' sd Hm. apply Hmay in Hm; [|by rewrite Hhc|done].
        inv_bind Hbody as b1 se Hs. inv_step Hbody. by eapply IHset. }
    inv_bind H0 as marked s5 Hobs. unfold isObserved in Hobs.
    inv_bind Hobs as v s6 Hg. inv_step Hobs.
    apply Reflect_get_inv in Hg as (b' & ps' & Hb' & Hps' & -> & Hh6).
    destruct (truthy (lookup_prop ps' (PSym observedSymbol))).
    + inv_step H0. by rewrite Hh6.
    + inv_bind H0 as proxy s7 Ha. inv_step Ha. inv_bind H0 as u3 s8 Hd. inv_step H0.
      unfold defineProp in Hd. apply define_steps in Hd as [_ Hd]. cbn [st_heap] in Hd.
      rewrite Hh6 in *. intros l t o' Hl. apply Hd in Hl.
      apply lookup_app_Some in Hl as [Hl|[_ Hl]]; [by eapply Hloop|].
      destruct (l - length (st_heap s4)) as [|i]; simpl in Hl; [|done].
      by simplify_eq.
Qed.

(** X13 (the global hooks reach every depth).  When every proxy of the
    store carries the three hooks of [opts], as on a store without
    proxies, every proxy of the store after [observed(x, opts)] carries
    them, those built for nested objects included, and so does every
    proxy built afterwards by a write, under any key, through any
    reference. *)
Theorem hooks_reach_every_proxy n x opts s p s1 :
  hooked opts (st_heap s) →
  observed (run n) x opts s = Ok p s1 →
  hooked opts (st_heap s1) ∧
  (∀ m o k v r b s2,
     Reflect_set_ (run m) o k v r s1 = Ok b s2 → hooked opts (st_heap s2)).
Proof.
  intros Hh Hrun.
  assert (hooked opts (st_heap s1)) as Hh1.
  { apply (proj2 (set_observed_hooked opts (S n)) x opts s p s1); [done| |done].
    by split_and!. }
  split; [done|]. intros m o k v r b s2 Hset.
  by apply (proj1 (set_observed_hooked opts m) o k v r s1 b s2).
Qed.

(** ** What [observed] returns, and what a write stores *)

(** X14 ([isObserved] of the result).  [isObserved] applied to what
    [observed] returned for an ordinary object answers [true]; through a
    new proxy the read of the marker goes to the object, runs the [onGet]
    hook once, and changes nothing in the store. *)
Theorem result_is_observed n m x ps opts s p s1 :
  st_heap s !! x = Some (CObj ps) →
  observed (run n) x opts s = Ok p s1 →
  (∀ f, opt_onGet opts = Some f →
        is_Some (callback f (PSym observedSymbol) (VBool true) (VRef x) (VRef p))) →
  ∃ s2,
    isObserved (run (S (S m))) p s1 = Ok true s2 ∧
    st_heap s2 = st_heap s1 ∧
    st_trace s2 = st_trace s1 ++
      (if decide (p = x) then []
       else read_events (opt_onGet opts) (PSym observedSymbol) (VBool true) x p).
Proof.
  intros Hx Hrun Hhook.
  apply observed_inv in Hrun as (hl & b & psl & Hpres & Hb & Hpsl & Hcase).
  destruct (pres_obj _ _ Hpres _ _ Hx) as (psx & Hxl & _).
  assert (b = x) as -> by (by eapply base_of_CObj). simplify_eq.
  assert (x < length hl) as Hlt by (by eapply lookup_lt_Some).
  unfold isObserved.
  destruct Hcase as [(Hm & -> & Hheap)|(Hm & -> & Hheap)].
  - exists s1. rewrite decide_True by done. rewrite app_nil_r.
    split; [|done]. simpl Reflect_get_.
    erewrite bind_Ok; [|apply Reflect_get_obj; by rewrite Hheap]. by rewrite Hm.
  - eexists. rewrite decide_False by lia. split.
    + erewrite bind_Ok; last first.
      { apply (node_read m (length hl) x (opt_onGet opts)
                 (update_prop psl (PSym observedSymbol) (VBool true))).
        - rewrite Hheap.
          replace (opt_onGet opts) with (opt_onGet (spread defaultOptions opts))
            by (simpl; by destruct (opt_onGet opts)).
          econstructor.
          + rewrite list_lookup_insert_ne by lia. by apply list_lookup_middle.
          + apply list_lookup_insert_eq. rewrite length_app. lia.
        - rewrite Hheap. apply list_lookup_insert_eq. rewrite length_app. lia.
        - intros f Hf. rewrite lookup_update_eq. by apply Hhook. }
      rewrite lookup_update_eq. reflexivity.
    + done.
Qed.


(** ** The [deep] option *)

Lemma same_but_deep_refl s : same_but_deep s s.
Proof. done. Qed.

Lemma same_but_deep_clear s : same_but_deep s (clear_deep s).
Proof.
  unfold same_but_deep, clear_deep. simpl. f_equal.
  rewrite <-list_fmap_compose. apply list_fmap_ext. intros _ c _. by destruct c.
Qed.

Lemma same_but_deep_lookup s s' l :
  same_but_deep s s' →
  forget_deep <$> (st_heap s !! l) = forget_deep <$> (st_heap s' !! l).
Proof.
  intros H. rewrite <-!list_lookup_fmap.
  apply (f_equal st_heap) in H. simpl in H. by rewrite H.
Qed.

Lemma same_but_deep_trace s s' : same_but_deep s s' → st_trace s = st_trace s'.
Proof. intros H. by apply (f_equal st_trace) in H. Qed.

Lemma same_but_deep_length s s' :
  same_but_deep s s' → length (st_heap s) = length (st_heap s').
Proof.
  intros H. apply (f_equal st_heap) in H. simpl in H.
  by rewrite <-(length_fmap forget_deep (st_heap s)), H, length_fmap.
Qed.

Lemma forget_deep_cases c c' :
  forget_deep c = forget_deep c' →
  match c, c' with
  | CObj ps, CObj ps' => ps = ps'
  | CArr items, CArr items' => items = items'
  | CProxy t o, CProxy t' o' => t = t' ∧ same_hooks o o'
  | _, _ => False
  end.
Proof.
  destruct c, c'; simpl; intros H; simplify_eq; done.
Qed.

Lemma same_hooks_forget t o o' :
  same_hooks o o' → forget_deep (CProxy t o) = forget_deep (CProxy t o').
Proof. intros (Hb & Hs & Hg). simpl. unfold with_deep. by rewrite Hb, Hs, Hg. Qed.

Lemma alike_ret {A} (R : A → A → Prop) a a' s s' :
  R a a' → same_but_deep s s' → alike_with R (ret a s) (ret a' s').
Proof. by split. Qed.

Lemma alike_bind {A B} (RA : A → A → Prop) (RB : B → B → Prop)
    (m m' : M A) (k k' : A → M B) s s' :
  alike_with RA (m s) (m' s') →
  (∀ a a' s1 s1', RA a a' → same_but_deep s1 s1' →
                  alike_with RB (k a s1) (k' a' s1')) →
  alike_with RB (bind m k s) (bind m' k' s').
Proof.
  unfold bind. intros Hm Hk.
  destruct (m s) as [a s1|e s1| |], (m' s') as [a' s1'|e' s1'| |]; simpl in Hm; try done.
  by destruct Hm; apply Hk.
Qed.

Lemma alike_read_cell l s s' :
  same_but_deep s s' →
  alike_with (λ c c', forget_deep c = forget_deep c') (read_cell l s) (read_cell l s').
Proof.
  intros H. pose proof (same_but_deep_lookup _ _ l H) as Hl. unfold read_cell.
  destruct (st_heap s !! l), (st_heap s' !! l); simpl in *; by simplify_eq.
Qed.

Lemma alike_write_cell l c c' s s' :
  forget_deep c = forget_deep c' → same_but_deep s s' →
  alike (write_cell l c s) (write_cell l c' s').
Proof.
  intros Hc H. split; [done|]. unfold same_but_deep, clear_deep. simpl.
  rewrite !list_fmap_insert, Hc.
  apply (f_equal st_heap) in H as Hh. simpl in Hh. rewrite Hh.
  by rewrite (same_but_deep_trace _ _ H).
Qed.

Lemma alike_alloc c c' s s' :
  forget_deep c = forget_deep c' → same_but_deep s s' →
  alike (alloc c s) (alloc c' s').
Proof.
  intros Hc H. split; [by apply same_but_deep_length|].
  unfold same_but_deep, clear_deep. simpl. rewrite !fmap_app. simpl. rewrite Hc.
  apply (f_equal st_heap) in H as Hh. simpl in Hh. rewrite Hh.
  by rewrite (same_but_deep_trace _ _ H).
Qed.

Lemma alike_log e s s' : same_but_deep s s' → alike (log e s) (log e s').
Proof.
  intros H. split; [done|]. unfold same_but_deep, clear_deep. simpl.
  apply (f_equal st_heap) in H as Hh. simpl in Hh. rewrite Hh.
  by rewrite (same_but_deep_trace _ _ H).
Qed.

Lemma alike_call f k a1 a2 a3 s s' :
  same_but_deep s s' → alike (call f k a1 a2 a3 s) (call f k a1 a2 a3 s').
Proof.
  intros H. unfold call. eapply alike_bind; [by apply alike_log|].
  intros _ _ s1 s1' _ H1. by destruct (callback f k a1 a2 a3).
Qed.

Lemma alike_for_each {A} (body body' : A → M unit) xs s s' :
  (∀ x s s', same_but_deep s s' → alike (body x s) (body' x s')) →
  same_but_deep s s' →
  alike (for_each body xs s) (for_each body' xs s').
Proof.
  intros Hbody. revert s s'. induction xs as [|x xs IH]; intros s s' H; simpl.
  - by apply alike_ret.
  - eapply alike_bind; [by apply Hbody|]. intros _ _ s1 s1' _ H1. by apply IH.
Qed.

Lemma alike_array_items v s s' :
  same_but_deep s s' → alike (array_items v s) (array_items v s').
Proof.
  intros H. destruct v; simpl; try done.
  eapply alike_bind; [by apply alike_read_cell|].
  intros c c' s1 s1' Hc H1. apply forget_deep_cases in Hc.
  destruct c, c'; try done; subst; by apply alike_ret.
Qed.

Lemma alike_inform_before items k v old r s s' :
  same_but_deep s s' →
  alike (inform_before items k v old r s) (inform_before items k v old r s').
Proof.
  revert v s s'. induction items as [|[f ph] items IH]; intros v s s' H; simpl.
  - by apply alike_ret.
  - eapply alike_bind.
    + destruct ph; simpl; [by apply alike_call|by apply alike_ret].
    + intros v1 ? s1 s1' <- H1. by apply IH.
Qed.

Lemma alike_inform_after items k v old r s s' :
  same_but_deep s s' →
  alike (inform_after items k v old r s) (inform_after items k v old r s').
Proof.
  intros H. apply alike_for_each; [|done].
  intros [f ph] s0 s0' H0. destruct ph; simpl; [by apply alike_ret|].
  eapply alike_bind; [by apply alike_call|].
  intros ? ? s1 s1' _ H1. by apply alike_ret.
Qed.

Section DeepBlind.

Variable rec : internals.
Hypothesis Hrec : deep_blind rec.

Lemma alike_Reflect_get_ o k r s s' :
  same_but_deep s s' → alike (Reflect_get_ rec o k r s) (Reflect_get_ rec o k r s').
Proof using Hrec. apply Hrec. Qed.

Lemma alike_Reflect_set_ o k v r s s' :
  same_but_deep s s' → alike (Reflect_set_ rec o k v r s) (Reflect_set_ rec o k v r s').
Proof using Hrec. apply Hrec. Qed.

Lemma alike_defineProp o y v s s' :
  same_but_deep s s' → alike (defineProp rec o y v s) (defineProp rec o y v s').
Proof using Hrec. apply Hrec. Qed.

Lemma alike_mayObserve v opts opts' s s' :
  same_hooks opts opts' → same_but_deep s s' →
  alike (mayObserve rec v opts s) (mayObserve rec v opts' s').
Proof using Hrec.
  intros Ho H. destruct v; simpl; try by apply alike_ret.
  eapply alike_bind.
  - apply Hrec; [|done]. by destruct Ho as (? & ? & ?).
  - intros p ? s1 s1' <- H1. by apply alike_ret.
Qed.

Lemma alike_get_trap t opts opts' k r s s' :
  same_hooks opts opts' → same_but_deep s s' →
  alike (get_trap rec t opts k r s) (get_trap rec t opts' k r s').
Proof using Hrec.
  intros (_ & _ & Hg) H. unfold get_trap. rewrite Hg.
  eapply alike_bind; [by apply alike_Reflect_get_|].
  intros v ? s1 s1' <- H1. eapply (alike_bind eq).
  - destruct (opt_onGet opts'); [|by apply alike_ret].
    eapply alike_bind; [by apply alike_call|].
    intros ? ? s2 s2' _ H2. by apply alike_ret.
  - intros ? ? s2 s2' _ H2. by apply alike_ret.
Qed.

Lemma alike_set_trap t opts opts' k v r s s' :
  same_hooks opts opts' → same_but_deep s s' →
  alike (set_trap rec t opts k v r s) (set_trap rec t opts' k v r s').
Proof using Hrec.
  intros Ho H. pose proof Ho as (Hb & Hs & _). unfold set_trap. rewrite Hb, Hs.
  eapply alike_bind; [by apply alike_Reflect_get_|].
  intros old ? s1 s1' <- H1.
  eapply alike_bind; [by apply alike_mayObserve|].
  intros v1 ? s2 s2' <- H2.
  eapply alike_bind.
  { destruct (opt_onBeforeSet opts'); [by apply alike_call|by apply alike_ret]. }
  intros v2 ? s3 s3' <- H3.
  eapply alike_bind; [by apply alike_Reflect_get_|].
  intros obs ? s4 s4' <- H4.
  eapply alike_bind; [by apply alike_array_items|].
  intros items ? s5 s5' <- H5.
  eapply alike_bind; [by apply alike_inform_before|].
  intros v3 ? s6 s6' <- H6.
  eapply alike_bind; [by apply alike_Reflect_set_|].
  intros b ? s7 s7' <- H7.
  eapply alike_bind; [by apply alike_array_items|].
  intros items2 ? s8 s8' <- H8.
  eapply alike_bind; [by apply alike_inform_after|].
  intros ? ? s9 s9' _ H9.
  eapply (alike_bind eq).
  { destruct (opt_onSet opts'); [|by apply alike_ret].
    eapply alike_bind; [by apply alike_call|].
    intros ? ? s10 s10' _ H10. by apply alike_ret. }
  intros ? ? s10 s10' _ H10. by apply alike_ret.
Qed.

Lemma alike_initCallbackArray o s s' :
  same_but_deep s s' →
  alike (initCallbackArray rec o s) (initCallbackArray rec o s').
Proof using Hrec.
  intros H. unfold initCallbackArray.
  eapply alike_bind; [by apply alike_Reflect_get_|].
  intros v ? s1 s1' <- H1. destruct (negb (truthy v)); [|by apply alike_ret].
  eapply alike_bind; [by apply alike_alloc|].
  intros a ? s2 s2' <- H2. by apply alike_defineProp.
Qed.

Lemma deep_blind_step : deep_blind (step rec).
Proof using Hrec.
  split_and!; simpl.
  - intros o k r s s' H. unfold Reflect_get.
    eapply alike_bind; [by apply alike_read_cell|].
    intros c c' s1 s1' Hc H1. apply forget_deep_cases in Hc.
    destruct c, c'; try done; [subst; by apply alike_ret|].
    destruct Hc as [-> Ho]. by apply alike_get_trap.
  - intros o k v r s s' H. unfold Reflect_set.
    eapply alike_bind; [by apply alike_read_cell|].
    intros c c' s1 s1' Hc H1. apply forget_deep_cases in Hc.
    destruct c, c'; try done.
    + subst. eapply (alike_bind eq); [by apply alike_write_cell|].
      intros ? ? s2 s2' _ H2. eapply (alike_bind eq); [by apply alike_log|].
      intros ? ? s3 s3' _ H3. by apply alike_ret.
    + destruct Hc as [-> Ho]. by apply alike_set_trap.
  - intros o s s' H. unfold Object_keys.
    eapply alike_bind; [by apply alike_read_cell|].
    intros c c' s1 s1' Hc H1. apply forget_deep_cases in Hc.
    destruct c, c'; try done; [subst; by apply alike_ret|].
    destruct Hc as [-> Ho]. by apply Hrec.
  - intros o y v s s' H. unfold Object_defineProperty.
    eapply alike_bind; [by apply alike_read_cell|].
    intros c c' s1 s1' Hc H1. apply forget_deep_cases in Hc.
    destruct c, c'; try done.
    + subst. by apply alike_write_cell.
    + destruct Hc as [-> Ho]. by apply Hrec.
  - intros o opts opts' s s' Ho H. unfold observed.
    assert (same_hooks (spread defaultOptions opts) (spread defaultOptions opts')) as Ho'.
    { destruct Ho as (Hb & Hs & Hg). unfold same_hooks, spread. simpl.
      by rewrite Hb, Hs, Hg. }
    eapply (alike_bind eq); [by apply alike_initCallbackArray|].
    intros ? ? s1 s1' _ H1.
    eapply alike_bind; [by apply Hrec|].
    intros keys ? s2 s2' <- H2.
    eapply (alike_bind eq).
    { apply alike_for_each; [|done]. intros key sa sa' Ha.
      eapply alike_bind; [by apply alike_Reflect_get_|].
      intros v ? sb sb' <- Hb.
      eapply alike_bind; [by apply alike_mayObserve|].
      intros v' ? sc sc' <- Hc.
      eapply alike_bind; [by apply alike_Reflect_set_|].
      intros ? ? sd sd' _ Hd. by apply alike_ret. }
    intros ? ? s3 s3' _ H3.
    eapply (alike_bind eq).
    { unfold isObserved. eapply alike_bind; [by apply alike_Reflect_get_|].
      intros v ? s4 s4' <- H4. by apply alike_ret. }
    intros marked ? s4 s4' <- H4.
    destruct marked; [by apply alike_ret|].
    eapply alike_bind; [apply alike_alloc; [by apply same_hooks_forget|done]|].
    intros proxy ? s5 s5' <- H5.
    eapply (alike_bind eq); [by apply alike_defineProp|].
    intros ? ? s6 s6' _ H6. by apply alike_ret.
Qed.

End DeepBlind.

Lemma deep_blind_run n : deep_blind (run n).
Proof.
  induction n as [|n IH]; [by split_and!|]. simpl. by apply deep_blind_step.
Qed.

(** X16 (the [deep] option is never read).  Two runs of [observed] that
    differ only in the [deep] option given, and in the [deep] options of
    the proxies of the store, have the same kind of outcome, return the
    same reference or throw the same exception, make the same callback
    calls and writes in the same order, and leave stores that differ
    again in [deep] options only; the same holds of a write and of a read
    through any reference. *)
Theorem deep_is_never_read n x opts d s :
  alike (observed (run n) x (with_deep opts d) s)
        (observed (run n) x opts (clear_deep s)) ∧
  (∀ k v r, alike (Reflect_set (run n) x k v r s)
                  (Reflect_set (run n) x k v r (clear_deep s))) ∧
  (∀ k r, alike (Reflect_get (run n) x k r s)
                (Reflect_get (run n) x k r (clear_deep s))).
Proof.
  destruct (deep_blind_step _ (deep_blind_run n)) as (Hget & Hset & _ & _ & Hobs).
  split_and!.
  - apply Hobs; [by split_and!|apply same_but_deep_clear].
  - intros k v r. apply Hset, same_but_deep_clear.
  - intros k r. apply Hget, same_but_deep_clear.
Qed.

(** ** Every depth is marked *)

Lemma lookup_prop_absent ps k :
  k ∉ string_keys ps → lookup_prop ps (PStr k) = VUndefined.
Proof.
  induction ps as [|[k0 v0] ps IH]; simpl; [done|].
  destruct (decide (k0 = PStr k)) as [->|Hne]; simpl.
  - intros H. exfalso. apply H. by left.
  - destruct k0 as [k0|y]; simpl; intros H; apply IH; [|done].
    intros Hin. apply H. by right.
Qed.

Lemma marked_value_pres h h' v : pres h h' → marked_value h v → marked_value h' v.
Proof. intros Hp Hv c Hc. eapply marked_pres; [done|]. by apply Hv. Qed.

Lemma observed__marked n o opts s p s1 :
  observed_ (run n) o opts s = Ok p s1 → marked (st_heap s1) p.
Proof. destruct n as [|n]; [done|]. apply observed_marked. Qed.

Lemma mayObserve_marked n v opts s v1 s1 :
  mayObserve (run n) v opts s = Ok v1 s1 → marked_value (st_heap s1) v1.
Proof.
  intros H. destruct v; simpl in H; try (inv_step H; by intros ? [=]).
  inv_bind H as p s2 Hrun. inv_step H. intros c [= <-]. by eapply observed__marked.
Qed.

Lemma covered_step h h' :
  pres h h' → covered h →
  (∀ l ps' k, h' !! l = Some (CObj ps') →
     truthy (lookup_prop ps' (PSym observedSymbol)) = true →
     (∃ ps, h !! l = Some (CObj ps) ∧
            truthy (lookup_prop ps (PSym observedSymbol)) = true ∧
            lookup_prop ps' (PStr k) = lookup_prop ps (PStr k)) ∨
     marked_value h' (lookup_prop ps' (PStr k))) →
  covered h'.
Proof.
  intros Hp Hc Hstep l ps' k Hl Hm.
  destruct (Hstep l ps' k Hl Hm) as [(ps & Hl0 & Hm0 & ->)|?]; [|done].
  eapply marked_value_pres; [done|]. by eapply Hc.
Qed.

Lemma written_marked_refl h : written_marked h h.
Proof. intros l ps ps' k Hl Hl'. left. congruence. Qed.

Lemma written_marked_trans h1 h2 h3 :
  pres h1 h2 → pres h2 h3 →
  written_marked h1 h2 → written_marked h2 h3 → written_marked h1 h3.
Proof.
  intros Hp12 Hp23 H12 H23 l ps1 ps3 k Hl1 Hl3.
  destruct (pres_obj _ _ Hp12 _ _ Hl1) as (ps2 & Hl2 & _).
  destruct (H23 l ps2 ps3 k Hl2 Hl3) as [->|?]; [|by right].
  destruct (H12 l ps1 ps2 k Hl1 Hl2) as [->|?]; [by left|right].
  by eapply marked_value_pres.
Qed.

(** A step that adds a cell, or defines a symbol-keyed property. *)
Lemma covered_app h c :
  pres h (h ++ [c]) → (∀ ps, c ≠ CObj ps) → covered h →
  covered (h ++ [c]) ∧ written_marked h (h ++ [c]).
Proof.
  intros Hp Hc Hcov. split.
  - apply (covered_step h); [done|done|]. intros l ps' k Hl Hm. left.
    apply lookup_app_Some in Hl as [Hl|[_ Hl]]; [by eauto|].
    destruct (l - length h) as [|i]; simpl in Hl; [|done].
    simplify_eq. by destruct (Hc ps').
  - intros l ps ps' k Hl Hl'. left.
    rewrite (lookup_app_l_Some _ _ _ _ Hl) in Hl'. congruence.
Qed.

Lemma covered_define h b ps y v :
  h !! b = Some (CObj ps) →
  pres h (<[b := CObj (update_prop ps (PSym y) v)]> h) →
  (y = observedSymbol → ∀ k, marked_value h (lookup_prop ps (PStr k))) →
  covered h →
  covered (<[b := CObj (update_prop ps (PSym y) v)]> h) ∧
  written_marked h (<[b := CObj (update_prop ps (PSym y) v)]> h).
Proof.
  intros Hb Hp Hy Hcov.
  assert (b < length h) as Hlt by (by eapply lookup_lt_Some).
  split.
  - apply (covered_step h); [done|done|]. intros l ps' k Hl Hm.
    destruct (decide (l = b)) as [->|Hne].
    + rewrite list_lookup_insert_eq in Hl by done. simplify_eq.
      rewrite lookup_update_ne by done.
      destruct (decide (y = observedSymbol)) as [->|Hsym].
      * right. eapply marked_value_pres; [done|]. by apply Hy.
      * left. exists ps. rewrite lookup_update_ne in Hm by congruence. done.
    + rewrite list_lookup_insert_ne in Hl by done. left. eauto.
  - intros l ps0 ps' k Hl Hl'. left. destruct (decide (l = b)) as [->|Hne].
    + rewrite list_lookup_insert_eq in Hl' by done. simplify_eq.
      by apply lookup_update_ne.
    + rewrite list_lookup_insert_ne in Hl' by done. congruence.
Qed.

Lemma initCallbackArray_covered n o s u s1 :
  covered (st_heap s) →
  initCallbackArray (run n) o s = Ok u s1 →
  covered (st_heap s1) ∧ written_marked (st_heap s) (st_heap s1).
Proof.
  intros Hcov H. unfold initCallbackArray in H. inv_bind H as v s2 Hg.
  apply Reflect_get_inv in Hg as (b & ps & Hb & Hps & -> & Hh).
  destruct (truthy (lookup_prop ps (PSym observedCallbacksSymbol))) eqn:Ht; simpl in H.
  - inv_step H. rewrite Hh. split; [done|apply written_marked_refl].
  - inv_bind H as a s3 Ha. inv_step Ha. unfold defineProp in H.
    apply Object_defineProperty_inv in H as (b' & ps' & Hb' & Hps' & ->). simpl in *.
    rewrite Hh in *.
    assert (b' = b) as ->.
    { eapply base_of_fun; [done|]. eapply pres_base_of; [apply pres_alloc_arr|done]. }
    rewrite lookup_app_l in Hps' by (by eapply lookup_lt_Some). simplify_eq.
    destruct (covered_app (st_heap s) (CArr [])) as [Hcov1 Hw1];
      [apply pres_alloc_arr|done|done|].
    assert (pres (st_heap s ++ [CArr []])
              (<[b := CObj (update_prop ps (PSym observedCallbacksSymbol)
                              (VRef (length (st_heap s))))]> (st_heap s ++ [CArr []])))
      as Hp2.
    { apply pres_update; [by apply lookup_app_l_Some|]. by intros y [= <-]. }
    destruct (covered_define (st_heap s ++ [CArr []]) b ps observedCallbacksSymbol
                (VRef (length (st_heap s)))) as [Hcov2 Hw2];
      [by apply lookup_app_l_Some|done|done|done|].
    split; [done|].
    by apply (written_marked_trans _ (st_heap s ++ [CArr []])); [apply pres_alloc_arr|..].
Qed.

Lemma inform_before_no_injection items k v old r s v' s1 :
  no_injection →
  inform_before items k v old r s = Ok v' s1 → v' = v ∨ ∀ l, v' ≠ VRef l.
Proof.
  intros Hni. revert v s. induction items as [|[f ph] items IH]; intros v s H; simpl in H.
  - inv_step H. by left.
  - inv_bind H as v1 s2 Hc. apply IH in H.
    destruct ph; simpl in Hc; [|by inv_step Hc].
    apply call_Ok in Hc as [Hc _]. apply Hni in Hc.
    destruct H as [->|?]; [done|by right].
Qed.

Lemma for_each_settled {A} (Inv : state → Prop) (P : A → state → Prop)
    (body : A → M unit) xs :
  (∀ x s u s1, x ∈ xs → Inv s → body x s = Ok u s1 →
               Inv s1 ∧ P x s1 ∧ ∀ y, P y s → P y s1) →
  ∀ s u s1, Inv s → for_each body xs s = Ok u s1 →
            Inv s1 ∧ (∀ x, x ∈ xs → P x s1) ∧ (∀ y, P y s → P y s1).
Proof.
  induction xs as [|x xs IH]; intros Hbody s u s1 Hs H; simpl in H.
  - inv_step H. split_and!; [done| |done]. by intros x ?%elem_of_nil.
  - inv_bind H as u' s2 Hx.
    destruct (Hbody x s u' s2) as (Hs2 & Hx2 & Hst2); [by left|done|done|].
    destruct (IH (λ y s0 u0 s3 Hy, Hbody y s0 u0 s3 (list_elem_of_further _ _ _ Hy))
                 s2 u s1 Hs2 H) as (Hs1 & Hxs & Hst).
    split_and!; [done| |by eauto].
    intros y [->|Hy]%elem_of_cons; [by apply Hst|by apply Hxs].
Qed.

(** Writes and calls of [observed] store marked values only, and mark an
    object only when all it holds under string keys is marked. *)
Lemma set_observed_covered n :
  no_injection →
  (∀ o k v r s b s1,
      covered (st_heap s) →
      (∀ ps, st_heap s !! o = Some (CObj ps) → marked_value (st_heap s) v) →
      Reflect_set_ (run n) o (PStr k) v r s = Ok b s1 →
      covered (st_heap s1) ∧ written_marked (st_heap s) (st_heap s1) ∧
      ∀ bo ps1, base_of (st_heap s1) o bo → st_heap s1 !! bo = Some (CObj ps1) →
                marked_value (st_heap s1) (lookup_prop ps1 (PStr k))) ∧
  (∀ o opts s p s1,
      covered (st_heap s) →
      observed_ (run n) o opts s = Ok p s1 →
      covered (st_heap s1) ∧ written_marked (st_heap s) (st_heap s1)).
Proof.
  intros Hni. induction n as [|n [IHset IHobs]]; [done|].
  assert (∀ v opts s v' s1,
    covered (st_heap s) →
    mayObserve (run n) v opts s = Ok v' s1 →
    covered (st_heap s1) ∧ written_marked (st_heap s) (st_heap s1)) as Hmay.
  { intros v opts s v' s1 Hcov H.
    destruct v; simpl in H;
      try (inv_step H; split; [done|apply written_marked_refl]).
    inv_bind H as p s2 Ho. inv_step H. eauto. }
  split.
  - intros o k v r s b s1 Hcov Hv H.
    pose proof (proj1 (set_observed_pres (S n)) _ _ _ _ _ _ _ H) as Hpres.
    simpl in H. unfold Reflect_set in H.
    inv_bind H as c s' Hc. inv_step Hc. destruct c as [ps|items|t opts]; [| done |].
    + inv_bind H as u1 s2 Hw. inv_step Hw. inv_bind H as u2 s3 Hl. inv_step Hl.
      inv_step H. simpl in *.
      assert (o < length (st_heap s)) as Hlt by (by eapply lookup_lt_Some).
      assert (marked_value (<[o := CObj (update_prop ps (PStr k) v)]> (st_heap s)) v)
        as Hv' by (eapply marked_value_pres; eauto).
      split_and!.
      * apply (covered_step (st_heap s)); [done|done|]. intros l ps' k' Hl Hm.
        destruct (decide (l = o)) as [->|Hne].
        -- rewrite list_lookup_insert_eq in Hl by done. simplify_eq.
           destruct (decide (k' = k)) as [->|Hk].
           ++ right. by rewrite lookup_update_eq.
           ++ left. exists ps. rewrite lookup_update_ne in Hm by done.
              split_and!; [done|done|]. apply lookup_update_ne. congruence.
        -- rewrite list_lookup_insert_ne in Hl by done. left. eauto.
      * intros l ps0 ps' k' Hl Hl'. destruct (decide (l = o)) as [->|Hne].
        -- rewrite list_lookup_insert_eq in Hl' by done. simplify_eq.
           destruct (decide (k' = k)) as [->|Hk].
           ++ right. by rewrite lookup_update_eq.
           ++ left. apply lookup_update_ne. congruence.
        -- rewrite list_lookup_insert_ne in Hl' by done. left. congruence.
      * intros bo ps1 Hbo Hps1.
        assert (bo = o) as ->.
        { eapply base_of_CObj; [|done]. by apply list_lookup_insert_eq. }
        rewrite list_lookup_insert_eq in Hps1 by done. simplify_eq.
        by rewrite lookup_update_eq.
    + unfold set_trap in H.
      inv_bind H as old s2 Hg. apply Reflect_get_inv in Hg as (_ & _ & _ & _ & _ & Hh2).
      inv_bind H as v1 s3 Hm.
      pose proof (mayObserve_pres _ _ _ _ _ _ Hm) as Hp3.
      pose proof (mayObserve_marked _ _ _ _ _ _ Hm) as Hv1.
      apply Hmay in Hm as [Hcov3 Hw3]; [|by rewrite Hh2].
      rewrite Hh2 in *.
      inv_bind H as v2 s4 Hgb.
      assert (st_heap s4 = st_heap s3 ∧ (v2 = v1 ∨ ∀ l, v2 ≠ VRef l)) as [Hh4 Hv2].
      { destruct (opt_onBeforeSet opts); [|inv_step Hgb; by eauto].
        apply call_Ok in Hgb as [Hcb ->]. apply Hni in Hcb. by eauto. }
      inv_bind H as obs s5 Hgo. unfold getObservers in Hgo.
      apply Reflect_get_inv in Hgo as (_ & _ & _ & _ & _ & Hh5).
      inv_bind H as items s6 Hi. apply array_items_Ok in Hi as ->.
      inv_bind H as v3 s7 Hb.
      pose proof (inform_before_no_injection _ _ _ _ _ _ _ _ Hni Hb) as Hv3.
      apply inform_before_heap in Hb.
      assert (st_heap s7 = st_heap s3) as Hh7 by congruence.
      assert (marked_value (st_heap s3) v3) as Hmv3.
      { intros c' Hc3. destruct Hv3 as [E3|Hv3]; [|by destruct (Hv3 c')].
        destruct Hv2 as [E2|Hv2]; [|subst; by destruct (Hv2 c')].
        subst. by apply Hv1. }
      inv_bind H as b1 s8 Hs.
      pose proof (proj1 (set_observed_pres n) _ _ _ _ _ _ _ Hs) as Hp8.
      apply IHset in Hs as (Hcov8 & Hw8 & Hk8); [|by rewrite Hh7|by rewrite Hh7].
      rewrite Hh7 in *.
      inv_bind H as items2 s9 Hi. apply array_items_Ok in Hi as ->.
      inv_bind H as u3 s10 Ha. apply inform_after_heap in Ha.
      inv_bind H as u4 s11 Hga. inv_step H.
      assert (st_heap s1 = st_heap s10) as Hh1.
      { destruct (opt_onSet opts); [|by inv_step Hga].
        inv_bind Hga as r' s12 Hcall. apply call_Ok in Hcall as [_ ->]. by inv_step Hga. }
      rewrite Hh1, Ha in *. split_and!; [done| |].
      * by apply (written_marked_trans _ (st_heap s3)).
      * intros bo ps1 Hbo Hps1. eapply Hk8; [|done].
        eapply base_of_target; [|done].
        eapply pres_proxy; [|done]. by eapply pres_trans.
  - intros o opts s p s1 Hcov H. simpl in H. unfold observed in H.
    inv_bind H as u1 s2 Hinit.
    pose proof (initCallbackArray_pres _ _ _ _ _ Hinit) as Hp2.
    apply initCallbackArray_covered in Hinit as [Hcov2 Hw2]; [|done].
    inv_bind H as keys s3 Hk.
    apply Object_keys_inv in Hk as (b & ps & Hb & Hps & -> & ->).
    inv_bind H as u2 s4 Hloop.
    apply (for_each_settled
             (λ s', pres (st_heap s2) (st_heap s') ∧ covered (st_heap s') ∧
                    written_marked (st_heap s2) (st_heap s'))
             (λ key s', ∀ ps', st_heap s' !! b = Some (CObj ps') →
                               marked_value (st_heap s') (lookup_prop ps' (PStr key))))
      in Hloop; [|clear Hloop|split_and!; [apply pres_refl|done|apply written_marked_refl]].
    2:{ intros key sa u sb Hin (Hpa & Hcova & Hwa) Hbody.
        inv_bind Hbody as v sc Hg. apply Reflect_get_inv in Hg as (_ & _ & _ & _ & _ & Hhc).
        inv_bind Hbody as v' sd Hm.
        pose proof (mayObserve_pres _ _ _ _ _ _ Hm) as Hpd.
        pose proof (mayObserve_marked _ _ _ _ _ _ Hm) as Hv'.
        apply Hmay in Hm as [Hcovd Hwd]; [|by rewrite Hhc].
        rewrite Hhc in *.
        inv_bind Hbody as b1 se Hs. inv_step Hbody.
        pose proof (proj1 (set_observed_pres n) _ _ _ _ _ _ _ Hs) as Hpe.
        apply IHset in Hs as (Hcove & Hwe & Hke); [|done|by intros].
        assert (pres (st_heap sa) (st_heap sb)) as Hpab by (by eapply pres_trans).
        assert (written_marked (st_heap sa) (st_heap sb)) as Hwab.
        { by apply (written_marked_trans _ (st_heap sd)). }
        split_and!.
        - by eapply pres_trans.
        - done.
        - by apply (written_marked_trans _ (st_heap sa)).
        - intros ps' Hps'. eapply Hke; [|done].
          eapply pres_base_of; [|done]. by eapply pres_trans.
        - intros y Hy ps' Hps'.
          destruct (pres_obj _ _ Hpa _ _ Hps) as (psa & Hpsa & _).
          destruct (Hwab b psa ps' y Hpsa Hps') as [->|?]; [|done].
          eapply marked_value_pres; [done|]. by apply Hy. }
    destruct Hloop as ((Hp4 & Hcov4 & Hw4) & Hkeys & _).
    inv_bind H as marked s5 Hobs. unfold isObserved in Hobs.
    inv_bind Hobs as v s6 Hg. inv_step Hobs.
    apply Reflect_get_inv in Hg as (b' & ps' & Hb' & Hps' & -> & Hh6).
    assert (b' = b) as ->.
    { eapply base_of_fun; [done|]. by eapply pres_base_of. }
    assert (written_marked (st_heap s) (st_heap s4)) as Hw04.
    { by apply (written_marked_trans _ (st_heap s2)). }
    destruct (truthy (lookup_prop ps' (PSym observedSymbol))) eqn:Ht.
    + inv_step H. by rewrite Hh6.
    + inv_bind H as proxy s7 Ha. inv_step Ha. inv_bind H as u3 s8 Hd. inv_step H.
      unfold defineProp in Hd.
      apply Object_defineProperty_inv in Hd as (b'' & ps'' & Hb'' & Hps'' & ->).
      simpl in *. rewrite Hh6 in *.
      assert (pres (st_heap s4) (st_heap s4 ++ [CProxy o (spread defaultOptions opts)]))
        as Hpa.
      { apply pres_alloc_proxy. intros ps0 Ho.
        by rewrite (base_of_CObj _ _ _ _ Ho Hb') in Hps'; simplify_eq. }
      assert (b'' = b) as ->.
      { eapply base_of_fun; [done|]. by eapply pres_base_of. }
      rewrite lookup_app_l in Hps'' by (by eapply lookup_lt_Some). simplify_eq.
      destruct (covered_app (st_heap s4) (CProxy o (spread defaultOptions opts)))
        as [Hcov5 Hw5]; [done|done|done|].
      assert (pres (st_heap s4 ++ [CProxy o (spread defaultOptions opts)])
                (<[b := CObj (update_prop ps' (PSym observedSymbol) (VBool true))]>
                   (st_heap s4 ++ [CProxy o (spread defaultOptions opts)]))) as Hp6.
      { apply pres_update; [by apply lookup_app_l_Some|]. by intros y [= <-]. }
      destruct (covered_define (st_heap s4 ++ [CProxy o (spread defaultOptions opts)])
                  b ps' observedSymbol (VBool true)) as [Hcov6 Hw6];
        [by apply lookup_app_l_Some|done| |done|].
      { intros _ k. eapply marked_value_pres; [done|].
        destruct (decide (k ∈ string_keys ps)) as [Hin|Hout]; [by apply Hkeys|].
        destruct (Hw4 b ps ps' k Hps Hps') as [Heq|?]; [|done].
        rewrite Heq, lookup_prop_absent by done. by intros ? [=]. }
      split; [done|].
      apply (written_marked_trans _ (st_heap s4));
        [by eapply pres_trans|by eapply pres_trans|done|].
      by apply (written_marked_trans _ (st_heap s4 ++ [CProxy o (spread defaultOptions opts)])).
Qed.

Lemma covered_reach h l q :
  covered h → marked h l → reach h l q → marked h q.
Proof.
  intros Hcov Hm Hr. induction Hr as [l|l b ps k c q Hb Hps Hk _ IH]; [done|].
  apply IH. destruct Hm as (b' & ps' & Hb' & Hps' & Ht).
  assert (b' = b) as -> by (by eapply base_of_fun). simplify_eq.
  by eapply Hcov.
Qed.

(** X17 (every depth is marked).  On a store in which every marked
    object holds marked references only, as on a store that was never
    wrapped, with callbacks that do not return objects of their own: when
    [observed] returns, the store is again such a store, the reference
    returned is marked, and so is every object and proxy reachable from
    it through string-keyed properties, at any depth.  A write under a
    string key through a proxy keeps the store such a store. *)
Theorem every_depth_is_marked n x opts s p s1 :
  no_injection →
  covered (st_heap s) →
  observed (run n) x opts s = Ok p s1 →
  covered (st_heap s1) ∧
  (∀ q, reach (st_heap s1) p q → marked (st_heap s1) q) ∧
  (∀ m o t po k v r b s2,
     st_heap s1 !! o = Some (CProxy t po) →
     Reflect_set_ (run m) o (PStr k) v r s1 = Ok b s2 →
     covered (st_heap s2)).
Proof.
  intros Hni Hcov Hrun.
  destruct (proj2 (set_observed_covered (S n) Hni) x opts s p s1 Hcov Hrun)
    as [Hcov1 _].
  split_and!; [done| |].
  - intros q. apply covered_reach; [done|]. by eapply observed_marked.
  - intros m o t po k v r b s2 Ho Hset.
    eapply (proj1 (set_observed_covered m Hni)); [done| |done].
    intros ps Hps. congruence.
Qed.

(** ** The small exported functions *)

Lemma lookup_prop_missing ps k :
  (∀ v, (k, v) ∉ ps) → lookup_prop ps k = VUndefined.
Proof.
  induction ps as [|[k0 v0] ps IH]; simpl; intros H; [done|].
  destruct (decide (k0 = k)) as [->|Hne].
  - exfalso. apply (H v0). by left.
  - apply IH. intros v Hin. apply (H v). by right.
Qed.

(** X18 ([getObservers]).  On a node, [getObservers] returns what the
    registry property of the object behind the node holds, and changes
    nothing in the store: a reference to the array that holds the
    registrations of the node, the same array through a proxy and on the
    raw object, or [undefined] on an object that has no such property.
    Through a proxy the read runs the [onGet] hook, once. *)
Theorem getObservers_reads_registry n o b g ps s :
  node (st_heap s) o b g →
  registry_readable o b g →
  st_heap s !! b = Some (CObj ps) →
  ∃ s',
    getObservers (run (S (S n))) o s =
      Ok (lookup_prop ps (PSym observedCallbacksSymbol)) s' ∧
    st_heap s' = st_heap s ∧
    st_trace s' = st_trace s ++
      read_events g (PSym observedCallbacksSymbol)
        (lookup_prop ps (PSym observedCallbacksSymbol)) b o ∧
    getObservers (run (S (S n))) b s =
      Ok (lookup_prop ps (PSym observedCallbacksSymbol)) s ∧
    (∀ items, registry (st_heap s) b = Some items →
       ∃ a, lookup_prop ps (PSym observedCallbacksSymbol) = VRef a ∧
            st_heap s' !! a = Some (CArr items)) ∧
    ((∀ v, (PSym observedCallbacksSymbol, v) ∉ ps) →
       lookup_prop ps (PSym observedCallbacksSymbol) = VUndefined).
Proof.
  intros Hnode Hread Hb. unfold getObservers.
  eexists. split_and!.
  - apply node_read; [done|done|]. intros f Hf. by apply Hread.
  - done.
  - done.
  - simpl Reflect_get_. by apply Reflect_get_obj.
  - intros items Hreg. apply registry_Some in Hreg as (ps' & a & Hb' & Hslot & Ha).
    simplify_eq. eauto.
  - apply lookup_prop_missing.
Qed.

(** X19 ([initCallbackArray]).  On a node that has a registry,
    [initCallbackArray] leaves the store as it is: it never replaces
    registrations.  On a node whose registry property is absent or falsy
    it defines the property to a fresh empty array.  Called a second
    time, it changes nothing. *)
Theorem initCallbackArray_idempotent n o b g s ps :
  node (st_heap s) o b g →
  registry_readable o b g →
  st_heap s !! b = Some (CObj ps) →
  ∃ s1 s2,
    initCallbackArray (run (S (S n))) o s = Ok tt s1 ∧
    (truthy (lookup_prop ps (PSym observedCallbacksSymbol)) = true →
     st_heap s1 = st_heap s) ∧
    (truthy (lookup_prop ps (PSym observedCallbacksSymbol)) = false →
     registry (st_heap s1) b = Some [] ∧
     ∀ l c, l ≠ b → st_heap s !! l = Some c → st_heap s1 !! l = Some c) ∧
    initCallbackArray (run (S (S n))) o s1 = Ok tt s2 ∧
    st_heap s2 = st_heap s1.
Proof.
  intros Hnode Hread Hb. unfold initCallbackArray.
  assert (∀ s0 ps0, node (st_heap s0) o b g → st_heap s0 !! b = Some (CObj ps0) →
            Reflect_get_ (run (S (S n))) o (PSym observedCallbacksSymbol) o s0 =
              Ok (lookup_prop ps0 (PSym observedCallbacksSymbol))
                 {| st_heap := st_heap s0;
                    st_trace := st_trace s0 ++
                      read_events g (PSym observedCallbacksSymbol)
                        (lookup_prop ps0 (PSym observedCallbacksSymbol)) b o |})
    as Hget.
  { intros s0 ps0 Hnode0 Hb0. apply node_read; [done|done|]. intros; by apply Hread. }
  erewrite bind_Ok; [|by apply Hget].
  destruct (truthy (lookup_prop ps (PSym observedCallbacksSymbol))) eqn:Ht; cbn [negb].
  - eexists _, _. split; [reflexivity|]. split_and!; [done|done|..].
    + erewrite bind_Ok; [|by apply Hget]. rewrite Ht. reflexivity.
    + done.
  - erewrite bind_Ok; [|done]. unfold defineProp.
    erewrite node_define; [| |by apply lookup_app_l_Some]; [|by apply node_app].
    cbn [st_heap st_trace].
    destruct (replaced_store _ _ _ [] Hb) as (Hb1 & Hnew1 & Hframe1).
    eexists _, _. split; [reflexivity|]. cbn [st_heap]. split_and!; [done|..].
    + intros _. split; [by apply registry_define|done].
    + erewrite bind_Ok; last first.
      { apply Hget; cbn [st_heap]; [|done]. by apply node_insert, node_app. }
      rewrite lookup_update_eq. reflexivity.
    + done.
Qed.

(** X20 ([mayObserve]).  [mayObserve] returns a value that is not an
    object as it is, [null] and functions included, and leaves the store
    untouched.  On an object it returns, when it returns, a marked
    reference: the object itself when it was marked already, and
    otherwise a reference the store did not hold. *)
Theorem mayObserve_result n v opts s :
  (∀ rec, (∀ l, v ≠ VRef l) → mayObserve rec v opts s = Ok v s) ∧
  (∀ l v1 s1,
     v = VRef l →
     mayObserve (run n) v opts s = Ok v1 s1 →
     ∃ q, v1 = VRef q ∧ marked (st_heap s1) q ∧
          (marked (st_heap s) l → q = l) ∧
          (q = l ∨ (length (st_heap s) ≤ q ∧
                    st_heap s1 !! q =
                      Some (CProxy l (spread defaultOptions (with_deep opts false)))))).
Proof.
  split; [intros rec; apply mayObserve_value|].
  intros l v1 s1 -> H. simpl in H. inv_bind H as q s2 Hrun. inv_step H.
  destruct n as [|n]; [done|].
  change (observed (run n) l (with_deep opts false) s = Ok q s1) in Hrun.
  exists q. split_and!; [done|by eapply observed_marked| |].
  - intros Hm. by destruct (observed_of_marked _ _ _ _ _ _ Hm Hrun).
  - apply observed_inv in Hrun as (hl & b & psl & Hpl & Hbl & Hpsl & Hcase).
    destruct Hcase as [(_ & -> & _)|(_ & -> & Hheap)]; [by left|].
    right. split; [apply Hpl|]. rewrite Hheap.
    rewrite list_lookup_insert_ne by (apply lookup_lt_Some in Hpsl; lia).
    by apply list_lookup_middle.
Qed.


(** ** Wrapping a proxy again *)

(** The loop of [observed] over the own keys of a proxy whose target
    holds no object under them: every key is read and assigned through
    the traps, so that the before phase of the proxy is applied to the
    value it holds. *)
Lemma rewrap_loop n p t opts options a regs ks :
  returning → NoDup ks →
  ∀ s ps,
    st_heap s !! p = Some (CProxy t opts) →
    st_heap s !! t = Some (CObj ps) →
    lookup_prop ps (PSym observedCallbacksSymbol) = VRef a →
    st_heap s !! a = Some (CArr regs) →
    (∀ k l, k ∈ ks → lookup_prop ps (PStr k) ≠ VRef l) →
    ∃ s' ps',
      for_each (λ key,
          let* v := Reflect_get_ (run (S (S n))) p (PStr key) p in
          let* v := mayObserve (run (S (S n))) v options in
          do* Reflect_set_ (run (S (S n))) p (PStr key) v p in
          ret tt) ks s = Ok tt s' ∧
      st_heap s' = <[t := CObj ps']> (st_heap s) ∧
      st_trace s `prefix_of` st_trace s' ∧
      (∀ k', (∀ k, k' = PStr k → k ∉ ks) → lookup_prop ps' k' = lookup_prop ps k') ∧
      (∀ k, k ∈ ks →
         pipeline (PStr k) (lookup_prop ps (PStr k)) p (before_hooks opts regs)
           (lookup_prop ps (PStr k)) = Some (lookup_prop ps' (PStr k)) ∧
         EvWrite t (PStr k) (lookup_prop ps' (PStr k)) ∈ st_trace s').
Proof.
  intros Hret. induction 1 as [|k ks Hk Hnd IH]; intros s ps Hp Ht Hslot Ha Hflat.
  - exists s, ps. simpl. split_and!; [done| |done|done|].
    + rewrite list_insert_id; done.
    + by intros k ?%elem_of_nil.
  - assert (t < length (st_heap s)) as Hlt by (by eapply lookup_lt_Some).
    assert (p ≠ t) as Hpt by (intros ->; congruence).
    assert (a ≠ t) as Hat by (intros ->; congruence).
    simpl for_each.
    set (old := lookup_prop ps (PStr k)).
    (* the read through the proxy *)
    set (sa := {| st_heap := st_heap s;
                  st_trace := st_trace s ++
                    match opt_onGet opts with
                    | Some f => [EvCall f (PStr k) old (VRef t) (VRef p)]
                    | None => []
                    end |}).
    assert (Reflect_get_ (run (S (S n))) p (PStr k) p s = Ok old sa) as Hget.
    { simpl Reflect_get_. eapply Reflect_get_proxy; [done| |].
      - simpl Reflect_get_. by apply Reflect_get_obj.
      - intros f _. by destruct (Hret f (PStr k) old (VRef t) (VRef p)) as [x ->]; eauto. }
    (* the write through the proxy *)
    destruct (pipeline_returns (PStr k) old p (before_hooks opts regs) old) as [vb Hpipe].
    { intros f x. apply Hret. }
    destruct (Reflect_set_proxy n p t opts ps a regs (PStr k) old p sa old sa vb)
      as (ps1 & Ht1 & Hset); [done|done|done|done| |done| |].
    { apply mayObserve_value. intros l. apply Hflat. by left. }
    { apply Forall_forall. intros f _. apply Hret. }
    cbn [st_heap sa] in Ht1. simplify_eq.
    match type of Hset with _ = Ok true ?st => set (sb := st) in * end.
    destruct (IH sb (update_prop ps (PStr k) vb)) as (s' & ps' & Hloop & Hheap & Htr & Hframe & Hkeys).
    { subst sb. cbn [st_heap sa]. by rewrite list_lookup_insert_ne. }
    { subst sb. cbn [st_heap sa]. by apply list_lookup_insert_eq. }
    { by rewrite lookup_update_ne. }
    { subst sb. cbn [st_heap sa]. by rewrite list_lookup_insert_ne. }
    { intros k' l Hin. rewrite lookup_update_ne by (intros [= ->]; done).
      apply Hflat. by right. }
    exists s', ps'. split_and!.
    + erewrite bind_Ok; [exact Hloop|].
      erewrite bind_Ok; [|exact Hget].
      erewrite bind_Ok; [|apply mayObserve_value; intros l; apply Hflat; by left].
      erewrite bind_Ok; [done|]. exact Hset.
    + rewrite Hheap. subst sb. cbn [st_heap sa]. by rewrite list_insert_insert_eq.
    + etrans; [|exact Htr]. subst sb sa. cbn [st_trace].
      rewrite <-app_assoc. by apply prefix_app_r.
    + intros k' Hk'. rewrite Hframe.
      * apply lookup_update_ne. intros Heq. apply (Hk' k); [done|by left].
      * intros k0 Heq Hin. apply (Hk' k0); [done|by right].
    + intros k0 [->|Hin]%elem_of_cons.
      * rewrite Hframe by (by intros ? [= <-]). rewrite lookup_update_eq.
        split; [done|]. eapply elem_of_prefix; [|exact Htr].
        subst sb. cbn [st_trace]. rewrite !elem_of_app, elem_of_cons.
        right. right. left. by left.
      * destruct (Hkeys k0 Hin) as [Hp0 Hw0].
        rewrite lookup_update_ne in Hp0 by (intros [= ->]; done). done.
Qed.

(** X22 (wrapping a proxy again assigns every own key).  [observed]
    applied to a proxy whose target is marked and holds no object under
    its string keys returns the proxy, but not without effect: every own
    key is assigned through the [set] trap, so that the value it holds is
    replaced by what the before phase makes of it, and every callback of
    the proxy runs again for every key.  The symbol-keyed properties and
    the other cells of the store stay as they were. *)
Theorem rewrap_reassigns_every_key n p t opts opts' ps a regs s :
  st_heap s !! p = Some (CProxy t opts) →
  st_heap s !! t = Some (CObj ps) →
  truthy (lookup_prop ps (PSym observedSymbol)) = true →
  lookup_prop ps (PSym observedCallbacksSymbol) = VRef a →
  st_heap s !! a = Some (CArr regs) →
  (∀ k l, lookup_prop ps (PStr k) ≠ VRef l) →
  NoDup (string_keys ps) →
  returning →
  ∃ s' ps',
    observed (run (S (S n))) p opts' s = Ok p s' ∧
    st_heap s' = <[t := CObj ps']> (st_heap s) ∧
    (∀ y, lookup_prop ps' (PSym y) = lookup_prop ps (PSym y)) ∧
    (∀ k, k ∈ string_keys ps →
       pipeline (PStr k) (lookup_prop ps (PStr k)) p (before_hooks opts regs)
         (lookup_prop ps (PStr k)) = Some (lookup_prop ps' (PStr k)) ∧
       EvWrite t (PStr k) (lookup_prop ps' (PStr k)) ∈ st_trace s').
Proof.
  intros Hp Ht Hm Hslot Ha Hflat Hnd Hret.
  assert (node (st_heap s) p t (opt_onGet opts)) as Hnode by (by econstructor).
  assert (∀ s0 ps0 k, node (st_heap s0) p t (opt_onGet opts) →
            st_heap s0 !! t = Some (CObj ps0) →
            Reflect_get_ (run (S (S n))) p k p s0 =
              Ok (lookup_prop ps0 k)
                 {| st_heap := st_heap s0;
                    st_trace := st_trace s0 ++
                      read_events (opt_onGet opts) k (lookup_prop ps0 k) t p |})
    as Hget.
  { intros s0 ps0 k Hnode0 Hb0. apply node_read; [done|done|]. intros; apply Hret. }
  unfold observed, initCallbackArray.
  erewrite bind_Ok; last first.
  { erewrite bind_Ok; [|by apply Hget]. rewrite Hslot. reflexivity. }
  erewrite bind_Ok; [|by eapply node_keys].
  match goal with |- context [bind _ _ ?st] => set (s1 := st) end.
  destruct (rewrap_loop n p t opts (spread defaultOptions opts') a regs (string_keys ps)
              Hret Hnd s1 ps) as (s2 & ps2 & Hloop & Hheap & Htr & Hframe & Hkeys);
    [done|done|done|done|by intros|].
  erewrite bind_Ok; [|exact Hloop].
  assert (t < length (st_heap s)) as Hlt by (by eapply lookup_lt_Some).
  assert (st_heap s2 !! t = Some (CObj ps2)) as Ht2.
  { rewrite Hheap. by apply list_lookup_insert_eq. }
  assert (node (st_heap s2) p t (opt_onGet opts)) as Hnode2.
  { rewrite Hheap. by apply node_insert. }
  assert (∀ y, lookup_prop ps2 (PSym y) = lookup_prop ps (PSym y)) as Hsym.
  { intros y. apply Hframe. by intros k [=]. }
  unfold isObserved.
  erewrite bind_Ok; last first.
  { erewrite bind_Ok; [|by apply Hget]. reflexivity. }
  rewrite Hsym, Hm. unfold ret.
  eexists _, ps2. split; [reflexivity|]. cbn [st_heap st_trace].
  split_and!; [done|done|].
  intros k Hin. destruct (Hkeys k Hin) as [Hpipe Hw]. split; [done|].
  rewrite elem_of_app. by left.
Qed.

(** X23 (the proxy holds no copy).  A write on the raw target of a
    proxy lands on the target and calls no callback; a read of the key
    through the proxy afterwards returns the value written, and runs the
    [onGet] hook with it. *)
Theorem raw_write_bypasses_callbacks rec n p t opts ps k v s :
  st_heap s !! p = Some (CProxy t opts) →
  st_heap s !! t = Some (CObj ps) →
  (∀ f, opt_onGet opts = Some f →
        is_Some (callback f k v (VRef t) (VRef p))) →
  Reflect_set rec t k v t s =
    Ok true {| st_heap := <[t := CObj (update_prop ps k v)]> (st_heap s);
               st_trace := st_trace s ++ [EvWrite t k v] |} ∧
  Reflect_get (run (S n)) p k p
      {| st_heap := <[t := CObj (update_prop ps k v)]> (st_heap s);
         st_trace := st_trace s ++ [EvWrite t k v] |} =
    Ok v {| st_heap := <[t := CObj (update_prop ps k v)]> (st_heap s);
            st_trace := (st_trace s ++ [EvWrite t k v]) ++
                        read_events (opt_onGet opts) k v t p |}.
Proof.
  intros Hp Ht Hhook.
  assert (t < length (st_heap s)) as Hlt by (by eapply lookup_lt_Some).
  assert (p ≠ t) as Hpt by (intros ->; congruence).
  split.
  - unfold Reflect_set. by erewrite bind_Ok; [|by apply read_cell_lookup].
  - pose proof (node_read n p t (opt_onGet opts) (update_prop ps k v) k
                  {| st_heap := <[t := CObj (update_prop ps k v)]> (st_heap s);
                     st_trace := st_trace s ++ [EvWrite t k v] |}) as Hread.
    rewrite lookup_update_eq in Hread. apply Hread; cbn [st_heap].
    + econstructor; [by rewrite list_lookup_insert_ne|by apply list_lookup_insert_eq].
    + by apply list_lookup_insert_eq.
    + done.
Qed.

Lemma tame_no_injection : tame → no_injection.
Proof.
  intros Ht f k v a2 a3 v' Hc. destruct (Ht f k v a2 a3) as (v0 & Hv0 & Hcase).
  by simplify_eq.
Qed.

Lemma tame_returning : tame → returning.
Proof. intros Ht f k v a2 a3. by destruct (Ht f k v a2 a3) as (v0 & -> & _). Qed.

End Observed.

(** ** Worked examples

    The stores of the README and of the test suite, and the runs of the
    library on them that instantiate the statements above. *)

Local Open Scope string_scope.
Local Open Scope list_scope.

Lemma sample_callback_tame : tame sample_callback.
Proof.
  intros f k v a2 a3. destruct f as [|[|f]]; simpl.
  - eexists. split; [done|]. by right.
  - eexists. split; [done|]. destruct v; try (by left). by right.
  - eexists. split; [done|]. by right.
Qed.

Lemma raw_store_wf : wf raw_rank (st_heap raw_store).
Proof.
  split.
  - intros l ps Hl. left. destruct l as [|[|l]]; simpl in Hl; by simplify_eq.
  - intros l ps k c Hl Hk. destruct l as [|[|l]]; simpl in Hl; simplify_eq; simpl in Hk.
    + repeat case_decide; simplify_eq. split; [simpl; lia|]. left. by eexists.
    + repeat case_decide; simplify_eq.
  - intros l t o Hl. destruct l as [|[|l]]; simpl in Hl; simplify_eq.
Qed.

(** C2 (the deep option).  The code does not gate on [deep]: the option
    is never read.  On a proxy made with [{ deep: false }], writing the
    raw object [1] under ["child"] stores a reference to a new proxy over
    [1], not [1] itself. *)
Theorem deep_false_still_wraps :
  ∃ s1 s2 ps,
    observed (run sample_callback 2) 0 shallow two_objects = Ok 3 s1 ∧
    Reflect_set sample_callback (run sample_callback 3) 3 (PStr "child") (VRef 1) 3 s1
      = Ok true s2 ∧
    st_heap s2 !! 0 = Some (CObj ps) ∧
    lookup_prop ps (PStr "child") = VRef 5 ∧
    st_heap s2 !! 5 = Some (CProxy 1 (with_deep (spread defaultOptions shallow) false)).
Proof. eexists _, _, _. vm_compute. split_and!; reflexivity. Qed.

(** The wrapping step of a write does not look at [deep] at all. *)
Lemma mayObserve_ignores_deep rec v options d :
  mayObserve rec v (with_deep options d) = mayObserve rec v options.
Proof. by destruct v. Qed.

(** On the README object, [observed(someObject)] returns the proxy [5];
    a second [observed(someObject)] on the raw object returns the raw
    object [0]. *)
Example observed_raw_again_example :
  ∃ s1 s2,
    observed (run sample_callback 4) 0 sample_options raw_store = Ok 5 s1 ∧
    observed (run sample_callback 4) 0 sample_options s1 = Ok 0 s2.
Proof. eexists _, _. vm_compute. split; reflexivity. Qed.

(** *** Instances of the statements *)

Lemma sample_node : node (st_heap sample_store) 2 0 (Some 4).
Proof.
  exact (node_proxy (st_heap sample_store) 2 0 sample_options sample_object
           eq_refl eq_refl).
Defined.

Lemma sample_readable : registry_readable sample_callback 2 0 (Some 4).
Proof. intros f v _. destruct f as [|[|f]]; by eexists. Defined.

Lemma sample_after_hooks_return (vb : value) :
  Forall (λ f, is_Some (sample_callback f (PStr "test") vb (VNum 123) (VRef 2)))
         (after_hooks sample_options sample_registry).
Proof. repeat (constructor; [by eexists|]). constructor. Defined.

(** [observed(observed(someObject))] on the README object: both calls
    return, the second returns the proxy the first returned, and builds
    no other proxy over the object. *)
Lemma wrap_idempotent_witness :
  ∃ p s1 s2,
    observed (run sample_callback 4) 0 sample_options raw_store = Ok p s1 ∧
    observed (run sample_callback 4) p defaultOptions s1 = Ok p s2 ∧
    ∀ t q o, base_of (st_heap s1) p t →
             st_heap s2 !! q = Some (CProxy t o) →
             st_heap s1 !! q = Some (CProxy t o).
Proof.
  destruct (proj2 (wrap_idempotent sample_callback 0 sample_options defaultOptions
                     raw_store) raw_rank 4 sample_callback_tame raw_store_wf)
    as (p & s1 & s2 & Hrun1 & Hrun2).
  - left. by eexists.
  - simpl. lia.
  - exists p, s1, s2. split_and!; [done|done|].
    exact (proj2 (proj1 (wrap_idempotent sample_callback 0 sample_options
                           defaultOptions raw_store) 4 4 p s1 p s2 Hrun1 Hrun2)).
Defined.

(** [proxy.test = 456] on the sample store: [456] is doubled by the
    global hook, doubled again by the ['before'] registration, and [1824]
    is committed before the after phase runs. *)
Lemma dispatch_order_witness :
  ∃ s' calls_before calls_after,
    Reflect_set sample_callback (run sample_callback 1)
      2 (PStr "test") (VNum 456) 2 sample_store = Ok true s' ∧
    st_trace s' =
      st_trace sample_store ++ calls_before ++
      [EvWrite 0 (PStr "test") (VNum 1824)] ++ calls_after ∧
    omap callee calls_before = [1; 1] ∧
    omap callee calls_after = [2; 1; 3].
Proof.
  apply (dispatch_order sample_callback 0 2 0 sample_options sample_object 1 sample_registry
           (PStr "test") (VNum 456) 2 sample_store (VNum 456) sample_store (VNum 1824));
    try reflexivity.
  apply sample_after_hooks_return.
Defined.

Lemma before_phase_pipeline_witness :
  ∃ s' ps' calls_before rest,
    Reflect_set sample_callback (run sample_callback 1)
      2 (PStr "test") (VNum 456) 2 sample_store = Ok true s' ∧
    st_heap s' !! 0 = Some (CObj ps') ∧
    lookup_prop ps' (PStr "test") = VNum 1824 ∧
    st_trace s' =
      st_trace sample_store ++ calls_before ++
      [EvWrite 0 (PStr "test") (VNum 1824)] ++ rest ∧
    length calls_before = 2 ∧
    (∀ i f, before_hooks sample_options sample_registry !! i = Some f →
       ∃ vi, pipeline sample_callback (PStr "test") (VNum 123) 2
               (take i (before_hooks sample_options sample_registry)) (VNum 456)
               = Some vi ∧
             calls_before !! i = Some (EvCall f (PStr "test") vi (VNum 123) (VRef 2))) ∧
    (∀ fs f, before_hooks sample_options sample_registry = fs ++ [f] →
       ∃ vi, sample_callback f (PStr "test") vi (VNum 123) (VRef 2) = Some (VNum 1824)) ∧
    (before_hooks sample_options sample_registry = [] → VNum 1824 = VNum 456).
Proof.
  apply (before_phase_pipeline sample_callback 0 2 0 sample_options sample_object 1 sample_registry
           (PStr "test") (VNum 456) 2 sample_store (VNum 456) sample_store (VNum 1824));
    try reflexivity.
  apply sample_after_hooks_return.
Defined.

(** The doubling callback is also registered for the after phase: there
    it is called with [1824] and returns [3648], which goes nowhere. *)
Lemma after_phase_isolation_witness :
  ∃ s' ps1,
    Reflect_set sample_callback (run sample_callback 1)
      2 (PStr "test") (VNum 456) 2 sample_store = Ok true s' ∧
    st_heap sample_store !! 0 = Some (CObj ps1) ∧
    st_heap s' =
      <[0 := CObj (update_prop ps1 (PStr "test") (VNum 1824))]> (st_heap sample_store) ∧
    st_trace s' =
      (st_trace sample_store ++
       pipeline_calls sample_callback (PStr "test") (VNum 123) 2
         (before_hooks sample_options sample_registry) (VNum 456)) ++
      [EvWrite 0 (PStr "test") (VNum 1824)] ++
      map (λ f, EvCall f (PStr "test") (VNum 1824) (VNum 123) (VRef 2))
          (after_hooks sample_options sample_registry).
Proof.
  apply (after_phase_isolation sample_callback 0 2 0 sample_options sample_object 1
           sample_registry (PStr "test") (VNum 456) 2 sample_store (VNum 456)
           sample_store (VNum 1824));
    try reflexivity.
  intros f _. destruct f as [|[|f]]; by eexists.
Defined.

(** [proxy.test = 123] while [test] already holds [123]: all five
    callbacks run and [492] is stored. *)
Lemma write_transparency_witness :
  ∃ s' ps',
    Reflect_set sample_callback (run sample_callback 1)
      2 (PStr "test") (VNum 123) 2 sample_store = Ok true s' ∧
    omap callee (drop (length (st_trace sample_store)) (st_trace s')) =
      before_hooks sample_options sample_registry ++
      after_hooks sample_options sample_registry ∧
    EvWrite 0 (PStr "test") (VNum 492) ∈ st_trace s' ∧
    st_heap s' !! 0 = Some (CObj ps') ∧ lookup_prop ps' (PStr "test") = VNum 492.
Proof.
  apply (write_transparency sample_callback 0 2 0 sample_options sample_object 1 sample_registry
           (PStr "test") (VNum 123) 2 sample_store (VNum 123) sample_store (VNum 492));
    try reflexivity.
  apply sample_after_hooks_return.
Defined.

Lemma unregister_semantics_witness :
  (∃ s', offSet (run sample_callback 2) 2 VUndefined sample_store = Ok tt s' ∧
         registry (st_heap s') 0 = Some []) ∧
  (∀ f ps,
     st_heap sample_store !! 0 = Some (CObj ps) →
     (∀ a, lookup_prop ps (PSym observedCallbacksSymbol) = VRef a →
           ∃ c, st_heap sample_store !! a = Some c ∧ ∀ items, c ≠ CArr items) →
     ∃ s', offSet (run sample_callback 2) 2 (VFun f) sample_store
             = Throw CallbackIsNotRegistered s' ∧
           st_heap s' = st_heap sample_store) ∧
  (∀ f items,
     registry (st_heap sample_store) 0 = Some items →
     ∃ s' items',
       offSet (run sample_callback 2) 2 (VFun f) sample_store = Ok tt s' ∧
       registry (st_heap s') 0 = Some items' ∧
       items' = filter (λ reg, cb reg ≠ f) items ∧
       items' `sublist_of` items ∧
       (∀ reg, reg ∈ items' ↔ reg ∈ items ∧ cb reg ≠ f)).
Proof.
  exact (unregister_semantics sample_callback 0 2 0 (Some 4) sample_store
           sample_node sample_readable).
Defined.

Lemma register_semantics_witness :
  (∀ rec c ph, (∀ f, c ≠ VFun f) →
     onSet rec 2 c ph sample_store = Throw CallbackMustBeAFunction sample_store) ∧
  (∀ f ph, ∃ s',
     onSet (run sample_callback 2) 2 (VFun f) ph sample_store = Ok tt s' ∧
     registry (st_heap s') 0 =
       Some (sample_registry ++ [{| cb := f; phase := default after ph |}]) ∧
     ∃ s'',
       onSet (run sample_callback 2) 2 (VFun f) ph s' = Ok tt s'' ∧
       registry (st_heap s'') 0 =
         Some (sample_registry ++ [{| cb := f; phase := default after ph |};
                                   {| cb := f; phase := default after ph |}])).
Proof.
  apply (register_semantics sample_callback 0 2 0 (Some 4) sample_store sample_registry
           sample_node sample_readable).
  by left.
Defined.

Lemma read_interception_witness :
  Reflect_get sample_callback (run sample_callback 1) 2 (PStr "test") 2 sample_store =
    Ok (VNum 123)
       {| st_heap := st_heap sample_store;
          st_trace := st_trace sample_store ++
            [EvCall 4 (PStr "test") (VNum 123) (VRef 0) (VRef 2)] |}.
Proof.
  apply (read_interception sample_callback 1 2 0 sample_options (PStr "test") 2
           sample_store (VNum 123) sample_store); [reflexivity..|].
  intros f [= <-]. by eexists.
Defined.

(** [observed(someObject)] on the README object returns a new proxy
    over the object [0], and the raw object [0] itself is marked. *)
Lemma marker_on_raw_object_witness :
  ∃ p s1 ps1,
    observed (run sample_callback 4) 0 sample_options raw_store = Ok p s1 ∧
    p ≠ 0 ∧
    st_heap s1 !! p = Some (CProxy 0 (spread defaultOptions sample_options)) ∧
    st_heap s1 !! 0 = Some (CObj ps1) ∧
    lookup_prop ps1 (PSym observedSymbol) = VBool true ∧
    ∀ rec, isObserved (step sample_callback rec) 0 s1 = Ok true s1.
Proof.
  destruct (proj2 (marker_on_raw_object sample_callback 0 raw_object sample_options
                     raw_store eq_refl) raw_rank 4 sample_callback_tame raw_store_wf
              eq_refl) as (p & s1 & Hrun & Hne).
  - simpl. lia.
  - destruct (proj1 (marker_on_raw_object sample_callback 0 raw_object sample_options
                       raw_store eq_refl) 4 p s1 Hrun)
      as (ps1 & Hx & _ & Hobserved & Hproxy).
    destruct (Hproxy Hne) as [Hp Hflag].
    by exists p, s1, ps1.
Defined.

(** Wrapping the README object: the object gets an empty registry. *)
Lemma wrap_keeps_registrations_witness :
  ∃ p s1,
    observed (run sample_callback 4) 0 sample_options raw_store = Ok p s1 ∧
    registry (st_heap s1) 0 = Some [].
Proof.
  assert (∃ p s1, observed (run sample_callback 4) 0 sample_options raw_store = Ok p s1)
    as (p & s1 & Hrun) by (eexists _, _; vm_compute; reflexivity).
  exists p, s1. split; [done|].
  exact (proj2 (wrap_keeps_registrations sample_callback 4 0 sample_options raw_store
                  p s1 Hrun) raw_object eq_refl eq_refl).
Defined.

(** On the sample store the proxy [2] keeps its options when it is
    wrapped again with other options, and when it is written through. *)
Lemma options_fixed_at_first_wrap_witness :
  (∀ x opts' r s1,
     observed (run sample_callback 3) x opts' sample_store = Ok r s1 →
     st_heap s1 !! 2 = Some (CProxy 0 sample_options) ∧
     (marked (st_heap sample_store) x → r = x)) ∧
  (∀ x k v r b s1,
     Reflect_set_ (run sample_callback 3) x (PStr k) v r sample_store = Ok b s1 →
     st_heap s1 !! 2 = Some (CProxy 0 sample_options)).
Proof.
  exact (options_fixed_at_first_wrap sample_callback 3 2 0 sample_options sample_store
           eq_refl).
Defined.

(** *** Instances of the further statements *)

Lemma sample_callback_returning : returning sample_callback.
Proof. apply tame_returning, sample_callback_tame. Qed.

Lemma raw_store_covered : covered (st_heap raw_store).
Proof.
  intros l ps k Hl Hm. destruct l as [|[|l]]; simpl in Hl; simplify_eq; simpl in Hm;
    repeat case_decide; simplify_eq.
Qed.

Lemma raw_store_hooked opts : hooked opts (st_heap raw_store).
Proof. intros l t o Hl. destruct l as [|[|l]]; simpl in Hl; simplify_eq. Qed.

Lemma sample_object_flat k l : lookup_prop sample_object (PStr k) ≠ VRef l.
Proof. simpl. repeat case_decide; done. Qed.

(** Registering callback [7] through the proxy of the sample store: the
    array [1], which was the registry, holds the registration, and the
    registry of the object is now the copy at [3]. *)
Lemma onSet_live_view_witness :
  ∃ s' ps',
    onSet (run sample_callback 2) 2 (VFun 7) None sample_store = Ok tt s' ∧
    st_heap s' !! 1 =
      Some (CArr (sample_registry ++ [{| cb := 7; phase := after |}])) ∧
    st_heap s' !! 0 = Some (CObj ps') ∧
    lookup_prop ps' (PSym observedCallbacksSymbol) = VRef 3 ∧
    1 < 3 ∧
    st_heap s' !! 3 =
      Some (CArr (sample_registry ++ [{| cb := 7; phase := after |}])) ∧
    (∀ f' ph', ∃ s'',
       onSet (run sample_callback 2) 2 (VFun f') ph' s' = Ok tt s'' ∧
       st_heap s'' !! 1 =
         Some (CArr (sample_registry ++ [{| cb := 7; phase := after |}])) ∧
       registry (st_heap s'') 0 =
         Some (sample_registry ++ [{| cb := 7; phase := after |};
                                   {| cb := f'; phase := default after ph' |}])).
Proof.
  exact (onSet_live_view sample_callback 0 2 0 (Some 4) sample_store sample_object 1
           sample_registry 7 None sample_node sample_readable eq_refl eq_refl eq_refl).
Defined.

(** Removing callback [1] through the proxy of the sample store: the
    array [1] still holds the three registrations. *)
Lemma offSet_replaces_array_witness :
  ∃ s' ps',
    offSet (run sample_callback 2) 2 (VFun 1) sample_store = Ok tt s' ∧
    st_heap s' !! 1 = Some (CArr sample_registry) ∧
    st_heap s' !! 0 = Some (CObj ps') ∧
    lookup_prop ps' (PSym observedCallbacksSymbol) = VRef 3 ∧
    string_keys ps' = ["test"].
Proof.
  destruct (offSet_replaces_array sample_callback 0 2 0 (Some 4) sample_store
              sample_object 1 sample_registry (VFun 1) sample_node sample_readable
              eq_refl eq_refl eq_refl (or_intror (ex_intro _ 1 eq_refl)))
    as (s' & ps' & Hrun & Hold & Hobj & Hslot & _ & Hkeys & _).
  by exists s', ps'.
Defined.

(** Callback [7] is not registered on the sample store: registering and
    removing it gives back the three registrations. *)
Lemma register_unregister_round_trip_witness :
  ∃ s1 s2,
    onSet (run sample_callback 2) 2 (VFun 7) None sample_store = Ok tt s1 ∧
    offSet (run sample_callback 2) 2 (VFun 7) s1 = Ok tt s2 ∧
    registry (st_heap s2) 0 = Some sample_registry.
Proof.
  destruct (register_unregister_round_trip sample_callback 0 2 0 (Some 4) sample_store
              sample_registry 7 None sample_node sample_readable eq_refl)
    as (s1 & s2 & s3 & Hon & Hoff & _ & Hback & _).
  exists s1, s2. split_and!; [done|done|]. apply Hback.
  repeat constructor; by intros [=].
Defined.

(** Callback [7] registered for the before phase on the sample store,
    then [proxy.test = 5]: callback [7] is the last of the before phase,
    and what it returns is stored. *)
Lemma registered_callback_is_called_witness :
  ∃ s1 s2 ps2 vb,
    onSet (run sample_callback 2) 2 (VFun 7) (Some before) sample_store = Ok tt s1 ∧
    Reflect_set sample_callback (run sample_callback 1) 2 (PStr "test") (VNum 5) 2 s1
      = Ok true s2 ∧
    st_heap s2 !! 0 = Some (CObj ps2) ∧ lookup_prop ps2 (PStr "test") = vb ∧
    omap callee (drop (length (st_trace s1)) (st_trace s2)) =
      before_hooks sample_options sample_registry ++ [7] ++
      after_hooks sample_options sample_registry ∧
    ∃ vi, sample_callback 7 (PStr "test") vi (VNum 123) (VRef 2) = Some vb.
Proof.
  apply (registered_callback_is_called sample_callback 0 2 2 0 sample_options
           sample_store sample_object 1 sample_registry 7 (Some before)
           (PStr "test") (VNum 5) eq_refl eq_refl eq_refl eq_refl (or_introl eq_refl)
           sample_readable).
  - done.
  - done.
  - intros h x. apply sample_callback_returning.
Defined.


(** [proxy.test = 456] on the sample store, then [proxy.test]: the read
    returns [1824]. *)
Lemma write_then_read_witness :
  ∃ s' s'',
    Reflect_set sample_callback (run sample_callback 1) 2 (PStr "test") (VNum 456) 2
      sample_store = Ok true s' ∧
    Reflect_get sample_callback (run sample_callback 1) 2 (PStr "test") 2 s'
      = Ok (VNum 1824) s''.
Proof.
  destruct (write_then_read sample_callback 0 2 0 sample_options sample_object 1
              sample_registry (PStr "test") (VNum 456) 2 sample_store (VNum 456)
              sample_store (VNum 1824) eq_refl eq_refl eq_refl eq_refl eq_refl eq_refl
              (sample_after_hooks_return (VNum 1824))
              (λ f k' x _, sample_callback_returning f k' x (VRef 0) (VRef 2)))
    as (s' & ps1 & Hset & _ & (s'' & Hget & _) & _).
  by exists s', s''.
Defined.

(** With the validating interceptor as the global [onBeforeSet] hook,
    [proxy.test = -1] throws, and the store is as it was. *)
Lemma before_throw_blocks_write_witness :
  1 ∈ before_hooks sample_options sample_registry ∧
  Reflect_set strict_callback (run strict_callback 1) 2 (PStr "test") (VNum (-1)) 2
    sample_store =
    Throw (Thrown 1)
      {| st_heap := st_heap sample_store;
         st_trace := [EvCall 1 (PStr "test") (VNum (-1)) (VNum 123) (VRef 2)] |}.
Proof.
  exact (before_throw_blocks_write strict_callback 0 2 0 sample_options sample_object 1
           sample_registry (PStr "test") (VNum (-1)) 2 sample_store (VNum (-1))
           sample_store 1 eq_refl eq_refl eq_refl eq_refl eq_refl eq_refl).
Defined.

(** With callback [2], the first ['after'] registration, throwing,
    [proxy.test = 5] throws after [5] has been stored, and the two
    callbacks after it are not called. *)
Lemma after_throw_keeps_write_witness :
  ∃ ps1,
    st_heap sample_store !! 0 = Some (CObj ps1) ∧
    Reflect_set strict_callback (run strict_callback 1) 2 (PStr "test") (VNum 5) 2
      sample_store =
      Throw (Thrown 2)
        {| st_heap := <[0 := CObj (update_prop ps1 (PStr "test") (VNum 5))]>
                        (st_heap sample_store);
           st_trace :=
             [EvCall 1 (PStr "test") (VNum 5) (VNum 123) (VRef 2);
              EvCall 1 (PStr "test") (VNum 5) (VNum 123) (VRef 2);
              EvWrite 0 (PStr "test") (VNum 5);
              EvCall 2 (PStr "test") (VNum 5) (VNum 123) (VRef 2)] |}.
Proof.
  destruct (after_throw_keeps_write strict_callback 0 2 0 sample_options sample_object 1
              sample_registry (PStr "test") (VNum 5) 2 sample_store (VNum 5)
              sample_store (VNum 5) 2 eq_refl eq_refl eq_refl eq_refl eq_refl eq_refl
              eq_refl)
    as (ps1 & reached & rest & Ht & Hfs & _ & _ & Hrun).
  destruct reached as [|f reached]; [|by destruct reached; simplify_eq].
  by exists ps1.
Defined.

(** Wrapping the README object leaves both objects with their keys. *)
Lemma observed_keeps_keys_witness :
  ∃ p s1 ps0 ps1,
    observed (run sample_callback 4) 0 sample_options raw_store = Ok p s1 ∧
    st_heap s1 !! 0 = Some (CObj ps0) ∧ string_keys ps0 = ["foo"; "cool"] ∧
    st_heap s1 !! 1 = Some (CObj ps1) ∧ string_keys ps1 = ["test"].
Proof.
  assert (∃ p s1, observed (run sample_callback 4) 0 sample_options raw_store = Ok p s1)
    as (p & s1 & Hrun) by (eexists _, _; vm_compute; reflexivity).
  destruct (proj1 (observed_keeps_keys sample_callback 4 0 sample_options raw_store
                     p s1 Hrun) 0 raw_object eq_refl) as (ps0 & H0 & Hk0).
  destruct (proj1 (observed_keeps_keys sample_callback 4 0 sample_options raw_store
                     p s1 Hrun) 1 [(PStr "test", VNum 123)] eq_refl) as (ps1 & H1 & Hk1).
  by exists p, s1, ps0, ps1.
Defined.

(** Defining the marker through the proxy of the sample store. *)
Lemma defineProp_invisible_witness :
  ∃ s' ps',
    defineProp (run sample_callback 2) 2 observedSymbol (VNum 7) sample_store
      = Ok tt s' ∧
    st_heap s' !! 0 = Some (CObj ps') ∧
    lookup_prop ps' (PSym observedSymbol) = VNum 7 ∧
    (∀ k, k ≠ PSym observedSymbol →
          lookup_prop ps' k = lookup_prop sample_object k) ∧
    Object_keys_ (run sample_callback 2) 2 s' = Ok ["test"] s' ∧
    (∀ l c, l ≠ 0 → st_heap sample_store !! l = Some c → st_heap s' !! l = Some c) ∧
    st_trace s' = st_trace sample_store.
Proof.
  exact (defineProp_invisible sample_callback 0 2 0 (Some 4) sample_object
           observedSymbol (VNum 7) sample_store sample_node eq_refl).
Defined.

(** Wrapping the README object with the sample options: the two proxies
    built carry the three hooks. *)
Lemma hooks_reach_every_proxy_witness :
  ∃ p s1,
    observed (run sample_callback 4) 0 sample_options raw_store = Ok p s1 ∧
    hooked sample_options (st_heap s1).
Proof.
  assert (∃ p s1, observed (run sample_callback 4) 0 sample_options raw_store = Ok p s1)
    as (p & s1 & Hrun) by (eexists _, _; vm_compute; reflexivity).
  exists p, s1. split; [done|].
  exact (proj1 (hooks_reach_every_proxy sample_callback 4 0 sample_options raw_store
                  p s1 (raw_store_hooked sample_options) Hrun)).
Defined.

(** [isObserved(observed(someObject))] on the README object. *)
Lemma result_is_observed_witness :
  ∃ p s1 s2,
    observed (run sample_callback 4) 0 sample_options raw_store = Ok p s1 ∧
    isObserved (run sample_callback 2) p s1 = Ok true s2 ∧
    st_heap s2 = st_heap s1.
Proof.
  assert (∃ p s1, observed (run sample_callback 4) 0 sample_options raw_store = Ok p s1)
    as (p & s1 & Hrun) by (eexists _, _; vm_compute; reflexivity).
  destruct (result_is_observed sample_callback 4 0 0 raw_object sample_options raw_store
              p s1 eq_refl Hrun
              (λ f _, sample_callback_returning f _ _ _ _))
    as (s2 & Hobs & Hheap & _).
  by exists p, s1, s2.
Defined.


(** Wrapping the README object: the nested object is marked too. *)
Lemma every_depth_is_marked_witness :
  ∃ p s1,
    observed (run sample_callback 4) 0 sample_options raw_store = Ok p s1 ∧
    covered (st_heap s1) ∧
    (∀ q, reach (st_heap s1) p q → marked (st_heap s1) q).
Proof.
  assert (∃ p s1, observed (run sample_callback 4) 0 sample_options raw_store = Ok p s1)
    as (p & s1 & Hrun) by (eexists _, _; vm_compute; reflexivity).
  destruct (every_depth_is_marked sample_callback 4 0 sample_options raw_store p s1
              (tame_no_injection _ sample_callback_tame) raw_store_covered Hrun)
    as (Hcov & Hreach & _).
  by exists p, s1.
Defined.

(** [getObservers(proxy)] on the sample store returns the array [1]. *)
Lemma getObservers_reads_registry_witness :
  ∃ s',
    getObservers (run sample_callback 2) 2 sample_store = Ok (VRef 1) s' ∧
    st_heap s' = st_heap sample_store ∧
    st_trace s' =
      [EvCall 4 (PSym observedCallbacksSymbol) (VRef 1) (VRef 0) (VRef 2)] ∧
    getObservers (run sample_callback 2) 0 sample_store = Ok (VRef 1) sample_store.
Proof.
  destruct (getObservers_reads_registry sample_callback 0 2 0 (Some 4) sample_object
              sample_store sample_node sample_readable eq_refl)
    as (s' & Hrun & Hheap & Htrace & Hraw & _).
  by exists s'.
Defined.

(** [initCallbackArray(proxy)] on the sample store changes nothing. *)
Lemma initCallbackArray_idempotent_witness :
  ∃ s1,
    initCallbackArray (run sample_callback 2) 2 sample_store = Ok tt s1 ∧
    st_heap s1 = st_heap sample_store.
Proof.
  destruct (initCallbackArray_idempotent sample_callback 0 2 0 (Some 4) sample_store
              sample_object sample_node sample_readable eq_refl)
    as (s1 & s2 & Hrun & Hsame & _).
  exists s1. split; [done|]. by apply Hsame.
Defined.


(** [observed(proxy)] on the sample store returns the proxy, and [test]
    holds [492] instead of [123]. *)
Lemma rewrap_reassigns_every_key_witness :
  ∃ s' ps',
    observed (run sample_callback 2) 2 defaultOptions sample_store = Ok 2 s' ∧
    st_heap s' = <[0 := CObj ps']> (st_heap sample_store) ∧
    lookup_prop ps' (PStr "test") = VNum 492.
Proof.
  destruct (rewrap_reassigns_every_key sample_callback 0 2 0 sample_options
              defaultOptions sample_object 1 sample_registry sample_store
              eq_refl eq_refl eq_refl eq_refl eq_refl sample_object_flat
              (NoDup_singleton "test") sample_callback_returning)
    as (s' & ps' & Hrun & Hheap & _ & Hkeys).
  exists s', ps'. split_and!; [done|done|].
  destruct (Hkeys "test") as [Hpipe _]; [by left|].
  by injection Hpipe as <-.
Defined.

(** [someObject.test = 5] on the raw object of the sample store, then
    [proxy.test]. *)
Lemma raw_write_bypasses_callbacks_witness :
  Reflect_set sample_callback (run sample_callback 0) 0 (PStr "test") (VNum 5) 0
      sample_store =
    Ok true {| st_heap := <[0 := CObj (update_prop sample_object (PStr "test") (VNum 5))]>
                            (st_heap sample_store);
               st_trace := [EvWrite 0 (PStr "test") (VNum 5)] |} ∧
  Reflect_get sample_callback (run sample_callback 1) 2 (PStr "test") 2
      {| st_heap := <[0 := CObj (update_prop sample_object (PStr "test") (VNum 5))]>
                      (st_heap sample_store);
         st_trace := [EvWrite 0 (PStr "test") (VNum 5)] |} =
    Ok (VNum 5)
       {| st_heap := <[0 := CObj (update_prop sample_object (PStr "test") (VNum 5))]>
                       (st_heap sample_store);
          st_trace := [EvWrite 0 (PStr "test") (VNum 5);
                       EvCall 4 (PStr "test") (VNum 5) (VRef 0) (VRef 2)] |}.
Proof.
  apply (raw_write_bypasses_callbacks sample_callback (run sample_callback 0) 0 2 0
           sample_options sample_object (PStr "test") (VNum 5) sample_store
           eq_refl eq_refl).
  intros f _. apply sample_callback_returning.
Defined.
